(** * Heap-file storage engine and binary record codec (alltp.py)

    A shallow embedding of the slotted-page format, the heap-file manager
    and the schema-driven record codec of [src/alltp.py].

    Conventions of the embedding:
    - Python [bytes] / [bytearray] values are [list byte]; a [bytearray]
      that is mutated in place is threaded through the function that
      mutates it (explicit state passing), and module [Mem] replays
      [insert_record_into_page] on an object store with identities.
    - Python [int] is [Z]; [str] is a list of Unicode code points.
    - An exception is a value of [exn]; a function that may raise returns
      a [result].
    - The file system is a finite map from file names to file contents. *)

From Stdlib Require Import ZArith List Lia Bool.
From Stdlib Require Import Init.Byte.
From Stdlib Require Import Floats.SpecFloat.
From Stdlib Require Import Sorting.Permutation Sorting.Sorted.
From stdpp Require Import base option list strings sorting gmap.

Local Open Scope Z_scope.

(** ** Exceptions and the error monad *)

Inductive exn : Type :=
| ValueError          (* ValueError raised by the program or by int() *)
| IndexError
| KeyError
| IOError             (* OSError and its subclasses *)
| StructError         (* struct.error *)
| UnicodeEncodeError  (* a subclass of ValueError *)
| UnicodeDecodeError  (* a subclass of ValueError *)
| OverflowError
| TypeError.

(** [except ValueError] also catches the subclasses of ValueError. *)
Definition is_ValueError (e : exn) : bool :=
  match e with
  | ValueError | UnicodeEncodeError | UnicodeDecodeError => true
  | _ => false
  end.

Inductive result (A : Type) : Type :=
| Ok (a : A)
| Err (e : exn).
Arguments Ok {A} a.
Arguments Err {A} e.

Definition bind {A B : Type} (r : result A) (k : A -> result B) : result B :=
  match r with
  | Ok a => k a
  | Err e => Err e
  end.

Declare Scope result_scope.
Delimit Scope result_scope with result.
Notation "'let!' x ':=' c 'in' k" := (bind c (fun x => k))
  (at level 10, x name, c at level 100, k at level 200) : result_scope.
Notation "'let!' ' p ':=' c 'in' k" := (bind c (fun x => match x with p => k end))
  (at level 10, p pattern, c at level 100, k at level 200) : result_scope.
Local Open Scope result_scope.

(** ** Bytes *)

Abbreviation bytes := (list byte).

Definition len {A} (l : list A) : Z := Z.of_nat (length l).

Definition byte_to_Z (b : byte) : Z := Z.of_N (Byte.to_N b).

Definition byte_of_Z (z : Z) : byte :=
  match Byte.of_N (Z.to_N (z mod 256)) with
  | Some b => b
  | None => x00
  end.

(** [b'\x00' * k]: a negative count gives the empty string. *)
Definition zeros (k : Z) : bytes := repeat x00 (Z.to_nat k).

(** ** Python slicing

    [slice_index n i] is the position a slice bound [i] denotes in a
    sequence of length [n]: a negative bound counts from the end, and
    every bound is clipped to [0..n]. *)

Definition slice_index (n i : Z) : Z :=
  if i <? 0 then Z.max 0 (i + n) else Z.min i n.

(** [l[i:j]] *)
Definition py_slice {A} (l : list A) (i j : Z) : list A :=
  let i' := slice_index (len l) i in
  let j' := slice_index (len l) j in
  take (Z.to_nat (j' - i')) (drop (Z.to_nat i') l).

(** [l[:j]] *)
Definition py_prefix {A} (l : list A) (j : Z) : list A := py_slice l 0 j.

(** [l[i:j] = data] on a bytearray: the slice is replaced by [data],
    whatever its length. *)
Definition py_slice_assign {A} (l : list A) (i j : Z) (data : list A) : list A :=
  let i' := slice_index (len l) i in
  let j' := slice_index (len l) j in
  take (Z.to_nat i') l ++ data ++ drop (Z.to_nat (Z.max i' j')) l.

(** ** struct.pack / struct.unpack *)

(** [struct.pack(">B", v)] *)
Definition pack_u8 (v : Z) : result bytes :=
  if (0 <=? v) && (v <=? 255) then Ok [byte_of_Z v] else Err StructError.

(** [struct.pack(">H", v)] *)
Definition pack_u16 (v : Z) : result bytes :=
  if (0 <=? v) && (v <=? 65535)
  then Ok [byte_of_Z (v / 256); byte_of_Z (v mod 256)]
  else Err StructError.

(** [struct.unpack(">H", b)[0]] *)
Definition unpack_u16 (b : bytes) : result Z :=
  match b with
  | [hi; lo] => Ok (byte_to_Z hi * 256 + byte_to_Z lo)
  | _ => Err StructError
  end.

(** [struct.pack(">i", v)]: two's complement, big endian. *)
Definition pack_i32 (v : Z) : result bytes :=
  if (- 2147483648 <=? v) && (v <=? 2147483647)
  then let u := v mod 4294967296 in
       Ok [byte_of_Z (u / 16777216); byte_of_Z (u / 65536);
           byte_of_Z (u / 256); byte_of_Z u]
  else Err StructError.

(** The unsigned value of four big-endian bytes. *)
Definition be32 (b0 b1 b2 b3 : byte) : Z :=
  byte_to_Z b0 * 16777216 + byte_to_Z b1 * 65536 + byte_to_Z b2 * 256 + byte_to_Z b3.

(** [struct.unpack(">i", b)[0]] *)
Definition unpack_i32 (b : bytes) : result Z :=
  match b with
  | [b0; b1; b2; b3] =>
      let u := be32 b0 b1 b2 b3 in
      Ok (if u <? 2147483648 then u else u - 4294967296)
  | _ => Err StructError
  end.

(** ** Constants *)

Definition PAGE_SIZE : Z := 4096.
Definition FOOTER_SIZE : Z := 4.
Definition SLOT_ENTRY_SIZE : Z := 4.

(** ** Heap page helpers *)

Definition _read_footer (page : bytes) : result (Z * Z) :=
  if negb (len page =? PAGE_SIZE) then Err ValueError else
  let! slot_count := unpack_u16 (py_slice page (PAGE_SIZE - FOOTER_SIZE) (PAGE_SIZE - 2)) in
  let! free_offset := unpack_u16 (py_slice page (PAGE_SIZE - 2) PAGE_SIZE) in
  Ok (slot_count, free_offset).

(** The bytearray is mutated in place: the new contents are returned. *)
Definition _write_footer (page : bytes) (slot_count free_offset : Z) : result bytes :=
  let! b1 := pack_u16 slot_count in
  let page := py_slice_assign page (PAGE_SIZE - FOOTER_SIZE) (PAGE_SIZE - 2) b1 in
  let! b2 := pack_u16 free_offset in
  Ok (py_slice_assign page (PAGE_SIZE - 2) PAGE_SIZE b2).

Definition _slot_pos (slot_index : Z) : Z :=
  PAGE_SIZE - FOOTER_SIZE - (slot_index + 1) * SLOT_ENTRY_SIZE.

Definition _read_slot (page : bytes) (slot_index slot_count : Z) : result (Z * Z) :=
  if (slot_index <? 0) || (slot_index >=? slot_count) then Err IndexError else
  let pos := _slot_pos slot_index in
  let! offset := unpack_u16 (py_slice page pos (pos + 2)) in
  let! length := unpack_u16 (py_slice page (pos + 2) (pos + 4)) in
  Ok (offset, length).

Definition _write_slot (page : bytes) (slot_index offset length : Z) : result bytes :=
  let pos := _slot_pos slot_index in
  let! b1 := pack_u16 offset in
  let page := py_slice_assign page pos (pos + 2) b1 in
  let! b2 := pack_u16 length in
  Ok (py_slice_assign page (pos + 2) (pos + 4) b2).

(** [bytearray(PAGE_SIZE)] is zero filled; writing the footer [0, 0]
    cannot fail. *)
Definition initialize_empty_page : bytes :=
  match _write_footer (zeros PAGE_SIZE) 0 0 with
  | Ok p => p
  | Err _ => []
  end.

#[global] Arguments initialize_empty_page : simpl never.

Definition free_space_in_page (page : bytes) : result Z :=
  let! '(slot_count, free_offset) := _read_footer page in
  let slot_table_start := PAGE_SIZE - FOOTER_SIZE - slot_count * SLOT_ENTRY_SIZE in
  Ok (slot_table_start - free_offset).

Definition insert_record_into_page (page record : bytes) : result (bytes * Z) :=
  let! '(slot_count, free_offset) := _read_footer page in
  let needed := len record + SLOT_ENTRY_SIZE in
  let! fs := free_space_in_page page in
  if fs <? needed then Err ValueError else
  let pg := page in
  let rec_off := free_offset in
  let pg := py_slice_assign pg rec_off (rec_off + len record) record in
  let new_slot := slot_count in
  let! pg := _write_slot pg new_slot rec_off (len record) in
  let! pg := _write_footer pg (slot_count + 1) (free_offset + len record) in
  Ok (pg, new_slot).

Definition get_record_from_page (page : bytes) (slot_index : Z) : result bytes :=
  let! '(slot_count, _) := _read_footer page in
  let! '(offset, length) := _read_slot page slot_index slot_count in
  Ok (py_slice page offset (offset + length)).


(** ** File-level heap functions

    The file system maps a file name to the contents of the file. A
    function that changes the file system returns the new one. *)

Abbreviation pystr := (list Z).
Abbreviation filesystem := (gmap pystr bytes).

(** [os.path.exists(fname)] *)
Definition path_exists (fs : filesystem) (fname : pystr) : bool :=
  match fs !! fname with Some _ => true | None => false end.

(** [os.path.getsize(fname)] *)
Definition getsize (fs : filesystem) (fname : pystr) : result Z :=
  match fs !! fname with Some c => Ok (len c) | None => Err IOError end.

(** [f.seek(off); f.write(data)] on a file opened for update: a seek past
    the end of the file leaves a hole that reads as zero bytes. *)
Definition file_write_at (content : bytes) (off : Z) (data : bytes) : bytes :=
  let padded := content ++ zeros (off - len content) in
  take (Z.to_nat off) padded ++ data ++ drop (Z.to_nat (off + len data)) padded.

Definition create_heap_file (fs : filesystem) (fname : pystr) : filesystem :=
  <[fname := initialize_empty_page]> fs.

(** [f.seek(offset)] on a binary file with the given contents; the
    result is the new position. Python converts the offset to a signed
    64-bit file offset and raises ValueError when it does not fit; the
    operating system refuses a negative offset that fits (OSError). The
    contents of a file have fewer than 2^63 bytes, so an offset inside
    the contents always fits. *)
Definition file_seek (content : bytes) (offset : Z) : result Z :=
  if offset <? 0 then
    if offset <? - 2 ^ 63 then Err ValueError else Err IOError
  else if (len content <=? offset) && (2 ^ 63 <=? offset) then Err ValueError
  else Ok offset.

Definition read_page (fs : filesystem) (fname : pystr) (page_num : Z) : result bytes :=
  match fs !! fname with
  | None => Err IOError
  | Some content =>
      let! pos := file_seek content (page_num * PAGE_SIZE) in
      let data := py_slice content pos (pos + PAGE_SIZE) in
      if negb (len data =? PAGE_SIZE) then Err IOError else Ok data
  end.

Definition write_page (fs : filesystem) (fname : pystr) (page_num : Z)
    (page_data : bytes) : filesystem * result unit :=
  if negb (len page_data =? PAGE_SIZE) then (fs, Err ValueError) else
  match fs !! fname with
  | None => (fs, Err IOError)
  | Some content =>
      match file_seek content (page_num * PAGE_SIZE) with
      | Err e => (fs, Err e)
      | Ok pos => (<[fname := file_write_at content pos page_data]> fs, Ok tt)
      end
  end.

Definition append_page (fs : filesystem) (fname : pystr) (page_data : bytes)
    : filesystem * result unit :=
  if negb (len page_data =? PAGE_SIZE) then (fs, Err ValueError) else
  let content := match fs !! fname with Some c => c | None => [] end in
  (<[fname := content ++ page_data]> fs, Ok tt).

(** The loop [for p in range(num_pages)] of [insert_record], over the page
    numbers still to visit. [None]: the loop ran to its end; [Some]: the
    function returned, or an exception left the loop. Only a ValueError
    raised inside the [try] makes the loop continue. *)
Fixpoint insert_record_loop (fs : filesystem) (fname : pystr) (record : bytes)
    (ps : list Z) : option (filesystem * result (Z * Z)) :=
  match ps with
  | [] => None
  | p :: ps' =>
      match read_page fs fname p with
      | Err e => Some (fs, Err e)
      | Ok page =>
          match insert_record_into_page page record with
          | Ok (new_page, slot) =>
              match write_page fs fname p new_page with
              | (fs', Ok _) => Some (fs', Ok (p, slot))
              | (fs', Err e) =>
                  if is_ValueError e
                  then insert_record_loop fs' fname record ps'
                  else Some (fs', Err e)
              end
          | Err e =>
              if is_ValueError e
              then insert_record_loop fs fname record ps'
              else Some (fs, Err e)
          end
      end
  end.

Definition insert_record (fs : filesystem) (fname : pystr) (record : bytes)
    : filesystem * result (Z * Z) :=
  let fs :=
    if negb (path_exists fs fname)
       || match getsize fs fname with Ok n => n =? 0 | Err _ => false end
    then create_heap_file fs fname else fs in
  match getsize fs fname with
  | Err e => (fs, Err e)
  | Ok file_size =>
      let num_pages := file_size / PAGE_SIZE in
      match insert_record_loop fs fname record (seqZ 0 num_pages) with
      | Some r => r
      | None =>
          (* append new page *)
          let new_pg := initialize_empty_page in
          match insert_record_into_page new_pg record
                return filesystem * result (Z * Z) with
          | Err e => (fs, Err e)
          | Ok (pg_bytes, slot) =>
              match append_page fs fname pg_bytes with
              | (fs', Err e) => (fs', Err e)
              | (fs', Ok _) => (fs', Ok (num_pages, slot))
              end
          end
      end
  end.

(** The inner loop [for si in range(slot_count)] of [get_all_raw_records];
    [results] is the list the loop appends to. *)
Fixpoint scan_slots (page : bytes) (p : Z) (sis : list Z)
    (results : list (Z * Z * bytes)) : result (list (Z * Z * bytes)) :=
  match sis with
  | [] => Ok results
  | si :: sis' =>
      let! rec := get_record_from_page page si in
      scan_slots page p sis' (results ++ [(p, si, rec)])
  end.

(** The outer loop [for p in range(num_pages)]. *)
Fixpoint scan_pages (fs : filesystem) (fname : pystr) (ps : list Z)
    (results : list (Z * Z * bytes)) : result (list (Z * Z * bytes)) :=
  match ps with
  | [] => Ok results
  | p :: ps' =>
      let! page := read_page fs fname p in
      let! '(slot_count, _) := _read_footer page in
      let! results := scan_slots page p (seqZ 0 slot_count) results in
      scan_pages fs fname ps' results
  end.

Definition get_all_raw_records (fs : filesystem) (fname : pystr)
    : result (list (Z * Z * bytes)) :=
  if negb (path_exists fs fname) then Ok [] else
  let results := [] in
  let! fsize := getsize fs fname in
  if fsize =? 0 then Ok [] else
  let num_pages := fsize / PAGE_SIZE in
  scan_pages fs fname (seqZ 0 num_pages) results.

(** ** Segments and in-place updates (used to state the proofs)

    [seg l a n] is the [n] elements of [l] from position [a];
    [upd l a d] overwrites [l] with [d] from position [a]. For bounds
    inside the sequence they are what [py_slice] and [py_slice_assign]
    compute. *)

Definition seg {A} (l : list A) (a n : Z) : list A :=
  take (Z.to_nat n) (drop (Z.to_nat a) l).

Definition upd {A} (l : list A) (a : Z) (d : list A) : list A :=
  take (Z.to_nat a) l ++ d ++ drop (Z.to_nat (a + len d)) l.

(** The two bytes [struct.pack(">H", v)] produces for [v] in range. *)
Definition u16 (v : Z) : bytes := [byte_of_Z (v / 256); byte_of_Z (v mod 256)].

(** The page image a successful [insert_record_into_page] builds from a
    page whose footer reads [(slot_count, free_offset)]. *)
Definition insert_image (page record : bytes) (slot_count free_offset : Z) : bytes :=
  let pos := _slot_pos slot_count in
  let pg := upd page free_offset record in
  let pg := upd pg pos (u16 free_offset) in
  let pg := upd pg (pos + 2) (u16 (len record)) in
  let pg := upd pg 4092 (u16 (slot_count + 1)) in
  upd pg 4094 (u16 (free_offset + len record)).

(** ** Abstract contents of pages and heap files

    A page holds a list of records in slot order, packed from the start
    of the page; a heap file is a list of such pages. *)

Definition total (recs : list bytes) : Z := len (concat recs).

Definition page_repr (recs : list bytes) (page : bytes) : Prop :=
  _read_footer page = Ok (len recs, total recs) /\
  4 * len recs + total recs <= 4092 /\
  forall (i : nat) (r : bytes), recs !! i = Some r ->
    _read_slot page (Z.of_nat i) (len recs) = Ok (total (take i recs), len r) /\
    seg page (total (take i recs)) (len r) = r.

(** The record [r] fits a page holding [recs]: its bytes and a slot entry. *)
Definition fits (recs : list bytes) (r : bytes) : Prop :=
  len r + 4 <= 4092 - 4 * len recs - total recs.

#[global] Instance fits_dec recs r : Decision (fits recs r).
Proof. unfold fits. apply _. Defined.

Definition heap_repr (pages : list (list bytes)) (content : bytes) : Prop :=
  exists imgs, content = concat imgs /\ Forall2 page_repr pages imgs.

(** First-fit placement on the abstract heap: the first page that fits
    takes the record; a fresh page is appended when none does and the
    record fits an empty page. *)
Definition abs_insert (pages : list (list bytes)) (r : bytes)
    : option (list (list bytes) * (Z * Z)) :=
  match list_find (fun pg => fits pg r) pages with
  | Some (p, pg) => Some (<[p := pg ++ [r]]> pages, (Z.of_nat p, len pg))
  | None =>
      if decide (fits [] r) then Some (pages ++ [[r]], (len pages, 0)) else None
  end.

(** The entries a scan of the abstract heap yields, page numbers from [p]. *)
Definition page_entries (p : Z) (recs : list bytes) : list (Z * Z * bytes) :=
  imap (fun si r => (p, Z.of_nat si, r)) recs.

Fixpoint heap_entries (p : Z) (pages : list (list bytes)) : list (Z * Z * bytes) :=
  match pages with
  | [] => []
  | pg :: rest => page_entries p pg ++ heap_entries (p + 1) rest
  end.

(** ** Sequences of inserts and what a scan returns *)

(** [insert_record] called on each record of [recs] in turn, stopping at
    the first exception; the result lists the addresses returned. *)
Fixpoint insert_all (fs : filesystem) (fname : pystr) (recs : list bytes)
    : filesystem * result (list (Z * Z)) :=
  match recs with
  | [] => (fs, Ok [])
  | r :: rest =>
      match insert_record fs fname r with
      | (fs', Err e) => (fs', Err e)
      | (fs', Ok a) =>
          match insert_all fs' fname rest with
          | (fs'', Err e) => (fs'', Err e)
          | (fs'', Ok addrs) => (fs'', Ok (a :: addrs))
          end
      end
  end.

Fixpoint abs_insert_all (pages : list (list bytes)) (recs : list bytes)
    : option (list (list bytes) * list (Z * Z)) :=
  match recs with
  | [] => Some (pages, [])
  | r :: rest =>
      match abs_insert pages r with
      | None => None
      | Some (pages', a) =>
          match abs_insert_all pages' rest with
          | None => None
          | Some (pages'', addrs) => Some (pages'', a :: addrs)
          end
      end
  end.

(** Each record paired with the address its insert returned. *)
Definition placed (addrs : list (Z * Z)) (recs : list bytes) : list (Z * Z * bytes) :=
  zip_with (fun a r => (a.1, a.2, r)) addrs recs.

(** Page-then-slot order on scan entries. *)
Definition entry_lt (e1 e2 : Z * Z * bytes) : Prop :=
  e1.1.1 < e2.1.1 \/ (e1.1.1 = e2.1.1 /\ e1.1.2 < e2.1.2).

(** The number of distinct pages a scan result mentions. *)
Definition pages_spanned (out : list (Z * Z * bytes)) : Z :=
  Z.of_nat (size (list_to_set (C := gset Z) ((fun e => e.1.1) <$> out))).

(** ** Pages built through the page API *)

Inductive reachable : bytes -> Prop :=
| reachable_empty : reachable initialize_empty_page
| reachable_insert (page record page' : bytes) (slot : Z) :
    reachable page ->
    insert_record_into_page page record = Ok (page', slot) ->
    reachable page'.

(** ** An object store for the buffers of [insert_record_into_page]

    Python buffers have identity: [bytearray(page)] and [bytes(pg)] make
    new objects, slice assignment changes the object it is applied to.
    The store maps an address to the contents of the buffer that lives
    there; a function returns the store it leaves behind. *)
Module Mem.
Abbreviation store := (list bytes).

(** A new object holding a copy of [b]. *)
Definition alloc (s : store) (b : bytes) : store * nat := (s ++ [b], length s).

(** [pg[i:j] = data] on the bytearray at address [pg]. *)
Definition slice_assign (pg : nat) (i j : Z) (data : bytes) (s : store) : store :=
  alter (fun b => py_slice_assign b i j data) pg s.

Definition _write_footer (page : nat) (slot_count free_offset : Z) (s : store)
    : store * result unit :=
  match pack_u16 slot_count with
  | Err e => (s, Err e)
  | Ok b1 =>
      let s := slice_assign page (PAGE_SIZE - FOOTER_SIZE) (PAGE_SIZE - 2) b1 s in
      match pack_u16 free_offset with
      | Err e => (s, Err e)
      | Ok b2 => (slice_assign page (PAGE_SIZE - 2) PAGE_SIZE b2 s, Ok tt)
      end
  end.

Definition _write_slot (page : nat) (slot_index offset length : Z) (s : store)
    : store * result unit :=
  let pos := _slot_pos slot_index in
  match pack_u16 offset with
  | Err e => (s, Err e)
  | Ok b1 =>
      let s := slice_assign page pos (pos + 2) b1 s in
      match pack_u16 length with
      | Err e => (s, Err e)
      | Ok b2 => (slice_assign page (pos + 2) (pos + 4) b2 s, Ok tt)
      end
  end.

(** [page] is the address of the caller's page; the result is the
    address of the new page image and the slot index. *)
Definition insert_record_into_page (page : nat) (record : bytes) (s : store)
    : store * result (nat * Z) :=
  match s !! page with
  | None => (s, Err TypeError)
  | Some page_b =>
      match _read_footer page_b with
      | Err e => (s, Err e)
      | Ok (slot_count, free_offset) =>
          let needed := len record + SLOT_ENTRY_SIZE in
          match free_space_in_page page_b with
          | Err e => (s, Err e)
          | Ok fsp =>
              if fsp <? needed then (s, Err ValueError) else
              let '(s, pg) := alloc s page_b in
              let rec_off := free_offset in
              let s := slice_assign pg rec_off (rec_off + len record) record s in
              let new_slot := slot_count in
              match _write_slot pg new_slot rec_off (len record) s with
              | (s, Err e) => (s, Err e)
              | (s, Ok _) =>
                  match _write_footer pg (slot_count + 1)
                                      (free_offset + len record) s with
                  | (s, Err e) => (s, Err e)
                  | (s, Ok _) =>
                      match s !! pg with
                      | None => (s, Err TypeError)
                      | Some b => let '(s, out) := alloc s b in
                                  (s, Ok (out, new_slot))
                      end
                  end
              end
          end
      end
  end.
End Mem.

(** A page image that no sequence of inserts produces: one slot, [(0, 4)],
    although the free offset is still 0. *)
Definition stray_slot_page : bytes :=
  upd (upd (zeros PAGE_SIZE) 4088 [x00; x00; x00; x04]) 4092 [x00; x01; x00; x00].

(** ** First fit on the pages of a file *)

(** The free space of [page] suffices for [record] and its slot entry. *)
Definition page_has_room (page record : bytes) : bool :=
  match free_space_in_page page with
  | Ok f => len record + SLOT_ENTRY_SIZE <=? f
  | Err _ => false
  end.

(** The heap file of [fname] consists of the pages [pages], each of
    PAGE_SIZE bytes. *)
Definition file_pages (fs : filesystem) (fname : pystr) (pages : list bytes) : Prop :=
  fs !! fname = Some (concat pages) /\ Forall (fun pg => len pg = PAGE_SIZE) pages.

(** * The record codec *)

(** ** Strings and UTF-8

    A [str] is a list of code points. [s.encode("utf-8")] raises on a
    surrogate; [b.decode("utf-8")] is the strict decoder: it rejects
    overlong forms, surrogates, code points above U+10FFFF, stray
    continuation bytes and truncated sequences. *)

Definition utf8_encode_cp (c : Z) : result bytes :=
  if c <? 0 then Err UnicodeEncodeError
  else if c <? 128 then Ok [byte_of_Z c]
  else if c <? 2048 then
    Ok [byte_of_Z (192 + c / 64); byte_of_Z (128 + c mod 64)]
  else if c <? 65536 then
    if (55296 <=? c) && (c <=? 57343) then Err UnicodeEncodeError
    else Ok [byte_of_Z (224 + c / 4096); byte_of_Z (128 + (c / 64) mod 64);
             byte_of_Z (128 + c mod 64)]
  else if c <? 1114112 then
    Ok [byte_of_Z (240 + c / 262144); byte_of_Z (128 + (c / 4096) mod 64);
        byte_of_Z (128 + (c / 64) mod 64); byte_of_Z (128 + c mod 64)]
  else Err UnicodeEncodeError.

Fixpoint utf8_encode (s : pystr) : result bytes :=
  match s with
  | [] => Ok []
  | c :: s' =>
      let! b := utf8_encode_cp c in
      let! bs := utf8_encode s' in
      Ok (b ++ bs)
  end.

(** A continuation byte [10xxxxxx]. *)
Definition is_cont (b : byte) : bool :=
  (128 <=? byte_to_Z b) && (byte_to_Z b <=? 191).

(** The payload of a continuation byte. *)
Definition cont (b : byte) : Z := byte_to_Z b - 128.

Fixpoint utf8_decode (b : bytes) : result pystr :=
  match b with
  | [] => Ok []
  | b0 :: r0 =>
      let z0 := byte_to_Z b0 in
      if z0 <? 128 then
        let! s := utf8_decode r0 in Ok (z0 :: s)
      else if z0 <? 194 then Err UnicodeDecodeError
      else if z0 <? 224 then
        match r0 with
        | b1 :: r1 =>
            if is_cont b1 then
              let! s := utf8_decode r1 in
              Ok ((z0 - 192) * 64 + cont b1 :: s)
            else Err UnicodeDecodeError
        | _ => Err UnicodeDecodeError
        end
      else if z0 <? 240 then
        match r0 with
        | b1 :: b2 :: r2 =>
            let c := (z0 - 224) * 4096 + cont b1 * 64 + cont b2 in
            if is_cont b1 && is_cont b2 && (2048 <=? c)
               && negb ((55296 <=? c) && (c <=? 57343)) then
              let! s := utf8_decode r2 in Ok (c :: s)
            else Err UnicodeDecodeError
        | _ => Err UnicodeDecodeError
        end
      else if z0 <? 245 then
        match r0 with
        | b1 :: b2 :: b3 :: r3 =>
            let c := (z0 - 240) * 262144 + cont b1 * 4096 + cont b2 * 64 + cont b3 in
            if is_cont b1 && is_cont b2 && is_cont b3
               && (65536 <=? c) && (c <? 1114112) then
              let! s := utf8_decode r3 in Ok (c :: s)
            else Err UnicodeDecodeError
        | _ => Err UnicodeDecodeError
        end
      else Err UnicodeDecodeError
  end.

(** [b.rstrip(b'\x00')] *)
Fixpoint rstrip_zeros (b : bytes) : bytes :=
  match b with
  | [] => []
  | x :: r =>
      match rstrip_zeros r with
      | [] => match x with x00 => [] | _ => [x] end
      | r' => x :: r'
      end
  end.

(** A [str] literal, from its ASCII text. *)
Definition str (s : String.string) : pystr :=
  map (fun b => byte_to_Z b) (String.list_byte_of_string s).

(** ** Primitive pack/unpack helpers *)

Definition _pack_int (v : Z) : result bytes := pack_i32 v.

Definition _unpack_int (b : bytes) : result Z :=
  if negb (len b =? 4) then Err ValueError else unpack_i32 b.

Definition _pack_char (s : pystr) (n : Z) : result bytes :=
  let! b := utf8_encode s in
  let b := if len b >? n then py_prefix b n else b in
  Ok (b ++ zeros (n - len b)).

Definition _unpack_char (b : bytes) : result pystr :=
  utf8_decode (rstrip_zeros b).

Definition _pack_varchar (s : pystr) (n : Z) : result bytes :=
  let! b := utf8_encode s in
  let b := if len b >? n then py_prefix b n else b in
  let b := if len b >=? 256 then py_prefix b 255 else b in
  let length := len b in
  let! l := pack_u8 length in
  Ok (l ++ b ++ zeros (n - length)).

Definition _unpack_varchar (b : bytes) (n : Z) : result pystr :=
  match b with
  | [] => Ok []
  | b0 :: _ =>
      let length := byte_to_Z b0 in
      let data := py_slice b 1 (1 + length) in
      utf8_decode data
  end.

(** ** IEEE-754 single precision

    A Python float is a [spec_float]: a sign, a mantissa and a binary
    exponent, or a zero, an infinity or NaN. [struct.pack(">f", x)] rounds
    to single precision (to nearest, ties to even) and raises
    OverflowError when a finite value rounds to an infinity;
    [struct.unpack(">f", b)] yields the value the 32 bits denote. NaN
    payloads are not modelled. *)

Definition round_to_single (f : spec_float) : spec_float :=
  match f with
  | S754_finite s m e => binary_normalize 24 128 (cond_Zopp s (Zpos m)) e s
  | _ => f
  end.

Definition sign_bit (s : bool) : Z := if s then 2147483648 else 0.

(** The bit pattern of a value that is canonical in single precision. *)
Definition bits_of_single (f : spec_float) : Z :=
  match f with
  | S754_zero s => sign_bit s
  | S754_infinity s => sign_bit s + 2139095040
  | S754_nan => 2143289344
  | S754_finite s m e =>
      if Zpos m <? 8388608 then sign_bit s + Zpos m
      else sign_bit s + (e + 150) * 8388608 + (Zpos m - 8388608)
  end.

Definition single_of_bits (x : Z) : spec_float :=
  let s := 2147483648 <=? x in
  let ex := (x / 8388608) mod 256 in
  let mant := x mod 8388608 in
  if ex =? 0 then
    match mant with
    | Zpos m => S754_finite s m (-149)
    | _ => S754_zero s
    end
  else if ex =? 255 then
    if mant =? 0 then S754_infinity s else S754_nan
  else
    match mant + 8388608 with
    | Zpos m => S754_finite s m (ex - 150)
    | _ => S754_nan
    end.

(** Four big-endian bytes of an unsigned 32-bit value. *)
Definition bytes_of_be32 (u : Z) : bytes :=
  [byte_of_Z (u / 16777216); byte_of_Z (u / 65536); byte_of_Z (u / 256); byte_of_Z u].

(** [struct.pack(">f", x)] *)
Definition pack_f32 (f : spec_float) : result bytes :=
  let r := round_to_single f in
  match f, r with
  | S754_finite _ _ _, S754_infinity _ => Err OverflowError
  | _, _ => Ok (bytes_of_be32 (bits_of_single r))
  end.

(** [struct.unpack(">f", b)[0]] *)
Definition unpack_f32 (b : bytes) : result spec_float :=
  match b with
  | [b0; b1; b2; b3] => Ok (single_of_bits (be32 b0 b1 b2 b3))
  | _ => Err StructError
  end.

Definition _pack_float (v : spec_float) : result bytes := pack_f32 v.

Definition _unpack_float (b : bytes) : result spec_float :=
  if negb (len b =? 4) then Err ValueError else unpack_f32 b.

(** A float that single precision represents exactly (NaN, which is not
    equal to itself, left out). *)
Definition single_representable (f : spec_float) : Prop :=
  valid_binary 24 128 f = true /\ f <> S754_nan.

(** ** Values and the built-in conversions *)

Inductive value : Type :=
| VInt (z : Z)
| VFloat (f : spec_float)
| VStr (s : pystr).

(** The text side of [int()], [float()] and [str()]: parsing and printing
    numbers. The development holds for every behaviour of these. *)
Class PyText : Type := {
  int_of_str : pystr -> result Z;
  float_of_str : pystr -> result spec_float;
  str_of_int : Z -> pystr;
  str_of_float : spec_float -> pystr;
}.

(** [float(z)] for an int: the nearest double. *)
Definition float_of_int (z : Z) : result spec_float :=
  match binary_normalize 53 1024 z 0 false with
  | S754_infinity _ => Err OverflowError
  | f => Ok f
  end.

(** [int(x)] for a float: truncation towards zero. *)
Definition int_of_float (f : spec_float) : result Z :=
  match f with
  | S754_zero _ => Ok 0
  | S754_infinity _ => Err OverflowError
  | S754_nan => Err ValueError
  | S754_finite s m e =>
      Ok (cond_Zopp s (if 0 <=? e then Zpos m * 2 ^ e else Zpos m / 2 ^ (- e)))
  end.

Section Codec.
Context `{PyText}.

Definition py_int (v : value) : result Z :=
  match v with
  | VInt z => Ok z
  | VFloat f => int_of_float f
  | VStr s => int_of_str s
  end.

Definition py_float (v : value) : result spec_float :=
  match v with
  | VInt z => float_of_int z
  | VFloat f => Ok f
  | VStr s => float_of_str s
  end.

Definition py_str (v : value) : pystr :=
  match v with
  | VInt z => str_of_int z
  | VFloat f => str_of_float f
  | VStr s => s
  end.

(** ** Schema & structured records *)

(** What [str.isspace] holds for. *)
Definition is_space (c : Z) : bool :=
  ((9 <=? c) && (c <=? 13)) || ((28 <=? c) && (c <=? 32))
  || (c =? 133) || (c =? 160) || (c =? 5760)
  || ((8192 <=? c) && (c <=? 8202)) || (c =? 8232) || (c =? 8233)
  || (c =? 8239) || (c =? 8287) || (c =? 12288).

Fixpoint lstrip (s : pystr) : pystr :=
  match s with
  | c :: s' => if is_space c then lstrip s' else s
  | [] => []
  end.

(** [s.strip()] *)
Definition strip (s : pystr) : pystr := rev (lstrip (rev (lstrip s))).

Definition startswith (s p : pystr) : bool := bool_decide (take (length p) s = p).

Definition endswith (s p : pystr) : bool :=
  bool_decide (drop (length s - length p) s = p).

Inductive base_type : Type := TChar | TVarchar | TInt | TFloat.

Definition _parse_type (ft : pystr) : result (base_type * option Z) :=
  let ft := strip ft in
  if startswith ft (str "char(") && endswith ft (str ")") then
    let! n := int_of_str (py_slice ft (len (str "char(")) (-1)) in
    Ok (TChar, Some n)
  else if startswith ft (str "varchar(") && endswith ft (str ")") then
    let! n := int_of_str (py_slice ft (len (str "varchar(")) (-1)) in
    Ok (TVarchar, Some n)
  else if bool_decide (ft = str "int") then Ok (TInt, None)
  else if bool_decide (ft = str "float") then Ok (TFloat, None)
  else Err ValueError.

(** A field descriptor [{"name": ..., "type": ...}] and a table descriptor
    [{"table_name": ..., "file_name": ..., "fields": [...]}] as read from
    JSON; a key of the table descriptor may be missing. *)
Record field_desc : Type := { f_name : pystr; f_type : pystr }.

Record table_desc : Type := {
  t_table_name : option pystr;
  t_file_name : option pystr;
  t_fields : option (list field_desc);
}.

(** The value [record_dict.get(name, ...)] falls back on. *)
Definition default_value (base : base_type) : value :=
  match base with
  | TChar | TVarchar => VStr []
  | TInt | TFloat => VInt 0
  end.

(** The loop [for f in fields] of [encode_record]. *)
Fixpoint encode_record_loop (record_dict : gmap pystr value)
    (fields : list field_desc) (out_parts : list bytes) : result (list bytes) :=
  match fields with
  | [] => Ok out_parts
  | f :: fields' =>
      let name := f_name f in
      let ftype := f_type f in
      let! '(base, param) := _parse_type ftype in
      let val := default (default_value base) (record_dict !! name) in
      let! part :=
        match base with
        | TInt => let! v := py_int val in _pack_int v
        | TFloat => let! v := py_float val in _pack_float v
        | TChar =>
            match param with
            | Some n => _pack_char (py_str val) n
            | None => Err TypeError
            end
        | TVarchar =>
            match param with
            | Some n => _pack_varchar (py_str val) n
            | None => Err TypeError
            end
        end in
      encode_record_loop record_dict fields' (out_parts ++ [part])
  end.

Definition encode_record (record_dict : gmap pystr value) (table_name : pystr)
    (schema : gmap pystr table_desc) : result bytes :=
  match schema !! table_name with
  | None => Err ValueError
  | Some table =>
      match t_fields table with
      | None => Err KeyError
      | Some fields =>
          let! out_parts := encode_record_loop record_dict fields [] in
          Ok (concat out_parts)
      end
  end.

(** The loop [for f in fields] of [decode_record], on [idx] and [res]. *)
Fixpoint decode_record_loop (record_bytes : bytes) (fields : list field_desc)
    (idx : Z) (res : gmap pystr value) : result (gmap pystr value) :=
  match fields with
  | [] => Ok res
  | f :: fields' =>
      let name := f_name f in
      let ftype := f_type f in
      let! '(base, param) := _parse_type ftype in
      match base with
      | TInt =>
          let chunk := py_slice record_bytes idx (idx + 4) in
          let! v := _unpack_int chunk in
          decode_record_loop record_bytes fields' (idx + 4) (<[name := VInt v]> res)
      | TFloat =>
          let chunk := py_slice record_bytes idx (idx + 4) in
          let! v := _unpack_float chunk in
          decode_record_loop record_bytes fields' (idx + 4) (<[name := VFloat v]> res)
      | TChar =>
          match param with
          | None => Err TypeError
          | Some n =>
              let chunk := py_slice record_bytes idx (idx + n) in
              let! v := _unpack_char chunk in
              decode_record_loop record_bytes fields' (idx + n) (<[name := VStr v]> res)
          end
      | TVarchar =>
          match param with
          | None => Err TypeError
          | Some n =>
              let chunk := py_slice record_bytes idx (idx + 1 + n) in
              let! v := _unpack_varchar chunk n in
              decode_record_loop record_bytes fields' (idx + (1 + n))
                                 (<[name := VStr v]> res)
          end
      end
  end.

Definition decode_record (record_bytes : bytes) (table_name : pystr)
    (schema : gmap pystr table_desc) : result (gmap pystr value) :=
  match schema !! table_name with
  | None => Err ValueError
  | Some table =>
      match t_fields table with
      | None => Err KeyError
      | Some fields => decode_record_loop record_bytes fields 0 ∅
      end
  end.

(** [table_desc.get("file_name") or (table_desc["table_name"] + ".heap")]:
    a missing or empty file name falls back on the table name. *)
Definition table_file_name (table_desc : table_desc) : result pystr :=
  match t_file_name table_desc with
  | Some (c :: s) => Ok (c :: s)
  | _ =>
      match t_table_name table_desc with
      | Some n => Ok (n ++ str ".heap")
      | None => Err KeyError
      end
  end.

Definition insert_structured_record (fs : filesystem) (table_name : pystr)
    (schema : gmap pystr table_desc) (record_dict : gmap pystr value)
    : filesystem * result (Z * Z) :=
  match schema !! table_name with
  | None => (fs, Err KeyError)
  | Some table =>
      match table_file_name table with
      | Err e => (fs, Err e)
      | Ok fname =>
          match encode_record record_dict table_name schema with
          | Err e => (fs, Err e)
          | Ok rec => insert_record fs fname rec
          end
      end
  end.

(** The loop [for (_, _, rec_bytes) in raws] of
    [read_all_structured_records]. *)
Fixpoint decode_all (raws : list (Z * Z * bytes)) (table_name : pystr)
    (schema : gmap pystr table_desc) (out : list (gmap pystr value))
    : result (list (gmap pystr value)) :=
  match raws with
  | [] => Ok out
  | (_, _, rec_bytes) :: raws' =>
      let! d := decode_record rec_bytes table_name schema in
      decode_all raws' table_name schema (out ++ [d])
  end.

Definition read_all_structured_records (fs : filesystem) (table_name : pystr)
    (schema : gmap pystr table_desc) : result (list (gmap pystr value)) :=
  match schema !! table_name with
  | None => Err KeyError
  | Some table =>
      let! fname := table_file_name table in
      let! raws := get_all_raw_records fs fname in
      decode_all raws table_name schema []
  end.

(** ** Records that fit their schema *)

(** What a missing field reads back as: the default [0] of a float field
    is stored as [0.0]. *)
Definition decoded_default (base : base_type) : value :=
  match base with
  | TChar | TVarchar => VStr []
  | TInt => VInt 0
  | TFloat => VFloat (S754_zero false)
  end.

(** The value [v] is within the width and range of a field: an int in the
    signed 32-bit range, a float that single precision represents, a
    string whose UTF-8 encoding is at most the declared width, does not
    end in a zero byte (char) and is at most 255 bytes long (varchar). *)
Definition value_fits (base : base_type) (param : option Z) (v : value) : Prop :=
  match base, v with
  | TInt, VInt z => - 2147483648 <= z <= 2147483647
  | TFloat, VFloat f => single_representable f
  | TChar, VStr s =>
      exists b n, param = Some n /\ utf8_encode s = Ok b /\ len b <= n /\
                  last b <> Some x00
  | TVarchar, VStr s =>
      exists b n, param = Some n /\ utf8_encode s = Ok b /\ len b <= n /\
                  len b <= 255
  | _, _ => False
  end.

(** The field's type parses, a string field has a width [n >= 0], and the
    value the record has for the field, if any, fits. *)
Definition field_ok (record_dict : gmap pystr value) (f : field_desc) : Prop :=
  exists base param,
    _parse_type (f_type f) = Ok (base, param) /\
    match base with
    | TChar | TVarchar => exists n, param = Some n /\ 0 <= n
    | TInt | TFloat => True
    end /\
    forall v, record_dict !! f_name f = Some v -> value_fits base param v.

(** What [decode_record] returns for a field of a record that was encoded:
    the record's value, or the default read back. *)
Definition field_value (record_dict : gmap pystr value) (f : field_desc) : value :=
  match _parse_type (f_type f) with
  | Ok (base, _) => default (decoded_default base) (record_dict !! f_name f)
  | Err _ => VInt 0
  end.

Definition decoded_fields (record_dict : gmap pystr value)
    (fields : list field_desc) (res : gmap pystr value) : gmap pystr value :=
  foldl (fun m f => <[f_name f := field_value record_dict f]> m) res fields.

(** The defaults of the fields of a table, by field name. *)
Definition defaults_of (fields : list field_desc) : gmap pystr value :=
  foldl (fun m f =>
           match _parse_type (f_type f) with
           | Ok (base, _) => <[f_name f := decoded_default base]> m
           | Err _ => m
           end) ∅ fields.

End Codec.

(** ** An instance of the text conversions

    Decimal integers in ASCII, as [int()] reads and [str()] prints them.
    The text of floats is left out of this instance: [float_of_str] raises
    and [str_of_float] gives the empty string. It serves to evaluate
    examples whose schema and values use no float text. *)

Definition digit_of (c : Z) : option Z :=
  if (48 <=? c) && (c <=? 57) then Some (c - 48) else None.

(** Digits with single underscores between them. *)
Fixpoint parse_digits (s : pystr) (acc : Z) (after_digit : bool) : option Z :=
  match s with
  | [] => if after_digit then Some acc else None
  | c :: s' =>
      if c =? 95 then
        if after_digit then parse_digits s' acc false else None
      else
        match digit_of c with
        | Some d => parse_digits s' (10 * acc + d) true
        | None => None
        end
  end.

Definition parse_unsigned (s : pystr) : option Z :=
  match s with
  | c :: _ => if c =? 95 then None else parse_digits s 0 false
  | [] => None
  end.

Definition ascii_int_of_str (s : pystr) : result Z :=
  let r :=
    match strip s with
    | 43 :: t => parse_unsigned t
    | 45 :: t => Z.opp <$> parse_unsigned t
    | t => parse_unsigned t
    end in
  match r with Some z => Ok z | None => Err ValueError end.

Fixpoint uint_to_str (d : Decimal.uint) : pystr :=
  match d with
  | Decimal.Nil => []
  | Decimal.D0 d => 48 :: uint_to_str d
  | Decimal.D1 d => 49 :: uint_to_str d
  | Decimal.D2 d => 50 :: uint_to_str d
  | Decimal.D3 d => 51 :: uint_to_str d
  | Decimal.D4 d => 52 :: uint_to_str d
  | Decimal.D5 d => 53 :: uint_to_str d
  | Decimal.D6 d => 54 :: uint_to_str d
  | Decimal.D7 d => 55 :: uint_to_str d
  | Decimal.D8 d => 56 :: uint_to_str d
  | Decimal.D9 d => 57 :: uint_to_str d
  end.

Definition ascii_str_of_int (z : Z) : pystr :=
  match Z.to_int z with
  | Decimal.Pos d => uint_to_str d
  | Decimal.Neg d => 45 :: uint_to_str d
  end.

#[global] Instance ascii_text : PyText := {|
  int_of_str := ascii_int_of_str;
  float_of_str := fun _ => Err ValueError;
  str_of_int := ascii_str_of_int;
  str_of_float := fun _ => [];
|}.

(** A table with one [varchar(300)] field, and a record whose value for it
    is 256 bytes long. *)
Definition wide_schema : gmap pystr table_desc :=
  {[ str "T" := {| t_table_name := Some (str "T"); t_file_name := None;
                   t_fields := Some [ {| f_name := str "v";
                                         f_type := str "varchar(300)" |} ] |} ]}.

Definition wide_record : gmap pystr value := {[ str "v" := VStr (repeat 97 256) ]}.

(** The demo schema of the program: [Employee] and [Dept]. *)
Definition demo_schema : gmap pystr table_desc :=
  <[ str "Employee" :=
       {| t_table_name := Some (str "Employee");
          t_file_name := Some (str "employee.heap");
          t_fields := Some [ {| f_name := str "id"; f_type := str "int" |};
                             {| f_name := str "name"; f_type := str "char(20)" |};
                             {| f_name := str "salary"; f_type := str "float" |} ] |} ]>
  (<[ str "Dept" :=
       {| t_table_name := Some (str "Dept");
          t_file_name := Some (str "dept.heap");
          t_fields := Some [ {| f_name := str "id"; f_type := str "int" |};
                             {| f_name := str "name"; f_type := str "char(20)" |};
                             {| f_name := str "Location"; f_type := str "varchar(40)" |} ] |} ]> ∅).

(** * Record layout, repeated structured inserts, and tp2.py's decoder *)

(** ** Several inserts into one page

    [insert_record_into_page] called on each record of [records] in turn,
    each call on the image the call before it returned, stopping at the
    first exception; the result is the last image and the slot indices
    returned. *)
Fixpoint insert_records_into_page (page : bytes) (records : list bytes)
    : result (bytes * list Z) :=
  match records with
  | [] => Ok (page, [])
  | record :: rest =>
      let! '(page', slot) := insert_record_into_page page record in
      let! '(page'', slots) := insert_records_into_page page' rest in
      Ok (page'', slot :: slots)
  end.

(** ** Records of one size

    With records of [w] bytes each, a page takes [records_per_page w]
    of them: each record costs its bytes and a slot entry. *)
Definition records_per_page (w : Z) : Z :=
  (PAGE_SIZE - FOOTER_SIZE) / (w + SLOT_ENTRY_SIZE).

(** The address of the [k]-th record (from 0) when the pages fill up in
    order. *)
Definition nth_address (w : Z) (k : nat) : Z * Z :=
  (Z.of_nat k / records_per_page w, Z.of_nat k mod records_per_page w).

(** The pages of a heap that holds [n] records of [w] bytes each,
    inserted one after the other: all pages but the last are full. *)
Definition uniform_heap (w : Z) (pages : list (list bytes)) (n : nat) : Prop :=
  exists (full : list (list bytes)) (last : list bytes),
    pages = full ++ [last] /\
    Forall (fun pg => len pg = records_per_page w) full /\
    len last <= records_per_page w /\
    Forall (Forall (fun r => len r = w)) pages /\
    Z.of_nat n = records_per_page w * len full + len last.

Section Layout.
Context `{PyText}.

(** The bytes a field takes in an encoded record: 4 for an int or a
    float, [n] for char(n), [1 + n] for varchar(n). *)
Definition field_width (f : field_desc) : Z :=
  match _parse_type (f_type f) with
  | Ok (TInt, _) | Ok (TFloat, _) => 4
  | Ok (TChar, Some n) => n
  | Ok (TVarchar, Some n) => 1 + n
  | _ => 0
  end.

Definition record_size (fields : list field_desc) : Z :=
  foldr (fun f acc => field_width f + acc) 0 fields.

(** The widths the schema declares for string fields are not negative. *)
Definition widths_nonneg (fields : list field_desc) : Prop :=
  Forall (fun f => forall base n,
            _parse_type (f_type f) = Ok (base, Some n) -> 0 <= n) fields.

(** The Python type of a decoded value agrees with the field's type. *)
Definition value_of_type (f : field_desc) (v : value) : Prop :=
  match _parse_type (f_type f), v with
  | Ok (TInt, _), VInt _ => True
  | Ok (TFloat, _), VFloat _ => True
  | Ok (TChar, _), VStr _ => True
  | Ok (TVarchar, _), VStr _ => True
  | _, _ => False
  end.

(** [insert_structured_record] called on each record of [records] in
    turn, stopping at the first exception; the result lists the addresses
    returned. *)
Fixpoint insert_all_structured (fs : filesystem) (table_name : pystr)
    (schema : gmap pystr table_desc) (records : list (gmap pystr value))
    : filesystem * result (list (Z * Z)) :=
  match records with
  | [] => (fs, Ok [])
  | rd :: rest =>
      match insert_structured_record fs table_name schema rd with
      | (fs', Err e) => (fs', Err e)
      | (fs', Ok a) =>
          match insert_all_structured fs' table_name schema rest with
          | (fs'', Err e) => (fs'', Err e)
          | (fs'', Ok addrs) => (fs'', Ok (a :: addrs))
          end
      end
  end.

End Layout.

(** ** [decode_record] of tp2.py

    tp2.py has the functions of alltp.py up to the structured records,
    with the same text; its [decode_record] differs in the varchar branch,
    which tests [idx >= len(record_bytes)] before it slices. *)
Module Tp2.
Section Decoder.
Context `{PyText}.

Fixpoint decode_record_loop (record_bytes : bytes) (fields : list field_desc)
    (idx : Z) (res : gmap pystr value) : result (gmap pystr value) :=
  match fields with
  | [] => Ok res
  | f :: fields' =>
      let name := f_name f in
      let ftype := f_type f in
      let! '(base, param) := _parse_type ftype in
      match base with
      | TInt =>
          let chunk := py_slice record_bytes idx (idx + 4) in
          let! v := _unpack_int chunk in
          decode_record_loop record_bytes fields' (idx + 4) (<[name := VInt v]> res)
      | TFloat =>
          let chunk := py_slice record_bytes idx (idx + 4) in
          let! v := _unpack_float chunk in
          decode_record_loop record_bytes fields' (idx + 4) (<[name := VFloat v]> res)
      | TChar =>
          match param with
          | None => Err TypeError
          | Some n =>
              let chunk := py_slice record_bytes idx (idx + n) in
              let! v := _unpack_char chunk in
              decode_record_loop record_bytes fields' (idx + n) (<[name := VStr v]> res)
          end
      | TVarchar =>
          match param with
          | None => Err TypeError
          | Some n =>
              if idx >=? len record_bytes then
                decode_record_loop record_bytes fields' (idx + (1 + n))
                                   (<[name := VStr []]> res)
              else
                let chunk := py_slice record_bytes idx (idx + 1 + n) in
                let! v := _unpack_varchar chunk n in
                decode_record_loop record_bytes fields' (idx + (1 + n))
                                   (<[name := VStr v]> res)
          end
      end
  end.

Definition decode_record (record_bytes : bytes) (table_name : pystr)
    (schema : gmap pystr table_desc) : result (gmap pystr value) :=
  match schema !! table_name with
  | None => Err ValueError
  | Some table =>
      match t_fields table with
      | None => Err KeyError
      | Some fields => decode_record_loop record_bytes fields 0 ∅
      end
  end.

End Decoder.
End Tp2.

(** ** Examples on the demo schema *)

Definition employee_table : table_desc :=
  {| t_table_name := Some (str "Employee");
     t_file_name := Some (str "employee.heap");
     t_fields := Some [ {| f_name := str "id"; f_type := str "int" |};
                        {| f_name := str "name"; f_type := str "char(20)" |};
                        {| f_name := str "salary"; f_type := str "float" |} ] |}.

Definition employee_fields : list field_desc :=
  [ {| f_name := str "id"; f_type := str "int" |};
    {| f_name := str "name"; f_type := str "char(20)" |};
    {| f_name := str "salary"; f_type := str "float" |} ].

Definition dept_table : table_desc :=
  {| t_table_name := Some (str "Dept");
     t_file_name := Some (str "dept.heap");
     t_fields := Some [ {| f_name := str "id"; f_type := str "int" |};
                        {| f_name := str "name"; f_type := str "char(20)" |};
                        {| f_name := str "Location"; f_type := str "varchar(40)" |} ] |}.

(** [{"id": 1, "name": "Alice", "salary": 4500.0}] and
    [{"id": 2, "name": "Bob", "salary": 3800.5}] *)
Definition alice : gmap pystr value :=
  <[str "id" := VInt 1]>
    (<[str "name" := VStr (str "Alice")]>
       (<[str "salary" := VFloat (S754_finite false 9216000 (-11))]> ∅)).

Definition bob : gmap pystr value :=
  <[str "id" := VInt 2]>
    (<[str "name" := VStr (str "Bob")]>
       (<[str "salary" := VFloat (S754_finite false 15566848 (-12))]> ∅)).

(** The 28 bytes of [alice] as an Employee record. *)
Definition alice_bytes : bytes :=
  [x00; x00; x00; x01] ++ [x41; x6c; x69; x63; x65] ++ zeros 15
  ++ [x45; x8c; xa0; x00].
(** * Proofs *)

(** ** Bytes and fixed-width integers *)

Lemma byte_to_Z_range (b : byte) : 0 <= byte_to_Z b < 256.
Proof.
  unfold byte_to_Z. pose proof (Byte.to_N_bounded b) as H.
  apply N2Z.inj_le in H. simpl in H. lia.
Qed.

Lemma byte_of_to_Z (b : byte) : byte_of_Z (byte_to_Z b) = b.
Proof.
  unfold byte_of_Z. pose proof (byte_to_Z_range b) as H.
  rewrite Z.mod_small by lia. unfold byte_to_Z.
  rewrite N2Z.id, Byte.of_to_N. reflexivity.
Qed.

Lemma byte_to_of_Z (z : Z) : 0 <= z < 256 -> byte_to_Z (byte_of_Z z) = z.
Proof.
  intros H. unfold byte_of_Z, byte_to_Z. rewrite Z.mod_small by lia.
  destruct (Byte.of_N (Z.to_N z)) as [b|] eqn:E.
  - apply Byte.to_of_N in E. rewrite E. lia.
  - apply Byte.of_N_None_iff in E. lia.
Qed.

Lemma byte_to_Z_inj (a b : byte) : byte_to_Z a = byte_to_Z b -> a = b.
Proof.
  intros H. rewrite <- (byte_of_to_Z a), <- (byte_of_to_Z b). congruence.
Qed.

Lemma unpack_pack_u16 (v : Z) (b : bytes) :
  pack_u16 v = Ok b -> unpack_u16 b = Ok v.
Proof.
  unfold pack_u16. destruct (_ && _) eqn:E; [|discriminate].
  intros [= <-]. apply andb_true_iff in E as [H1 H2].
  apply Z.leb_le in H1, H2. simpl.
  rewrite !byte_to_of_Z.
  - f_equal. pose proof (Z.div_mod v 256). lia.
  - apply Z.mod_pos_bound. lia.
  - split; [apply Z.div_pos; lia | apply Z.div_lt_upper_bound; lia].
Qed.


Lemma unpack_u16_range (b : bytes) (v : Z) :
  unpack_u16 b = Ok v -> 0 <= v <= 65535.
Proof.
  destruct b as [|hi [|lo [|]]]; try discriminate. intros [= <-].
  pose proof (byte_to_Z_range hi). pose proof (byte_to_Z_range lo). lia.
Qed.

Lemma unpack_u16_length2 (b : bytes) :
  length b = 2%nat -> exists v, unpack_u16 b = Ok v.
Proof.
  destruct b as [|hi [|lo [|]]]; try discriminate. intros _. eexists. reflexivity.
Qed.

Lemma unpack_pack_i32 (v : Z) (b : bytes) :
  pack_i32 v = Ok b -> unpack_i32 b = Ok v.
Proof.
  unfold pack_i32. destruct (_ && _) eqn:E; [|discriminate].
  intros [= <-]. apply andb_true_iff in E as [H1 H2].
  apply Z.leb_le in H1, H2. unfold unpack_i32, be32.
  set (u := v mod 4294967296).
  assert (Hu : 0 <= u < 4294967296) by (apply Z.mod_pos_bound; lia).
  assert (Hv : u = v \/ u = v + 4294967296).
  { unfold u. destruct (Z_lt_le_dec v 0).
    - right. symmetry. apply Z.mod_unique with (q := -1); lia.
    - left. apply Z.mod_small. lia. }
  assert (E3 : byte_to_Z (byte_of_Z u) = u mod 256).
  { unfold byte_of_Z, byte_to_Z.
    pose proof (Z.mod_pos_bound u 256 ltac:(lia)) as Hm.
    destruct (Byte.of_N (Z.to_N (u mod 256))) as [b|] eqn:E.
    - apply Byte.to_of_N in E. rewrite E. lia.
    - apply Byte.of_N_None_iff in E. lia. }
  assert (E2 : byte_to_Z (byte_of_Z (u / 256)) = (u / 256) mod 256).
  { unfold byte_of_Z, byte_to_Z.
    pose proof (Z.mod_pos_bound (u / 256) 256 ltac:(lia)) as Hm.
    destruct (Byte.of_N (Z.to_N ((u / 256) mod 256))) as [b|] eqn:E.
    - apply Byte.to_of_N in E. rewrite E. lia.
    - apply Byte.of_N_None_iff in E. lia. }
  assert (E1 : byte_to_Z (byte_of_Z (u / 65536)) = (u / 65536) mod 256).
  { unfold byte_of_Z, byte_to_Z.
    pose proof (Z.mod_pos_bound (u / 65536) 256 ltac:(lia)) as Hm.
    destruct (Byte.of_N (Z.to_N ((u / 65536) mod 256))) as [b|] eqn:E.
    - apply Byte.to_of_N in E. rewrite E. lia.
    - apply Byte.of_N_None_iff in E. lia. }
  assert (E0 : byte_to_Z (byte_of_Z (u / 16777216)) = u / 16777216).
  { apply byte_to_of_Z. split; [apply Z.div_pos; lia | apply Z.div_lt_upper_bound; lia]. }
  rewrite E0, E1, E2, E3.
  assert (Hsum : u / 16777216 * 16777216 + (u / 65536) mod 256 * 65536
                 + (u / 256) mod 256 * 256 + u mod 256 = u).
  { pose proof (Z.div_mod u 256 ltac:(lia)).
    pose proof (Z.div_mod (u / 256) 256 ltac:(lia)).
    pose proof (Z.div_mod (u / 65536) 256 ltac:(lia)).
    replace (u / 65536) with (u / 256 / 256) in * by (rewrite Z.div_div by lia; reflexivity).
    replace (u / 16777216) with (u / 256 / 256 / 256) in * by (rewrite !Z.div_div by lia; reflexivity).
    lia. }
  rewrite Hsum. f_equal.
  destruct (u <? 2147483648) eqn:Hlt;
    [apply Z.ltb_lt in Hlt | apply Z.ltb_ge in Hlt]; lia.
Qed.

(** ** Slices as segments *)

Section Segments.
Context {A : Type}.
Implicit Types (l d : list A) (a c n : Z) (i : nat).

Lemma len_nonneg l : 0 <= len l.
Proof. unfold len. lia. Qed.

Lemma len_app l1 l2 : len (l1 ++ l2) = len l1 + len l2.
Proof. unfold len. rewrite length_app. lia. Qed.

Lemma lookup_seg l a n i :
  0 <= a ->
  seg l a n !! i =
    if decide (Z.of_nat i < n) then l !! (Z.to_nat a + i)%nat else None.
Proof.
  intros Ha. unfold seg. case_decide.
  - rewrite lookup_take_lt by lia. apply lookup_drop.
  - apply lookup_take_ge. lia.
Qed.

Lemma len_seg l a n :
  0 <= a -> 0 <= n -> a + n <= len l -> len (seg l a n) = n.
Proof.
  unfold seg, len. intros Ha Hn H. rewrite length_take, length_drop. lia.
Qed.

Lemma len_upd l a d :
  0 <= a -> a + len d <= len l -> len (upd l a d) = len l.
Proof.
  unfold upd, len. intros Ha H.
  rewrite !length_app, length_take, length_drop. lia.
Qed.

Lemma lookup_upd l a d i :
  0 <= a -> a + len d <= len l ->
  upd l a d !! i =
    if decide (a <= Z.of_nat i < a + len d)
    then d !! (i - Z.to_nat a)%nat else l !! i.
Proof.
  unfold upd, len. intros Ha H.
  assert (Hta : length (take (Z.to_nat a) l) = Z.to_nat a)
    by (rewrite length_take; lia).
  destruct (decide (i < Z.to_nat a)%nat) as [Hlt|Hge].
  - rewrite lookup_app_l by lia. rewrite lookup_take_lt by lia.
    case_decide; [lia|reflexivity].
  - rewrite lookup_app_r by lia. rewrite Hta.
    destruct (decide (i - Z.to_nat a < length d)%nat) as [Hin|Hout].
    + rewrite lookup_app_l by lia. case_decide; [reflexivity|lia].
    + rewrite lookup_app_r by lia. rewrite lookup_drop.
      case_decide; [lia|]. f_equal. lia.
Qed.

Lemma seg_upd_same l a d :
  0 <= a -> a + len d <= len l -> seg (upd l a d) a (len d) = d.
Proof.
  intros Ha H. apply list_eq. intros i. rewrite lookup_seg by lia.
  case_decide as Hi.
  - rewrite lookup_upd by lia. case_decide; [|lia]. f_equal. lia.
  - symmetry. apply lookup_ge_None. unfold len in *. lia.
Qed.

Lemma seg_upd_disjoint l a d c n :
  0 <= a -> a + len d <= len l -> 0 <= c ->
  c + n <= a \/ a + len d <= c ->
  seg (upd l a d) c n = seg l c n.
Proof.
  intros Ha H Hc Hd. apply list_eq. intros i. rewrite !lookup_seg by lia.
  case_decide; [|reflexivity].
  rewrite lookup_upd by lia. case_decide; [lia|reflexivity].
Qed.



Lemma slice_index_in (n i : Z) : 0 <= i <= n -> slice_index n i = i.
Proof.
  intros H. unfold slice_index.
  destruct (i <? 0) eqn:E; [apply Z.ltb_lt in E; lia|lia].
Qed.

Lemma py_slice_seg l (i j : Z) :
  0 <= i <= j -> j <= len l -> py_slice l i j = seg l i (j - i).
Proof.
  intros H1 H2. unfold py_slice.
  rewrite !slice_index_in by lia. reflexivity.
Qed.

Lemma py_slice_assign_upd l (i j : Z) d :
  0 <= i -> j = i + len d -> j <= len l ->
  py_slice_assign l i j d = upd l i d.
Proof.
  intros H1 -> H2. unfold py_slice_assign, upd.
  pose proof (len_nonneg d).
  rewrite !slice_index_in by lia. do 3 f_equal. lia.
Qed.
End Segments.

(** ** The page footer *)

Lemma pack_u16_u16 (v : Z) : 0 <= v <= 65535 -> pack_u16 v = Ok (u16 v).
Proof.
  intros H. unfold pack_u16, u16.
  replace ((0 <=? v) && (v <=? 65535)) with true; [reflexivity|].
  symmetry. apply andb_true_iff. split; apply Z.leb_le; lia.
Qed.

Lemma unpack_u16_u16 (v : Z) : 0 <= v <= 65535 -> unpack_u16 (u16 v) = Ok v.
Proof. intros H. apply unpack_pack_u16, pack_u16_u16, H. Qed.

Lemma read_footer_seg (page : bytes) :
  len page = PAGE_SIZE ->
  _read_footer page =
    (let! sc := unpack_u16 (seg page 4092 2) in
     let! fo := unpack_u16 (seg page 4094 2) in
     Ok (sc, fo)).
Proof.
  intros H. unfold _read_footer. rewrite H, Z.eqb_refl. simpl negb. cbv iota.
  unfold PAGE_SIZE, FOOTER_SIZE in *.
  rewrite !py_slice_seg by lia. reflexivity.
Qed.

Lemma read_footer_inv (page : bytes) (sc fo : Z) :
  _read_footer page = Ok (sc, fo) ->
  len page = PAGE_SIZE /\
  unpack_u16 (seg page 4092 2) = Ok sc /\
  unpack_u16 (seg page 4094 2) = Ok fo /\
  0 <= sc <= 65535 /\ 0 <= fo <= 65535.
Proof.
  intros H.
  assert (Hl : len page = PAGE_SIZE).
  { unfold _read_footer in H. destruct (len page =? PAGE_SIZE) eqn:E.
    - apply Z.eqb_eq in E. exact E.
    - discriminate. }
  rewrite read_footer_seg in H by exact Hl.
  destruct (unpack_u16 (seg page 4092 2)) as [sc'|] eqn:E1; [|discriminate].
  destruct (unpack_u16 (seg page 4094 2)) as [fo'|] eqn:E2; [|discriminate].
  simpl in H. injection H as -> ->.
  split; [exact Hl|]. split; [reflexivity|]. split; [reflexivity|].
  split; eapply unpack_u16_range; eassumption.
Qed.

Lemma read_footer_total (page : bytes) :
  len page = PAGE_SIZE -> exists sc fo, _read_footer page = Ok (sc, fo).
Proof.
  intros H. rewrite read_footer_seg by exact H.
  unfold PAGE_SIZE in H.
  destruct (unpack_u16_length2 (seg page 4092 2)) as [sc ->].
  { apply Nat2Z.inj. apply (len_seg page 4092 2); lia. }
  destruct (unpack_u16_length2 (seg page 4094 2)) as [fo ->].
  { apply Nat2Z.inj. apply (len_seg page 4094 2); lia. }
  eauto.
Qed.

Lemma read_footer_badlen (page : bytes) :
  len page <> PAGE_SIZE -> _read_footer page = Err ValueError.
Proof.
  intros H. unfold _read_footer.
  destruct (len page =? PAGE_SIZE) eqn:E; [apply Z.eqb_eq in E; contradiction|].
  reflexivity.
Qed.

Lemma free_space_footer (page : bytes) (sc fo : Z) :
  _read_footer page = Ok (sc, fo) ->
  free_space_in_page page = Ok (4092 - 4 * sc - fo).
Proof.
  intros H. unfold free_space_in_page. rewrite H. simpl.
  unfold PAGE_SIZE, FOOTER_SIZE, SLOT_ENTRY_SIZE. f_equal. lia.
Qed.

(** ** Inserting into one page *)

Lemma len_u16 (v : Z) : len (u16 v) = 2.
Proof. reflexivity. Qed.

Lemma insert_record_into_page_full (page record : bytes) (sc fo : Z) :
  _read_footer page = Ok (sc, fo) ->
  4092 - 4 * sc - fo < len record + 4 ->
  insert_record_into_page page record = Err ValueError.
Proof.
  intros Hf Hlt. unfold insert_record_into_page.
  rewrite Hf. simpl. rewrite (free_space_footer _ _ _ Hf). simpl.
  unfold SLOT_ENTRY_SIZE.
  destruct (4092 - 4 * sc - fo <? len record + 4) eqn:E; [reflexivity|].
  apply Z.ltb_ge in E. lia.
Qed.

Lemma write_slot_upd (pg : bytes) (i off l : Z) :
  0 <= i -> _slot_pos i + 4 <= len pg -> 0 <= _slot_pos i ->
  0 <= off <= 65535 -> 0 <= l <= 65535 ->
  _write_slot pg i off l =
    Ok (upd (upd pg (_slot_pos i) (u16 off)) (_slot_pos i + 2) (u16 l)).
Proof.
  intros Hi Hp Hp0 Ho Hl. unfold _write_slot.
  rewrite (pack_u16_u16 off) by lia. cbn [bind].
  rewrite py_slice_assign_upd by (rewrite ?len_u16; lia).
  rewrite (pack_u16_u16 l) by lia. cbn [bind].
  rewrite py_slice_assign_upd; [reflexivity|lia|rewrite len_u16; lia|].
  rewrite len_upd; rewrite ?len_u16; lia.
Qed.

Lemma write_footer_upd (pg : bytes) (sc fo : Z) :
  len pg = PAGE_SIZE -> 0 <= sc <= 65535 -> 0 <= fo <= 65535 ->
  _write_footer pg sc fo = Ok (upd (upd pg 4092 (u16 sc)) 4094 (u16 fo)).
Proof.
  intros Hp Hs Hf. unfold _write_footer, PAGE_SIZE, FOOTER_SIZE in *.
  rewrite (pack_u16_u16 sc) by lia. cbn [bind].
  rewrite py_slice_assign_upd by (rewrite ?len_u16; lia).
  rewrite (pack_u16_u16 fo) by lia. cbn [bind].
  rewrite py_slice_assign_upd; [reflexivity|lia|rewrite len_u16; lia|].
  rewrite len_upd; rewrite ?len_u16; lia.
Qed.

Lemma insert_record_into_page_fits (page record : bytes) (sc fo : Z) :
  _read_footer page = Ok (sc, fo) ->
  len record + 4 <= 4092 - 4 * sc - fo ->
  insert_record_into_page page record = Ok (insert_image page record sc fo, sc).
Proof.
  intros Hf Hfit. unfold insert_record_into_page.
  rewrite Hf. cbn [bind]. rewrite (free_space_footer _ _ _ Hf). cbn [bind].
  destruct (read_footer_inv _ _ _ Hf) as (Hl & _ & _ & Hsc & Hfo).
  unfold SLOT_ENTRY_SIZE.
  destruct (4092 - 4 * sc - fo <? len record + 4) eqn:E;
    [apply Z.ltb_lt in E; lia|clear E].
  pose proof (len_nonneg record) as Hr.
  unfold PAGE_SIZE in Hl.
  rewrite py_slice_assign_upd by lia.
  assert (L1 : len (upd page fo record) = 4096) by (rewrite len_upd; lia).
  assert (Hpos : _slot_pos sc = 4088 - 4 * sc)
    by (unfold _slot_pos, PAGE_SIZE, FOOTER_SIZE, SLOT_ENTRY_SIZE; lia).
  rewrite write_slot_upd by lia. cbn [bind].
  assert (L2 : len (upd (upd page fo record) (_slot_pos sc) (u16 fo)) = 4096)
    by (rewrite len_upd; rewrite ?len_u16; lia).
  rewrite write_footer_upd; [reflexivity| |lia|lia].
  unfold PAGE_SIZE. rewrite len_upd; rewrite ?len_u16; lia.
Qed.

Lemma insert_record_into_page_badlen (page record : bytes) :
  len page <> PAGE_SIZE -> insert_record_into_page page record = Err ValueError.
Proof.
  intros H. unfold insert_record_into_page.
  rewrite read_footer_badlen by exact H. reflexivity.
Qed.

(** ** The image built by a successful insert *)

Section InsertImage.
Variables (page record : bytes) (sc fo : Z).
Hypothesis Hlen : len page = 4096.
Hypothesis Hsc : 0 <= sc.
Hypothesis Hfo : 0 <= fo.
Hypothesis Hfit : len record + 4 <= 4092 - 4 * sc - fo.

Local Abbreviation pos := (_slot_pos sc).
Local Abbreviation pg1 := (upd page fo record).
Local Abbreviation pg2 := (upd pg1 pos (u16 fo)).
Local Abbreviation pg3 := (upd pg2 (pos + 2) (u16 (len record))).
Local Abbreviation pg4 := (upd pg3 4092 (u16 (sc + 1))).

Local Lemma pos_eq : pos = 4088 - 4 * sc.
Proof. unfold _slot_pos, PAGE_SIZE, FOOTER_SIZE, SLOT_ENTRY_SIZE. lia. Qed.

Local Lemma rec_nonneg : 0 <= len record.
Proof. apply len_nonneg. Qed.

Local Lemma len_pg1 : len pg1 = 4096.
Proof. pose proof rec_nonneg. rewrite len_upd; lia. Qed.

Local Lemma len_pg2 : len pg2 = 4096.
Proof.
  pose proof rec_nonneg. pose proof pos_eq. pose proof len_pg1.
  rewrite len_upd; rewrite ?len_u16; lia.
Qed.

Local Lemma len_pg3 : len pg3 = 4096.
Proof.
  pose proof rec_nonneg. pose proof pos_eq. pose proof len_pg2.
  rewrite len_upd; rewrite ?len_u16; lia.
Qed.

Local Lemma len_pg4 : len pg4 = 4096.
Proof.
  pose proof len_pg3. rewrite len_upd; rewrite ?len_u16; lia.
Qed.

Lemma insert_image_unfold :
  insert_image page record sc fo = upd pg4 4094 (u16 (fo + len record)).
Proof. reflexivity. Qed.

Lemma len_insert_image : len (insert_image page record sc fo) = 4096.
Proof.
  rewrite insert_image_unfold. pose proof len_pg4.
  rewrite len_upd; rewrite ?len_u16; lia.
Qed.

(** A segment that avoids the five regions the insert writes is unchanged. *)
Lemma insert_image_seg_frame (c n : Z) :
  0 <= c ->
  c + n <= fo \/ fo + len record <= c ->
  c + n <= pos \/ pos + 4 <= c ->
  c + n <= 4092 ->
  seg (insert_image page record sc fo) c n = seg page c n.
Proof.
  intros Hc H1 H2 H3. rewrite insert_image_unfold.
  pose proof rec_nonneg. pose proof pos_eq.
  pose proof len_pg1. pose proof len_pg2. pose proof len_pg3. pose proof len_pg4.
  rewrite seg_upd_disjoint by (rewrite ?len_u16; lia).
  rewrite seg_upd_disjoint by (rewrite ?len_u16; lia).
  rewrite seg_upd_disjoint by (rewrite ?len_u16; lia).
  rewrite seg_upd_disjoint by (rewrite ?len_u16; lia).
  rewrite seg_upd_disjoint by (rewrite ?len_u16; lia).
  reflexivity.
Qed.

Lemma insert_image_seg_record :
  seg (insert_image page record sc fo) fo (len record) = record.
Proof.
  rewrite insert_image_unfold.
  pose proof rec_nonneg. pose proof pos_eq.
  pose proof len_pg1. pose proof len_pg2. pose proof len_pg3. pose proof len_pg4.
  rewrite seg_upd_disjoint by (rewrite ?len_u16; lia).
  rewrite seg_upd_disjoint by (rewrite ?len_u16; lia).
  rewrite seg_upd_disjoint by (rewrite ?len_u16; lia).
  rewrite seg_upd_disjoint by (rewrite ?len_u16; lia).
  apply seg_upd_same; lia.
Qed.

Lemma insert_image_seg_slot_offset :
  seg (insert_image page record sc fo) pos 2 = u16 fo.
Proof.
  rewrite insert_image_unfold.
  pose proof rec_nonneg. pose proof pos_eq.
  pose proof len_pg1. pose proof len_pg2. pose proof len_pg3. pose proof len_pg4.
  rewrite seg_upd_disjoint by (rewrite ?len_u16; lia).
  rewrite seg_upd_disjoint by (rewrite ?len_u16; lia).
  rewrite seg_upd_disjoint by (rewrite ?len_u16; lia).
  apply (seg_upd_same pg1 pos (u16 fo)); rewrite ?len_u16; lia.
Qed.

Lemma insert_image_seg_slot_length :
  seg (insert_image page record sc fo) (pos + 2) 2 = u16 (len record).
Proof.
  rewrite insert_image_unfold.
  pose proof rec_nonneg. pose proof pos_eq.
  pose proof len_pg1. pose proof len_pg2. pose proof len_pg3. pose proof len_pg4.
  rewrite seg_upd_disjoint by (rewrite ?len_u16; lia).
  rewrite seg_upd_disjoint by (rewrite ?len_u16; lia).
  apply (seg_upd_same pg2 (pos + 2) (u16 (len record))); rewrite ?len_u16; lia.
Qed.

Lemma insert_image_seg_slot_count :
  seg (insert_image page record sc fo) 4092 2 = u16 (sc + 1).
Proof.
  rewrite insert_image_unfold.
  pose proof len_pg3. pose proof len_pg4.
  rewrite seg_upd_disjoint by (rewrite ?len_u16; lia).
  apply (seg_upd_same pg3 4092 (u16 (sc + 1))); rewrite ?len_u16; lia.
Qed.

Lemma insert_image_seg_free_offset :
  seg (insert_image page record sc fo) 4094 2 = u16 (fo + len record).
Proof.
  rewrite insert_image_unfold. pose proof len_pg4.
  apply (seg_upd_same pg4 4094 (u16 (fo + len record))); rewrite ?len_u16; lia.
Qed.

Lemma read_footer_insert_image :
  _read_footer (insert_image page record sc fo) = Ok (sc + 1, fo + len record).
Proof.
  rewrite read_footer_seg by (apply len_insert_image).
  rewrite insert_image_seg_slot_count, insert_image_seg_free_offset.
  pose proof rec_nonneg.
  rewrite !unpack_u16_u16 by lia. reflexivity.
Qed.
End InsertImage.

(** ** Reading slots and records *)

Lemma slot_pos_eq (i : Z) : _slot_pos i = 4088 - 4 * i.
Proof. unfold _slot_pos, PAGE_SIZE, FOOTER_SIZE, SLOT_ENTRY_SIZE. lia. Qed.

Lemma read_slot_seg (page : bytes) (i sc : Z) :
  len page = 4096 -> 0 <= i < sc -> i <= 1022 ->
  _read_slot page i sc =
    (let! offset := unpack_u16 (seg page (_slot_pos i) 2) in
     let! length := unpack_u16 (seg page (_slot_pos i + 2) 2) in
     Ok (offset, length)).
Proof.
  intros Hl Hi Hm. unfold _read_slot.
  replace ((i <? 0) || (i >=? sc)) with false.
  - pose proof (slot_pos_eq i). rewrite !py_slice_seg by lia.
    replace (_slot_pos i + 2 - _slot_pos i) with 2 by lia.
    replace (_slot_pos i + 4 - (_slot_pos i + 2)) with 2 by lia.
    reflexivity.
  - symmetry. apply orb_false_iff.
    split; [apply Z.ltb_ge|rewrite Z.geb_leb; apply Z.leb_gt]; lia.
Qed.

Lemma read_slot_out_of_range (page : bytes) (i sc : Z) :
  i < 0 \/ sc <= i -> _read_slot page i sc = Err IndexError.
Proof.
  intros H. unfold _read_slot.
  replace ((i <? 0) || (i >=? sc)) with true; [reflexivity|].
  symmetry. apply orb_true_iff.
  destruct H; [left; apply Z.ltb_lt|right; rewrite Z.geb_leb; apply Z.leb_le]; lia.
Qed.

Lemma read_slot_range (page : bytes) (i sc off l : Z) :
  _read_slot page i sc = Ok (off, l) ->
  0 <= i < sc /\ 0 <= off <= 65535 /\ 0 <= l <= 65535.
Proof.
  unfold _read_slot. intros H.
  destruct ((i <? 0) || (i >=? sc)) eqn:E; [discriminate|].
  apply orb_false_iff in E as [E1 E2].
  apply Z.ltb_ge in E1. rewrite Z.geb_leb in E2. apply Z.leb_gt in E2.
  destruct (unpack_u16 _) as [o|] eqn:Eo in H; [|discriminate].
  destruct (unpack_u16 _) as [n|] eqn:En in H; [|discriminate].
  simpl in H. injection H as -> ->.
  apply unpack_u16_range in Eo, En. lia.
Qed.

Section InsertFrame.
Variables (page record : bytes) (sc fo : Z).
Hypothesis Hfooter : _read_footer page = Ok (sc, fo).
Hypothesis Hfit : len record + 4 <= 4092 - 4 * sc - fo.

Local Lemma frame_len : len page = 4096.
Proof. apply (read_footer_inv _ _ _ Hfooter). Qed.

Local Lemma frame_sc : 0 <= sc <= 1022.
Proof.
  pose proof (read_footer_inv _ _ _ Hfooter) as (_ & _ & _ & H1 & H2).
  pose proof (len_nonneg record). lia.
Qed.

Local Lemma frame_fo : 0 <= fo.
Proof. pose proof (read_footer_inv _ _ _ Hfooter) as (_ & _ & _ & H1 & H2). lia. Qed.

(** Old slot entries are byte-identical in the new image. *)
Lemma insert_image_slot_entry (i n d : Z) :
  0 <= i < sc -> 0 <= d -> d + n <= 4 ->
  seg (insert_image page record sc fo) (_slot_pos i + d) n
  = seg page (_slot_pos i + d) n.
Proof.
  intros Hi Hd Hn. pose proof frame_len. pose proof frame_sc. pose proof frame_fo.
  pose proof (slot_pos_eq i). pose proof (slot_pos_eq sc).
  pose proof (len_nonneg record).
  apply insert_image_seg_frame; lia.
Qed.

Lemma read_slot_insert_image_old (i : Z) :
  0 <= i < sc ->
  _read_slot (insert_image page record sc fo) i (sc + 1) = _read_slot page i sc.
Proof.
  intros Hi. pose proof frame_len. pose proof frame_sc. pose proof frame_fo.
  rewrite !read_slot_seg by (rewrite ?len_insert_image; lia).
  pose proof (insert_image_slot_entry i 2 0) as Hz.
  rewrite Z.add_0_r in Hz. rewrite Hz by lia.
  rewrite (insert_image_slot_entry i 2 2) by lia. reflexivity.
Qed.

Lemma read_slot_insert_image_new :
  _read_slot (insert_image page record sc fo) sc (sc + 1) = Ok (fo, len record).
Proof.
  pose proof frame_len. pose proof frame_sc. pose proof frame_fo.
  pose proof (len_nonneg record).
  rewrite read_slot_seg by (rewrite ?len_insert_image; lia).
  rewrite insert_image_seg_slot_offset, insert_image_seg_slot_length by lia.
  rewrite !unpack_u16_u16 by lia. reflexivity.
Qed.

(** The record region below the old free offset is unchanged. *)
Lemma insert_image_record_region (c n : Z) :
  0 <= c -> c + n <= fo ->
  seg (insert_image page record sc fo) c n = seg page c n.
Proof.
  intros Hc Hn. pose proof frame_len. pose proof frame_sc. pose proof frame_fo.
  pose proof (slot_pos_eq sc). pose proof (len_nonneg record).
  apply insert_image_seg_frame; lia.
Qed.

Lemma get_record_insert_image_old (i off l : Z) :
  _read_slot page i sc = Ok (off, l) -> off + l <= fo ->
  get_record_from_page (insert_image page record sc fo) i
  = get_record_from_page page i.
Proof.
  intros Hs Hin. pose proof frame_len. pose proof frame_sc. pose proof frame_fo.
  destruct (read_slot_range _ _ _ _ _ Hs) as (Hi & Ho & Hl).
  pose proof (len_nonneg record).
  unfold get_record_from_page.
  rewrite read_footer_insert_image by lia. rewrite Hfooter. cbn [bind].
  rewrite read_slot_insert_image_old by lia. rewrite Hs. cbn [bind].
  rewrite !py_slice_seg by (rewrite ?len_insert_image; lia).
  f_equal. apply insert_image_record_region; lia.
Qed.

Lemma get_record_insert_image_new :
  get_record_from_page (insert_image page record sc fo) sc = Ok record.
Proof.
  pose proof frame_len. pose proof frame_sc. pose proof frame_fo.
  pose proof (len_nonneg record).
  unfold get_record_from_page.
  rewrite read_footer_insert_image by lia. cbn [bind].
  rewrite read_slot_insert_image_new. cbn [bind].
  rewrite py_slice_seg by (rewrite ?len_insert_image; lia).
  f_equal. replace (fo + len record - fo) with (len record) by lia.
  apply insert_image_seg_record; lia.
Qed.
End InsertFrame.

(** ** Pages as lists of records *)

Lemma total_nil : total [] = 0.
Proof. reflexivity. Qed.

Lemma total_app (l1 l2 : list bytes) : total (l1 ++ l2) = total l1 + total l2.
Proof. unfold total. rewrite concat_app. apply len_app. Qed.

Lemma total_singleton (r : bytes) : total [r] = len r.
Proof. unfold total. simpl. rewrite app_nil_r. reflexivity. Qed.

Lemma total_cons (r : bytes) (l : list bytes) : total (r :: l) = len r + total l.
Proof. unfold total. simpl. apply len_app. Qed.

Lemma total_nonneg (l : list bytes) : 0 <= total l.
Proof. apply len_nonneg. Qed.

Lemma total_take_le (recs : list bytes) (i : nat) (r : bytes) :
  recs !! i = Some r -> total (take i recs) + len r <= total recs.
Proof.
  intros H. rewrite <- (take_drop_middle recs i r H) at 2.
  rewrite total_app, total_cons. pose proof (total_nonneg (drop (S i) recs)). lia.
Qed.

Lemma len_snoc {A} (l : list A) (x : A) : len (l ++ [x]) = len l + 1.
Proof. rewrite len_app. reflexivity. Qed.

Lemma read_footer_initialize_empty_page :
  _read_footer initialize_empty_page = Ok (0, 0).
Proof. vm_compute. reflexivity. Qed.

Lemma len_initialize_empty_page : len initialize_empty_page = 4096.
Proof. vm_compute. reflexivity. Qed.

Lemma page_repr_empty : page_repr [] initialize_empty_page.
Proof.
  split; [apply read_footer_initialize_empty_page|].
  split; [vm_compute; discriminate|].
  intros i r H. rewrite lookup_nil in H. discriminate.
Qed.

Lemma page_repr_len (recs : list bytes) (page : bytes) :
  page_repr recs page -> len page = 4096.
Proof. intros (Hf & _). apply (read_footer_inv _ _ _ Hf). Qed.

Lemma page_repr_free_space (recs : list bytes) (page : bytes) :
  page_repr recs page ->
  free_space_in_page page = Ok (4092 - 4 * len recs - total recs).
Proof. intros (Hf & _). apply free_space_footer, Hf. Qed.

Lemma page_repr_insert (recs : list bytes) (page r : bytes) :
  page_repr recs page -> fits recs r ->
  page_repr (recs ++ [r]) (insert_image page r (len recs) (total recs)).
Proof.
  intros (Hf & Hcap & Hslots) Hfit. unfold fits in Hfit.
  pose proof (len_nonneg recs) as Hn. pose proof (total_nonneg recs) as Ht.
  pose proof (read_footer_inv _ _ _ Hf) as (Hl & _).
  split; [|split].
  - rewrite len_snoc, total_app, total_singleton.
    apply read_footer_insert_image; assumption || lia.
  - rewrite len_snoc, total_app, total_singleton. lia.
  - intros i x Hix. rewrite len_snoc.
    apply lookup_app_Some in Hix as [Hix|[Hge Hix]].
    + assert (Hi : (i < length recs)%nat) by (eapply lookup_lt_Some; eassumption).
      rewrite take_app_le by lia.
      destruct (Hslots i x Hix) as [Hs Hseg].
      pose proof (total_take_le _ _ _ Hix) as Hle.
      split.
      * rewrite read_slot_insert_image_old; [exact Hs|exact Hf|lia|unfold len; lia].
      * rewrite (insert_image_record_region _ _ _ _ Hf Hfit); [exact Hseg| |lia].
        apply total_nonneg.
    + apply list_lookup_singleton_Some in Hix as [Hi <-].
      assert (i = length recs) as -> by lia.
      rewrite take_app_length.
      split.
      * apply read_slot_insert_image_new; assumption.
      * apply insert_image_seg_record; assumption || lia.
Qed.

Lemma page_repr_insert_record (recs : list bytes) (page r : bytes) :
  page_repr recs page ->
  insert_record_into_page page r =
    if decide (fits recs r)
    then Ok (insert_image page r (len recs) (total recs), len recs)
    else Err ValueError.
Proof.
  intros (Hf & _). case_decide as Hfit; unfold fits in Hfit.
  - apply insert_record_into_page_fits; assumption.
  - apply (insert_record_into_page_full _ _ _ _ Hf). lia.
Qed.

Lemma page_repr_get_record (recs : list bytes) (page : bytes) (i : nat) (r : bytes) :
  page_repr recs page -> recs !! i = Some r ->
  get_record_from_page page (Z.of_nat i) = Ok r.
Proof.
  intros (Hf & Hcap & Hslots) Hi. destruct (Hslots i r Hi) as [Hs Hseg].
  unfold get_record_from_page. rewrite Hf. cbn [bind]. rewrite Hs. cbn [bind].
  pose proof (read_footer_inv _ _ _ Hf) as (Hl & _).
  pose proof (total_take_le _ _ _ Hi). pose proof (total_nonneg (take i recs)).
  pose proof (len_nonneg r). pose proof (len_nonneg recs). unfold PAGE_SIZE in Hl.
  rewrite py_slice_seg by lia.
  replace (total (take i recs) + len r - total (take i recs)) with (len r) by lia.
  rewrite Hseg. reflexivity.
Qed.

(** ** Files as sequences of pages *)

Section Concat.
Context {A : Type}.
Implicit Types (l d : list A) (ls : list (list A)).

Lemma seg_app_r l1 l2 (a n : Z) :
  len l1 <= a -> seg (l1 ++ l2) a n = seg l2 (a - len l1) n.
Proof.
  unfold seg, len. intros H. f_equal.
  rewrite drop_app_ge by lia. f_equal. lia.
Qed.

Lemma seg_app_whole l1 l2 : seg (l1 ++ l2) 0 (len l1) = l1.
Proof.
  unfold seg, len. simpl. rewrite drop_0, Nat2Z.id. apply take_app_length.
Qed.

Lemma upd_app_r l1 l2 (a : Z) d :
  len l1 <= a -> upd (l1 ++ l2) a d = l1 ++ upd l2 (a - len l1) d.
Proof.
  unfold upd, len. intros H.
  rewrite take_app_ge, drop_app_ge by lia.
  rewrite <- !app_assoc. do 2 f_equal; [f_equal; lia|]. do 2 f_equal. lia.
Qed.

Lemma upd_app_whole l1 l2 d : len d = len l1 -> upd (l1 ++ l2) 0 d = d ++ l2.
Proof.
  unfold upd, len. intros H. simpl. f_equal.
  replace (Z.to_nat (0 + Z.of_nat (length d))) with (length l1) by lia.
  apply drop_app_length.
Qed.

Lemma len_concat_uniform ls (n : Z) :
  Forall (fun x => len x = n) ls -> len (concat ls) = n * len ls.
Proof.
  induction 1 as [|x ls Hx Hls IH]; [unfold len; simpl; lia|].
  simpl. rewrite len_app, IH, Hx. unfold len. simpl length. lia.
Qed.

Lemma seg_concat_uniform ls (n : Z) (p : nat) l :
  0 <= n -> Forall (fun x => len x = n) ls -> ls !! p = Some l ->
  seg (concat ls) (Z.of_nat p * n) n = l.
Proof.
  intros Hn Hall. revert p. induction Hall as [|x ls Hx Hls IH]; intros p Hp.
  - rewrite lookup_nil in Hp. discriminate.
  - destruct p as [|p]; simpl in Hp.
    + injection Hp as ->. simpl. rewrite <- Hx. apply seg_app_whole.
    + simpl concat. rewrite seg_app_r by (rewrite Hx; lia).
      rewrite Hx. rewrite <- (IH p Hp). f_equal. lia.
Qed.

Lemma upd_concat_uniform ls (n : Z) (p : nat) d :
  0 <= n -> Forall (fun x => len x = n) ls -> (p < length ls)%nat ->
  len d = n ->
  upd (concat ls) (Z.of_nat p * n) d = concat (<[p := d]> ls).
Proof.
  intros Hn Hall. revert p. induction Hall as [|x ls Hx Hls IH]; intros p Hp Hd.
  - simpl in Hp. lia.
  - destruct p as [|p]; simpl in Hp.
    + simpl. apply upd_app_whole. congruence.
    + simpl concat. rewrite upd_app_r by (rewrite Hx; lia).
      f_equal. rewrite Hx. rewrite <- (IH p) by (lia || assumption).
      f_equal. lia.
Qed.
End Concat.

Lemma zeros_nonpos (k : Z) : k <= 0 -> zeros k = [].
Proof. intros H. unfold zeros. replace (Z.to_nat k) with 0%nat by lia. reflexivity. Qed.

Lemma file_write_at_upd (content data : bytes) (off : Z) :
  0 <= off -> off + len data <= len content ->
  file_write_at content off data = upd content off data.
Proof.
  intros H1 H2. unfold file_write_at.
  pose proof (len_nonneg data).
  rewrite zeros_nonpos by lia. rewrite app_nil_r. reflexivity.
Qed.

(** ** Seeking *)

Lemma file_seek_inside (content : bytes) (off : Z) :
  0 <= off < len content -> file_seek content off = Ok off.
Proof.
  intros H. unfold file_seek.
  destruct (off <? 0) eqn:E; [apply Z.ltb_lt in E; lia|].
  destruct (len content <=? off) eqn:E'; [apply Z.leb_le in E'; lia|reflexivity].
Qed.

Lemma file_seek_Ok_inv (content : bytes) (off pos : Z) :
  file_seek content off = Ok pos -> pos = off /\ 0 <= off.
Proof.
  unfold file_seek. destruct (off <? 0) eqn:E.
  - destruct (off <? - 2 ^ 63); discriminate.
  - apply Z.ltb_ge in E.
    destruct ((len content <=? off) && (2 ^ 63 <=? off)); [discriminate|].
    intros [= <-]. split; [reflexivity|exact E].
Qed.

Lemma file_seek_negative (content : bytes) (off : Z) :
  off < 0 ->
  file_seek content off = Err (if off <? - 2 ^ 63 then ValueError else IOError).
Proof.
  intros H. unfold file_seek.
  destruct (off <? 0) eqn:E; [|apply Z.ltb_ge in E; lia].
  destruct (off <? - 2 ^ 63); reflexivity.
Qed.

Lemma file_seek_beyond (content : bytes) (off : Z) :
  len content <= off ->
  file_seek content off
  = if 2 ^ 63 <=? off then Err ValueError else Ok off.
Proof.
  intros H. pose proof (len_nonneg content). unfold file_seek.
  destruct (off <? 0) eqn:E; [apply Z.ltb_lt in E; lia|].
  destruct (len content <=? off) eqn:E'; [|apply Z.leb_gt in E'; lia].
  reflexivity.
Qed.

Lemma Forall2_page_repr_len (pages : list (list bytes)) (imgs : list bytes) :
  Forall2 page_repr pages imgs -> Forall (fun x => len x = 4096) imgs.
Proof.
  induction 1 as [|pg img pages imgs H _ IH]; constructor; [|exact IH].
  eapply page_repr_len, H.
Qed.

Section PagesOfFile.
Variables (fs : filesystem) (fname : pystr) (imgs : list bytes).
Hypothesis Hfile : fs !! fname = Some (concat imgs).
Hypothesis Hlen : Forall (fun x => len x = 4096) imgs.

Lemma getsize_pages : getsize fs fname = Ok (4096 * len imgs).
Proof. unfold getsize. rewrite Hfile. f_equal. apply len_concat_uniform, Hlen. Qed.

Lemma read_page_pages (p : nat) (img : bytes) :
  imgs !! p = Some img -> read_page fs fname (Z.of_nat p) = Ok img.
Proof.
  intros Hp. unfold read_page. rewrite Hfile. unfold PAGE_SIZE.
  assert (Hlt : (p < length imgs)%nat) by (eapply lookup_lt_Some; eassumption).
  pose proof (len_concat_uniform imgs 4096 Hlen) as Hc. unfold len at 2 in Hc.
  rewrite file_seek_inside by lia. cbn [bind].
  rewrite py_slice_seg by lia.
  replace (Z.of_nat p * 4096 + 4096 - Z.of_nat p * 4096) with 4096 by lia.
  rewrite (seg_concat_uniform imgs 4096 p img) by (lia || assumption).
  rewrite Forall_lookup in Hlen. rewrite (Hlen p img Hp). reflexivity.
Qed.

Lemma write_page_pages (p : nat) (img : bytes) :
  (p < length imgs)%nat -> len img = 4096 ->
  write_page fs fname (Z.of_nat p) img
  = (<[fname := concat (<[p := img]> imgs)]> fs, Ok tt).
Proof.
  intros Hp Hi. unfold write_page. rewrite Hi, Hfile. unfold PAGE_SIZE. simpl negb.
  cbv iota.
  pose proof (len_concat_uniform imgs 4096 Hlen) as Hc. unfold len at 2 in Hc.
  rewrite file_seek_inside by lia.
  rewrite file_write_at_upd by lia.
  rewrite upd_concat_uniform by (lia || assumption). reflexivity.
Qed.

Lemma append_page_pages (img : bytes) :
  len img = 4096 ->
  append_page fs fname img = (<[fname := concat (imgs ++ [img])]> fs, Ok tt).
Proof.
  intros Hi. unfold append_page. rewrite Hi, Hfile. unfold PAGE_SIZE. simpl negb.
  cbv iota. rewrite concat_app. simpl. rewrite app_nil_r. reflexivity.
Qed.
End PagesOfFile.

(** ** First-fit insertion refines the abstract heap *)

Lemma list_find_cons_dec {A} (P : A -> Prop) `{forall x, Decision (P x)}
    (x : A) (l : list A) :
  list_find P (x :: l) =
    if decide (P x) then Some (0%nat, x) else prod_map S id <$> list_find P l.
Proof. reflexivity. Qed.

Lemma insert_record_loop_pages (fname : pystr) (r : bytes)
    (suf : list (list bytes)) (suf_imgs : list bytes) :
  Forall2 page_repr suf suf_imgs ->
  forall (pre : list (list bytes)) (pre_imgs : list bytes) (fs : filesystem),
  Forall2 page_repr pre pre_imgs ->
  fs !! fname = Some (concat (pre_imgs ++ suf_imgs)) ->
  match list_find (fun pg => fits pg r) suf with
  | Some (j, pg) =>
      exists imgs',
        Forall2 page_repr (pre ++ <[j := pg ++ [r]]> suf) imgs' /\
        insert_record_loop fs fname r (seqZ (len pre) (len suf))
        = Some (<[fname := concat imgs']> fs, Ok (len pre + Z.of_nat j, len pg))
  | None => insert_record_loop fs fname r (seqZ (len pre) (len suf)) = None
  end.
Proof.
  induction 1 as [|pg img suf suf_imgs Hpg HF IH]; intros pre pre_imgs fs Hpre Hfile.
  - reflexivity.
  - assert (Hlens : Forall (fun x => len x = 4096) (pre_imgs ++ img :: suf_imgs)).
    { apply Forall_app. split; [eapply Forall2_page_repr_len; eassumption|].
      constructor; [eapply page_repr_len; eassumption|].
      eapply Forall2_page_repr_len; eassumption. }
    pose proof (Forall2_length _ _ _ Hpre) as Hlp.
    assert (Hlook : (pre_imgs ++ img :: suf_imgs) !! length pre = Some img).
    { rewrite Hlp. apply list_lookup_middle. reflexivity. }
    rewrite seqZ_cons by (unfold len; simpl length; lia).
    cbn [insert_record_loop].
    change (len pre) with (Z.of_nat (length pre)).
    rewrite (read_page_pages fs fname _ Hfile Hlens _ _ Hlook).
    rewrite (page_repr_insert_record pg img r Hpg).
    rewrite list_find_cons_dec.
    destruct (decide (fits pg r)) as [Hfit|Hnofit].
    + pose proof (page_repr_insert _ _ _ Hpg Hfit) as Himg.
      rewrite (write_page_pages fs fname _ Hfile Hlens).
      * eexists. split; [|rewrite Z.add_0_r; reflexivity].
        rewrite insert_app_r_alt by lia. rewrite Hlp, Nat.sub_diag. simpl.
        apply Forall2_app; [exact Hpre|]. constructor; assumption.
      * rewrite length_app. simpl. lia.
      * eapply page_repr_len; eassumption.
    + cbn [is_ValueError].
      specialize (IH (pre ++ [pg]) (pre_imgs ++ [img]) fs).
      rewrite <- !app_assoc in IH. simpl in IH.
      assert (Hpre' : Forall2 page_repr (pre ++ [pg]) (pre_imgs ++ [img])).
      { apply Forall2_app; [exact Hpre|]. constructor; [exact Hpg|constructor]. }
      specialize (IH Hpre' Hfile).
      replace (Z.succ (Z.of_nat (length pre))) with (len (pre ++ [pg]))
        by (rewrite len_snoc; unfold len; lia).
      replace (Z.pred (len (pg :: suf))) with (len suf)
        by (unfold len; simpl length; lia).
      destruct (list_find (fun pg0 => fits pg0 r) suf) as [[j pg']|]; simpl.
      * destruct IH as (imgs' & HF' & Hloop). exists imgs'.
        rewrite <- app_assoc in HF'. split; [exact HF'|].
        rewrite Hloop. do 4 f_equal. rewrite len_snoc. unfold len. lia.
      * exact IH.
Qed.

Lemma insert_record_created (fs : filesystem) (fname : pystr) (r : bytes) :
  fs !! fname = None \/ fs !! fname = Some [] ->
  insert_record fs fname r = insert_record (create_heap_file fs fname) fname r.
Proof.
  intros H. unfold insert_record at 1 2.
  assert (E1 : negb (path_exists fs fname)
               || match getsize fs fname with Ok n => n =? 0 | Err _ => false end
               = true).
  { unfold path_exists, getsize. destruct H as [-> | ->]; reflexivity. }
  assert (E2 : negb (path_exists (create_heap_file fs fname) fname)
               || match getsize (create_heap_file fs fname) fname with
                  | Ok n => n =? 0 | Err _ => false end
               = false).
  { unfold path_exists, getsize, create_heap_file. rewrite lookup_insert_eq.
    rewrite len_initialize_empty_page. reflexivity. }
  rewrite E1, E2. reflexivity.
Qed.

Lemma heap_repr_created : heap_repr [[]] initialize_empty_page.
Proof.
  exists [initialize_empty_page]. split.
  { change (concat [initialize_empty_page]) with (initialize_empty_page ++ []).
    rewrite app_nil_r. reflexivity. }
  constructor; [apply page_repr_empty|constructor].
Qed.

Lemma insert_record_pages (fs : filesystem) (fname : pystr) (content r : bytes)
    (pages : list (list bytes)) :
  fs !! fname = Some content -> heap_repr pages content -> pages <> [] ->
  match abs_insert pages r with
  | Some (pages', a) =>
      exists content',
        heap_repr pages' content' /\
        insert_record fs fname r = (<[fname := content']> fs, Ok a)
  | None => insert_record fs fname r = (fs, Err ValueError)
  end.
Proof.
  intros Hfile (imgs & -> & HF) Hne.
  pose proof (Forall2_page_repr_len _ _ HF) as Hlens.
  pose proof (Forall2_length _ _ _ HF) as Hlen.
  assert (Hpos : 0 < len imgs).
  { unfold len. rewrite <- Hlen. destruct pages; [contradiction|simpl; lia]. }
  unfold insert_record.
  assert (E : negb (path_exists fs fname)
              || match getsize fs fname with Ok n => n =? 0 | Err _ => false end
              = false).
  { unfold path_exists. rewrite (getsize_pages fs fname imgs Hfile Hlens), Hfile.
    simpl. apply Z.eqb_neq. lia. }
  rewrite E. rewrite (getsize_pages fs fname imgs Hfile Hlens).
  unfold PAGE_SIZE.
  replace (4096 * len imgs / 4096) with (len pages)
    by (rewrite Z.mul_comm, Z.div_mul by lia; unfold len; lia).
  pose proof (insert_record_loop_pages fname r pages imgs HF [] [] fs
                ltac:(constructor) Hfile) as Hloop.
  unfold abs_insert.
  destruct (list_find (fun pg => fits pg r) pages) as [[j pg]|].
  - destruct Hloop as (imgs' & HF' & Hloop). change (len []) with 0 in Hloop.
    rewrite Hloop. exists (concat imgs'). split; [|reflexivity].
    exists imgs'. split; [reflexivity|exact HF'].
  - change (len []) with 0 in Hloop. rewrite Hloop.
    rewrite (page_repr_insert_record [] _ r page_repr_empty).
    destruct (decide (fits [] r)) as [Hfit|Hnofit]; [|reflexivity].
    pose proof (page_repr_insert _ _ _ page_repr_empty Hfit) as Himg.
    rewrite (append_page_pages fs fname imgs Hfile)
      by (eapply page_repr_len; eassumption).
    eexists. split; [|reflexivity].
    eexists. split; [reflexivity|].
    apply Forall2_app; [exact HF|]. constructor; [exact Himg|constructor].
Qed.

(** ** The full scan enumerates the abstract heap *)

Lemma scan_slots_page (page : bytes) (p : Z) (recs : list bytes) :
  page_repr recs page ->
  forall (suf pre : list bytes) (acc : list (Z * Z * bytes)),
  recs = pre ++ suf ->
  scan_slots page p (seqZ (len pre) (len suf)) acc
  = Ok (acc ++ imap (fun i r => (p, len pre + Z.of_nat i, r)) suf).
Proof.
  intros Hrepr. induction suf as [|r suf IH]; intros pre acc Hrecs.
  - simpl. rewrite app_nil_r. reflexivity.
  - rewrite seqZ_cons by (unfold len; simpl length; lia).
    cbn [scan_slots].
    assert (Hlook : recs !! length pre = Some r).
    { rewrite Hrecs. apply list_lookup_middle. reflexivity. }
    change (len pre) with (Z.of_nat (length pre)) at 1.
    rewrite (page_repr_get_record recs page _ r Hrepr Hlook). cbn [bind].
    replace (Z.succ (len pre)) with (len (pre ++ [r])) by (rewrite len_snoc; lia).
    replace (Z.pred (len (r :: suf))) with (len suf)
      by (unfold len; simpl length; lia).
    rewrite (IH (pre ++ [r])) by (rewrite <- app_assoc; exact Hrecs).
    rewrite imap_cons, <- app_assoc. simpl. do 3 f_equal.
    + rewrite Z.add_0_r. reflexivity.
    + apply imap_ext. intros i x _. simpl. rewrite len_snoc.
      do 2 f_equal. lia.
Qed.

Lemma scan_slots_whole_page (page : bytes) (p : Z) (recs : list bytes)
    (acc : list (Z * Z * bytes)) :
  page_repr recs page ->
  scan_slots page p (seqZ 0 (len recs)) acc = Ok (acc ++ page_entries p recs).
Proof.
  intros Hrepr.
  pose proof (scan_slots_page page p recs Hrepr recs [] acc eq_refl) as H.
  change (len []) with 0 in H. rewrite H. unfold page_entries.
  do 2 f_equal.
Qed.

Lemma scan_pages_pages (fs : filesystem) (fname : pystr)
    (suf : list (list bytes)) (suf_imgs : list bytes) :
  Forall2 page_repr suf suf_imgs ->
  forall (pre : list (list bytes)) (pre_imgs : list bytes)
         (acc : list (Z * Z * bytes)),
  Forall2 page_repr pre pre_imgs ->
  fs !! fname = Some (concat (pre_imgs ++ suf_imgs)) ->
  scan_pages fs fname (seqZ (len pre) (len suf)) acc
  = Ok (acc ++ heap_entries (len pre) suf).
Proof.
  induction 1 as [|pg img suf suf_imgs Hpg HF IH]; intros pre pre_imgs acc Hpre Hfile.
  - simpl. rewrite app_nil_r. reflexivity.
  - assert (Hlens : Forall (fun x => len x = 4096) (pre_imgs ++ img :: suf_imgs)).
    { apply Forall_app. split; [eapply Forall2_page_repr_len; eassumption|].
      constructor; [eapply page_repr_len; eassumption|].
      eapply Forall2_page_repr_len; eassumption. }
    pose proof (Forall2_length _ _ _ Hpre) as Hlp.
    assert (Hlook : (pre_imgs ++ img :: suf_imgs) !! length pre = Some img).
    { rewrite Hlp. apply list_lookup_middle. reflexivity. }
    rewrite seqZ_cons by (unfold len; simpl length; lia).
    cbn [scan_pages].
    change (len pre) with (Z.of_nat (length pre)) at 1.
    rewrite (read_page_pages fs fname _ Hfile Hlens _ _ Hlook). cbn [bind].
    destruct Hpg as (Hfoot & Hrest). rewrite Hfoot. cbn [bind].
    rewrite (scan_slots_whole_page img _ pg acc (conj Hfoot Hrest)). cbn [bind].
    replace (Z.succ (len pre)) with (len (pre ++ [pg])) by (rewrite len_snoc; lia).
    replace (Z.pred (len (pg :: suf))) with (len suf)
      by (unfold len; simpl length; lia).
    rewrite (IH (pre ++ [pg]) (pre_imgs ++ [img])).
    + rewrite <- app_assoc. cbn [heap_entries]. rewrite len_snoc. reflexivity.
    + apply Forall2_app; [exact Hpre|]. constructor; [split; assumption|constructor].
    + rewrite <- app_assoc. exact Hfile.
Qed.

Lemma get_all_raw_records_pages (fs : filesystem) (fname : pystr)
    (content : bytes) (pages : list (list bytes)) :
  fs !! fname = Some content -> heap_repr pages content ->
  get_all_raw_records fs fname = Ok (heap_entries 0 pages).
Proof.
  intros Hfile (imgs & -> & HF).
  pose proof (Forall2_page_repr_len _ _ HF) as Hlens.
  pose proof (Forall2_length _ _ _ HF) as Hlen.
  unfold get_all_raw_records, path_exists. rewrite Hfile. simpl negb. cbv iota.
  rewrite (getsize_pages fs fname imgs Hfile Hlens). cbn [bind].
  destruct pages as [|pg pages].
  - destruct imgs; [reflexivity|discriminate].
  - assert (Hpos : 0 < len imgs) by (unfold len; rewrite <- Hlen; simpl; lia).
    destruct (4096 * len imgs =? 0) eqn:E; [apply Z.eqb_eq in E; lia|].
    unfold PAGE_SIZE.
    replace (4096 * len imgs / 4096) with (len (pg :: pages))
      by (rewrite Z.mul_comm, Z.div_mul by lia; unfold len; lia).
    apply (scan_pages_pages fs fname (pg :: pages) imgs HF [] [] []);
      [constructor|exact Hfile].
Qed.

Lemma get_all_raw_records_absent (fs : filesystem) (fname : pystr) :
  fs !! fname = None \/ fs !! fname = Some [] ->
  get_all_raw_records fs fname = Ok [].
Proof.
  intros [H|H]; unfold get_all_raw_records, path_exists, getsize; rewrite H;
    reflexivity.
Qed.

(** ** Properties of the abstract heap *)

Lemma page_entries_snoc (p : Z) (pg : list bytes) (r : bytes) :
  page_entries p (pg ++ [r]) = page_entries p pg ++ [(p, len pg, r)].
Proof.
  unfold page_entries. rewrite imap_app. simpl. rewrite Nat.add_0_r. reflexivity.
Qed.

Lemma heap_entries_app (k : Z) (ps1 ps2 : list (list bytes)) :
  heap_entries k (ps1 ++ ps2) = heap_entries k ps1 ++ heap_entries (k + len ps1) ps2.
Proof.
  revert k. induction ps1 as [|pg ps1 IH]; intros k.
  - simpl. rewrite Z.add_0_r. reflexivity.
  - simpl. rewrite IH, <- app_assoc. do 3 f_equal. unfold len. simpl length. lia.
Qed.

Lemma heap_entries_insert (k : Z) (pages : list (list bytes)) (j : nat)
    (pg : list bytes) (r : bytes) :
  pages !! j = Some pg ->
  heap_entries k (<[j := pg ++ [r]]> pages)
  ≡ₚ (k + Z.of_nat j, len pg, r) :: heap_entries k pages.
Proof.
  revert k j. induction pages as [|pg0 pages IH]; intros k j Hj.
  - rewrite lookup_nil in Hj. discriminate.
  - destruct j as [|j]; simpl in Hj.
    + injection Hj as ->. simpl. rewrite page_entries_snoc, Z.add_0_r.
      rewrite <- app_assoc. simpl.
      symmetry. apply Permutation_middle.
    + simpl. rewrite (IH (k + 1) j Hj).
      replace (k + 1 + Z.of_nat j) with (k + Z.of_nat (S j)) by lia.
      symmetry. apply Permutation_middle.
Qed.

Lemma abs_insert_entries (pages pages' : list (list bytes)) (r : bytes) (a : Z * Z) :
  abs_insert pages r = Some (pages', a) ->
  heap_entries 0 pages' ≡ₚ (a.1, a.2, r) :: heap_entries 0 pages.
Proof.
  unfold abs_insert. intros H.
  destruct (list_find (fun pg => fits pg r) pages) as [[j pg]|] eqn:E.
  - injection H as <- <-. apply list_find_Some in E as (Hj & _).
    apply (heap_entries_insert 0 pages j pg r Hj).
  - destruct (decide (fits [] r)); [|discriminate]. injection H as <- <-.
    rewrite heap_entries_app. simpl.
    symmetry. apply Permutation_cons_append.
Qed.

Lemma abs_insert_length (pages pages' : list (list bytes)) (r : bytes) (a : Z * Z) :
  abs_insert pages r = Some (pages', a) -> (length pages <= length pages')%nat.
Proof.
  unfold abs_insert. intros H.
  destruct (list_find (fun pg => fits pg r) pages) as [[j pg]|] eqn:E.
  - injection H as <- <-. rewrite length_insert. lia.
  - destruct (decide (fits [] r)); [|discriminate]. injection H as <- <-.
    rewrite length_app. simpl. lia.
Qed.

(** After a successful insert no page is empty, provided no page was
    empty before or the heap was the freshly created one. *)
Lemma abs_insert_nonempty (pages pages' : list (list bytes)) (r : bytes) (a : Z * Z) :
  abs_insert pages r = Some (pages', a) ->
  pages = [[]] \/ Forall (fun pg => pg <> []) pages ->
  Forall (fun pg => pg <> []) pages'.
Proof.
  unfold abs_insert. intros H Hinv.
  destruct (list_find (fun pg => fits pg r) pages) as [[j pg]|] eqn:E.
  - injection H as <- <-. apply list_find_Some in E as (Hj & _).
    destruct Hinv as [->|Hall].
    + destruct j as [|j]; simpl in Hj; [|rewrite lookup_nil in Hj; discriminate].
      injection Hj as <-. simpl. constructor; [discriminate|constructor].
    + apply Forall_insert; [exact Hall|]. destruct pg; discriminate.
  - destruct (decide (fits [] r)) as [Hfit|]; [|discriminate]. injection H as <- <-.
    destruct Hinv as [->|Hall].
    + simpl in E. destruct (decide (fits [] r)); [discriminate|contradiction].
    + apply Forall_app. split; [exact Hall|]. constructor; [discriminate|constructor].
Qed.

Lemma abs_insert_all_entries (recs : list bytes) :
  forall (pages pages' : list (list bytes)) (addrs : list (Z * Z)),
  abs_insert_all pages recs = Some (pages', addrs) ->
  length addrs = length recs /\
  heap_entries 0 pages' ≡ₚ heap_entries 0 pages ++ placed addrs recs.
Proof.
  induction recs as [|r recs IH]; intros pages pages' addrs H; simpl in H.
  - injection H as <- <-. rewrite app_nil_r. split; reflexivity.
  - destruct (abs_insert pages r) as [[pages1 a]|] eqn:E1; [|discriminate].
    destruct (abs_insert_all pages1 recs) as [[pages2 addrs2]|] eqn:E2; [|discriminate].
    injection H as <- <-. destruct (IH _ _ _ E2) as [Hlen Hperm].
    split; [simpl; congruence|].
    rewrite Hperm, (abs_insert_entries _ _ _ _ E1). simpl.
    apply Permutation_middle.
Qed.

Lemma abs_insert_all_nonempty (recs : list bytes) :
  forall (pages pages' : list (list bytes)) (addrs : list (Z * Z)),
  abs_insert_all pages recs = Some (pages', addrs) ->
  Forall (fun pg => pg <> []) pages ->
  Forall (fun pg => pg <> []) pages'.
Proof.
  induction recs as [|r recs IH]; intros pages pages' addrs H Hinv; simpl in H.
  - injection H as <- <-. exact Hinv.
  - destruct (abs_insert pages r) as [[pages1 a]|] eqn:E1; [|discriminate].
    destruct (abs_insert_all pages1 recs) as [[pages2 addrs2]|] eqn:E2; [|discriminate].
    injection H as <- <-. apply (IH _ _ _ E2).
    apply (abs_insert_nonempty _ _ _ _ E1). right. exact Hinv.
Qed.

Lemma elem_of_page_entries (p : Z) (recs : list bytes) (e : Z * Z * bytes) :
  e ∈ page_entries p recs <->
  exists (si : nat) (r : bytes), recs !! si = Some r /\ e = (p, Z.of_nat si, r).
Proof.
  unfold page_entries. rewrite elem_of_lookup_imap.
  split; intros (si & r & H1 & H2); exists si, r; auto.
Qed.

Lemma elem_of_heap_entries (k : Z) (pages : list (list bytes)) (e : Z * Z * bytes) :
  e ∈ heap_entries k pages <->
  exists (p si : nat) (pg : list bytes) (r : bytes),
    pages !! p = Some pg /\ pg !! si = Some r /\
    e = (k + Z.of_nat p, Z.of_nat si, r).
Proof.
  revert k. induction pages as [|pg0 pages IH]; intros k; simpl.
  - split; [intros H; inversion H|].
    intros (p & si & pg & r & H & _). rewrite lookup_nil in H. discriminate.
  - rewrite elem_of_app, elem_of_page_entries, IH. split.
    + intros [(si & r & H1 & ->)|(p & si & pg & r & H1 & H2 & ->)].
      * exists 0%nat, si, pg0, r. rewrite Z.add_0_r. auto.
      * exists (S p), si, pg, r. split; [exact H1|]. split; [exact H2|].
        do 2 f_equal. lia.
    + intros (p & si & pg & r & H1 & H2 & ->). destruct p as [|p]; simpl in H1.
      * injection H1 as ->. left. exists si, r. rewrite Z.add_0_r. auto.
      * right. exists p, si, pg, r. split; [exact H1|]. split; [exact H2|].
        do 2 f_equal. lia.
Qed.

Lemma page_entries_sorted (p : Z) (recs : list bytes) :
  StronglySorted entry_lt (page_entries p recs).
Proof.
  induction recs as [|r recs IH] using rev_ind; [constructor|].
  rewrite page_entries_snoc. apply StronglySorted_app_2.
  - intros e1 e2 He1 He2. apply list_elem_of_singleton in He2 as ->.
    apply elem_of_page_entries in He1 as (si & x & Hsi & ->).
    right. simpl. split; [reflexivity|].
    apply lookup_lt_Some in Hsi. unfold len. lia.
  - exact IH.
  - repeat constructor.
Qed.

Lemma heap_entries_sorted (k : Z) (pages : list (list bytes)) :
  StronglySorted entry_lt (heap_entries k pages).
Proof.
  revert k. induction pages as [|pg pages IH]; intros k; [constructor|].
  simpl. apply StronglySorted_app_2.
  - intros e1 e2 He1 He2.
    apply elem_of_page_entries in He1 as (si & x & _ & ->).
    apply elem_of_heap_entries in He2 as (p & si' & pg' & r & _ & _ & ->).
    left. simpl. lia.
  - apply page_entries_sorted.
  - apply IH.
Qed.

Lemma heap_entries_page_numbers (k : Z) (pages : list (list bytes)) :
  Forall (fun pg => pg <> []) pages ->
  list_to_set (C := gset Z) ((fun e => e.1.1) <$> heap_entries k pages)
  = list_to_set (seqZ k (len pages)).
Proof.
  intros Hall. apply set_eq. intros x.
  rewrite !elem_of_list_to_set, list_elem_of_fmap, elem_of_seqZ. split.
  - intros (e & -> & He).
    apply elem_of_heap_entries in He as (p & si & pg & r & Hp & _ & ->). simpl.
    apply lookup_lt_Some in Hp. unfold len. lia.
  - intros Hx.
    assert (Hlt : (Z.to_nat (x - k) < length pages)%nat) by (unfold len in Hx; lia).
    destruct (lookup_lt_is_Some_2 _ _ Hlt) as [pg Hpg].
    rewrite Forall_lookup in Hall. pose proof (Hall _ _ Hpg) as Hne.
    destruct pg as [|r pg]; [contradiction|].
    exists (x, 0, r). split; [reflexivity|].
    apply elem_of_heap_entries. exists (Z.to_nat (x - k)), 0%nat, (r :: pg), r.
    split; [exact Hpg|]. split; [reflexivity|]. do 2 f_equal. lia.
Qed.

Lemma pages_spanned_heap_entries (k : Z) (pages : list (list bytes)) :
  Forall (fun pg => pg <> []) pages ->
  pages_spanned (heap_entries k pages) = len pages.
Proof.
  intros Hall. unfold pages_spanned. rewrite heap_entries_page_numbers by exact Hall.
  rewrite size_list_to_set by apply NoDup_seqZ. rewrite length_seqZ.
  unfold len. lia.
Qed.

Lemma pages_spanned_perm (l1 l2 : list (Z * Z * bytes)) :
  l1 ≡ₚ l2 -> pages_spanned l1 = pages_spanned l2.
Proof.
  intros H. unfold pages_spanned. do 2 f_equal.
  apply set_eq. intros x. rewrite !elem_of_list_to_set. rewrite H. reflexivity.
Qed.

Lemma total_perm (l1 l2 : list bytes) : l1 ≡ₚ l2 -> total l1 = total l2.
Proof.
  induction 1 as [|x l1 l2 _ IH|x y l|l1 l2 l3 _ IH1 _ IH2].
  - reflexivity.
  - rewrite !total_cons. lia.
  - rewrite !total_cons. lia.
  - congruence.
Qed.

Lemma heap_entries_records (k : Z) (pages : list (list bytes)) :
  snd <$> heap_entries k pages = concat pages.
Proof.
  revert k. induction pages as [|pg pages IH]; intros k; [reflexivity|].
  simpl. rewrite fmap_app, IH. f_equal.
  unfold page_entries. apply list_eq. intros i.
  rewrite list_lookup_fmap, list_lookup_imap. destruct (pg !! i); reflexivity.
Qed.

Lemma placed_records (addrs : list (Z * Z)) (recs : list bytes) :
  length addrs = length recs -> snd <$> placed addrs recs = recs.
Proof.
  revert recs. induction addrs as [|a addrs IH]; intros [|r recs] H;
    try discriminate; [reflexivity|].
  simpl. f_equal. apply IH. simpl in H. lia.
Qed.

(** A heap whose pages are all non-empty holds at most 4088 bytes per page. *)
Lemma heap_capacity (pages : list (list bytes)) (imgs : list bytes) :
  Forall2 page_repr pages imgs -> Forall (fun pg => pg <> []) pages ->
  total (concat pages) <= 4088 * len pages.
Proof.
  induction 1 as [|pg img pages imgs Hpg _ IH]; intros Hne.
  - unfold total, len. simpl. lia.
  - inversion Hne as [|? ? Hpg_ne Hrest]; subst.
    simpl. rewrite total_app. specialize (IH Hrest).
    destruct Hpg as (_ & Hcap & _).
    assert (1 <= len pg) by (destruct pg; [contradiction|unfold len; simpl; lia]).
    unfold len in *. simpl length. lia.
Qed.

(** ** Sequences of inserts *)

Lemma fits_empty_iff (r : bytes) : fits [] r <-> len r <= 4088.
Proof. unfold fits. change (len []) with 0. rewrite total_nil. lia. Qed.

Lemma abs_insert_total (pages : list (list bytes)) (r : bytes) :
  len r <= 4088 -> exists pages' a, abs_insert pages r = Some (pages', a).
Proof.
  intros H. unfold abs_insert.
  destruct (list_find (fun pg => fits pg r) pages) as [[j pg]|]; [eauto|].
  destruct (decide (fits [] r)) as [|Hn]; [eauto|].
  exfalso. apply Hn, fits_empty_iff, H.
Qed.

Lemma abs_insert_small (pages pages' : list (list bytes)) (r : bytes) (a : Z * Z) :
  abs_insert pages r = Some (pages', a) -> len r <= 4088.
Proof.
  unfold abs_insert. intros H.
  destruct (list_find (fun pg => fits pg r) pages) as [[j pg]|] eqn:E.
  - apply list_find_Some in E as (_ & Hfit & _). unfold fits in Hfit.
    pose proof (len_nonneg pg). pose proof (total_nonneg pg). lia.
  - destruct (decide (fits [] r)) as [Hfit|]; [|discriminate].
    apply fits_empty_iff, Hfit.
Qed.

Lemma abs_insert_all_small (recs : list bytes) :
  forall pages : list (list bytes),
  Forall (fun r => len r <= 4088) recs <-> is_Some (abs_insert_all pages recs).
Proof.
  induction recs as [|r recs IH]; intros pages; simpl.
  - split; [eauto|constructor].
  - split.
    + intros Hall. inversion Hall as [|? ? Hr Hrest]; subst.
      destruct (abs_insert_total pages r Hr) as (pages1 & a & E1). rewrite E1.
      apply (IH pages1) in Hrest. destruct Hrest as [[pages2 addrs] E2].
      rewrite E2. eauto.
    + intros [x Hx].
      destruct (abs_insert pages r) as [[pages1 a]|] eqn:E1; [|discriminate].
      destruct (abs_insert_all pages1 recs) as [[pages2 addrs2]|] eqn:E2;
        [|discriminate].
      constructor; [eapply abs_insert_small; eassumption|].
      apply (IH pages1). rewrite E2. eauto.
Qed.

(** [insert_all] on a non-empty heap file follows the abstract heap: it
    succeeds exactly when the abstract inserts do, and fails with the
    ValueError of the page that cannot hold the record otherwise. *)
Lemma insert_all_pages (fname : pystr) (recs : list bytes) :
  forall (fs : filesystem) (content : bytes) (pages : list (list bytes)),
  fs !! fname = Some content -> heap_repr pages content -> pages <> [] ->
  match abs_insert_all pages recs with
  | Some (pages', addrs) =>
      exists fs' content',
        insert_all fs fname recs = (fs', Ok addrs) /\
        fs' !! fname = Some content' /\ heap_repr pages' content'
  | None => exists fs', insert_all fs fname recs = (fs', Err ValueError)
  end.
Proof.
  induction recs as [|r recs IH]; intros fs content pages Hfile Hrepr Hne.
  - exists fs, content. simpl. auto.
  - pose proof (insert_record_pages fs fname content r pages Hfile Hrepr Hne) as Hins.
    simpl. destruct (abs_insert pages r) as [[pages1 a]|] eqn:Habs.
    + destruct Hins as (c1 & Hrepr1 & Hins). rewrite Hins.
      assert (Hne1 : pages1 <> []).
      { pose proof (abs_insert_length _ _ _ _ Habs). destruct pages; [contradiction|].
        destruct pages1; [simpl in *; lia|discriminate]. }
      specialize (IH (<[fname := c1]> fs) c1 pages1
                     (lookup_insert_eq _ _ _) Hrepr1 Hne1).
      destruct (abs_insert_all pages1 recs) as [[pages2 addrs]|].
      * destruct IH as (fs' & content' & -> & Hfile' & Hrepr'). eauto.
      * destruct IH as (fs' & ->). eauto.
    + rewrite Hins. eauto.
Qed.

Lemma py_slice_beyond {A} (l : list A) (i j : Z) :
  len l <= i -> py_slice l i j = [].
Proof.
  intros H. unfold py_slice, slice_index. pose proof (len_nonneg l).
  destruct (i <? 0) eqn:E; [apply Z.ltb_lt in E; lia|].
  rewrite (Z.min_r i) by lia. unfold len. rewrite Nat2Z.id, drop_all.
  apply take_nil.
Qed.

Lemma read_page_pages_inv (fs : filesystem) (fname : pystr) (imgs : list bytes)
    (p : Z) (page : bytes) :
  fs !! fname = Some (concat imgs) -> Forall (fun x => len x = 4096) imgs ->
  read_page fs fname p = Ok page ->
  exists i : nat, p = Z.of_nat i /\ imgs !! i = Some page.
Proof.
  intros Hfile Hlens Hread.
  destruct (Z_lt_le_dec p 0) as [Hneg|Hnn].
  { unfold read_page in Hread. rewrite Hfile in Hread. unfold PAGE_SIZE in Hread.
    rewrite file_seek_negative in Hread by lia. discriminate. }
  destruct (Z_lt_le_dec p (len imgs)) as [Hlt|Hge].
  - exists (Z.to_nat p). split; [lia|].
    destruct (lookup_lt_is_Some_2 imgs (Z.to_nat p)) as [img Himg];
      [unfold len in Hlt; lia|].
    pose proof (read_page_pages fs fname imgs Hfile Hlens _ _ Himg) as Hr.
    rewrite Z2Nat.id in Hr by lia. congruence.
  - exfalso. unfold read_page in Hread. rewrite Hfile in Hread.
    unfold PAGE_SIZE in Hread.
    pose proof (len_concat_uniform imgs 4096 Hlens) as Hc.
    rewrite file_seek_beyond in Hread by lia.
    destruct (2 ^ 63 <=? p * 4096); [discriminate|]. cbn [bind] in Hread.
    rewrite py_slice_beyond in Hread; [discriminate|lia].
Qed.

Lemma read_page_missing (fs : filesystem) (fname : pystr) (p : Z) :
  fs !! fname = None -> read_page fs fname p = Err IOError.
Proof. intros H. unfold read_page. rewrite H. reflexivity. Qed.

(** No page is read from a file that is missing or empty. *)
Lemma read_page_absent (fs : filesystem) (fname : pystr) (p : Z) :
  fs !! fname = None \/ fs !! fname = Some [] ->
  exists e, read_page fs fname p = Err e.
Proof.
  intros [H|H]; unfold read_page; rewrite H; [eauto|].
  destruct (file_seek [] (p * PAGE_SIZE)) as [pos|e] eqn:E; [|eauto].
  cbn [bind]. apply file_seek_Ok_inv in E as [-> Hp].
  rewrite py_slice_beyond by (unfold len; simpl; lia). eauto.
Qed.

(** Every slot of every page of a heap file shows up in the scan. *)
Lemma scan_visits_every_slot (fs : filesystem) (fname : pystr) (content : bytes)
    (pages : list (list bytes)) (p : Z) (page : bytes) (sc fo si : Z) :
  fs !! fname = Some content -> heap_repr pages content ->
  read_page fs fname p = Ok page -> _read_footer page = Ok (sc, fo) ->
  0 <= si < sc ->
  exists rec, get_record_from_page page si = Ok rec /\
              (p, si, rec) ∈ heap_entries 0 pages.
Proof.
  intros Hfile (imgs & -> & HF) Hread Hfoot Hsi.
  pose proof (Forall2_page_repr_len _ _ HF) as Hlens.
  destruct (read_page_pages_inv _ _ _ _ _ Hfile Hlens Hread) as (i & -> & Himg).
  destruct (Forall2_lookup_r _ _ _ _ _ HF Himg) as (pg & Hpg & Hrepr).
  pose proof Hrepr as (Hfoot' & _). rewrite Hfoot in Hfoot'.
  injection Hfoot' as -> ->.
  destruct (lookup_lt_is_Some_2 pg (Z.to_nat si)) as [r Hr];
    [unfold len in Hsi; lia|].
  exists r. split.
  - pose proof (page_repr_get_record _ _ _ _ Hrepr Hr) as Hg.
    rewrite Z2Nat.id in Hg by lia. exact Hg.
  - apply elem_of_heap_entries. exists i, (Z.to_nat si), pg, r.
    split; [exact Hpg|]. split; [exact Hr|]. do 2 f_equal; lia.
Qed.

(** * Proofs about the record codec *)

(** ** UTF-8 *)

Lemma utf8_decode_cons (b0 : byte) (r0 : bytes) :
  utf8_decode (b0 :: r0) =
    let z0 := byte_to_Z b0 in
    if z0 <? 128 then
      let! s := utf8_decode r0 in Ok (z0 :: s)
    else if z0 <? 194 then Err UnicodeDecodeError
    else if z0 <? 224 then
      match r0 with
      | b1 :: r1 =>
          if is_cont b1 then
            let! s := utf8_decode r1 in
            Ok ((z0 - 192) * 64 + cont b1 :: s)
          else Err UnicodeDecodeError
      | _ => Err UnicodeDecodeError
      end
    else if z0 <? 240 then
      match r0 with
      | b1 :: b2 :: r2 =>
          let c := (z0 - 224) * 4096 + cont b1 * 64 + cont b2 in
          if is_cont b1 && is_cont b2 && (2048 <=? c)
             && negb ((55296 <=? c) && (c <=? 57343)) then
            let! s := utf8_decode r2 in Ok (c :: s)
          else Err UnicodeDecodeError
      | _ => Err UnicodeDecodeError
      end
    else if z0 <? 245 then
      match r0 with
      | b1 :: b2 :: b3 :: r3 =>
          let c := (z0 - 240) * 262144 + cont b1 * 4096 + cont b2 * 64 + cont b3 in
          if is_cont b1 && is_cont b2 && is_cont b3
             && (65536 <=? c) && (c <? 1114112) then
            let! s := utf8_decode r3 in Ok (c :: s)
          else Err UnicodeDecodeError
      | _ => Err UnicodeDecodeError
      end
    else Err UnicodeDecodeError.
Proof. reflexivity. Qed.

Lemma ltb_true (a b : Z) : a < b -> (a <? b) = true.
Proof. apply Z.ltb_lt. Qed.

Lemma ltb_false (a b : Z) : b <= a -> (a <? b) = false.
Proof. apply Z.ltb_ge. Qed.

Lemma leb_true (a b : Z) : a <= b -> (a <=? b) = true.
Proof. apply Z.leb_le. Qed.

Lemma leb_false (a b : Z) : b < a -> (a <=? b) = false.
Proof. apply Z.leb_gt. Qed.

Lemma is_cont_of_Z (r : Z) : 0 <= r < 64 -> is_cont (byte_of_Z (128 + r)) = true.
Proof.
  intros H. unfold is_cont. rewrite byte_to_of_Z by lia.
  rewrite !leb_true by lia. reflexivity.
Qed.

Lemma cont_of_Z (r : Z) : 0 <= r < 64 -> cont (byte_of_Z (128 + r)) = r.
Proof. intros H. unfold cont. rewrite byte_to_of_Z by lia. lia. Qed.

(** Splitting a code point into groups of six bits. *)
Lemma split_six (c : Z) :
  0 <= c ->
  c = 64 * (c / 64) + c mod 64 /\ 0 <= c mod 64 < 64 /\ 0 <= c / 64.
Proof.
  intros H. split; [apply Z.div_mod; lia|].
  split; [apply Z.mod_pos_bound; lia|apply Z.div_pos; lia].
Qed.

Lemma utf8_decode_encode_cp (c : Z) (bc rest : bytes) :
  utf8_encode_cp c = Ok bc ->
  utf8_decode (bc ++ rest) = (let! s := utf8_decode rest in Ok (c :: s)).
Proof.
  unfold utf8_encode_cp.
  destruct (c <? 0) eqn:E0; [discriminate|apply Z.ltb_ge in E0].
  destruct (split_six c E0) as (Hc & Hr0 & Hq0).
  destruct (split_six (c / 64) Hq0) as (Hc1 & Hr1 & Hq1).
  destruct (split_six (c / 64 / 64) Hq1) as (Hc2 & Hr2 & Hq2).
  replace (c / 4096) with (c / 64 / 64) by (rewrite Z.div_div by lia; reflexivity).
  replace (c / 262144) with (c / 64 / 64 / 64)
    by (rewrite !Z.div_div by lia; reflexivity).
  set (q1 := c / 64) in *. set (r0 := c mod 64) in *.
  set (q2 := q1 / 64) in *. set (r1 := q1 mod 64) in *.
  set (q3 := q2 / 64) in *. set (r2 := q2 mod 64) in *.
  destruct (c <? 128) eqn:E1; [apply Z.ltb_lt in E1|apply Z.ltb_ge in E1].
  { intros [= <-]. change ([byte_of_Z c] ++ rest) with (byte_of_Z c :: rest).
    rewrite utf8_decode_cons. cbv zeta. rewrite byte_to_of_Z by lia.
    rewrite ltb_true by lia. reflexivity. }
  destruct (c <? 2048) eqn:E2; [apply Z.ltb_lt in E2|apply Z.ltb_ge in E2].
  { intros [= <-]. cbn [app].
    rewrite utf8_decode_cons. cbv zeta. rewrite byte_to_of_Z by lia.
    rewrite !ltb_false by lia. rewrite ltb_true by lia.
    rewrite is_cont_of_Z, cont_of_Z by lia.
    replace ((192 + q1 - 192) * 64 + r0) with c by lia. reflexivity. }
  destruct (c <? 65536) eqn:E3; [apply Z.ltb_lt in E3|apply Z.ltb_ge in E3].
  { destruct ((55296 <=? c) && (c <=? 57343)) eqn:Es; [discriminate|].
    intros [= <-]. cbn [app].
    rewrite utf8_decode_cons. cbv zeta. rewrite byte_to_of_Z by lia.
    rewrite !ltb_false by lia. rewrite ltb_true by lia.
    rewrite !is_cont_of_Z, !cont_of_Z by lia.
    replace ((224 + q2 - 224) * 4096 + r1 * 64 + r0) with c by lia.
    rewrite Es. rewrite leb_true by lia. reflexivity. }
  destruct (c <? 1114112) eqn:E4; [apply Z.ltb_lt in E4|discriminate].
  intros [= <-]. cbn [app].
  rewrite utf8_decode_cons. cbv zeta. rewrite byte_to_of_Z by lia.
  rewrite !ltb_false by lia. rewrite ltb_true by lia.
  rewrite !is_cont_of_Z, !cont_of_Z by lia.
  replace ((240 + q3 - 240) * 262144 + r2 * 4096 + r1 * 64 + r0) with c by lia.
  rewrite leb_true by lia. rewrite (ltb_true c) by lia. reflexivity.
Qed.

Lemma utf8_decode_encode (s : pystr) (b : bytes) :
  utf8_encode s = Ok b -> utf8_decode b = Ok s.
Proof.
  revert b. induction s as [|c s IH]; intros b; simpl.
  - intros [= <-]. reflexivity.
  - destruct (utf8_encode_cp c) as [bc|] eqn:Ec; [|discriminate]. cbn [bind].
    destruct (utf8_encode s) as [bs|] eqn:Es; [|discriminate]. cbn [bind].
    intros [= <-]. rewrite (utf8_decode_encode_cp c bc bs Ec).
    rewrite (IH bs eq_refl). reflexivity.
Qed.

(** A code point is encodable when it is a Unicode scalar value. *)
Lemma utf8_encode_cp_Ok (c : Z) :
  (0 <= c < 55296 \/ 57343 < c < 1114112) <-> exists b, utf8_encode_cp c = Ok b.
Proof.
  unfold utf8_encode_cp. split.
  - intros H.
    destruct (c <? 0) eqn:E0; [apply Z.ltb_lt in E0; lia|].
    destruct (c <? 128); [eauto|]. destruct (c <? 2048); [eauto|].
    destruct (c <? 65536).
    + rewrite (proj2 (andb_false_iff _ _)); [eauto|].
      destruct H; [left; apply Z.leb_gt|right; apply Z.leb_gt]; lia.
    + destruct (c <? 1114112) eqn:E4; [eauto|apply Z.ltb_ge in E4; lia].
  - intros [b Hb].
    destruct (c <? 0) eqn:E0; [discriminate|apply Z.ltb_ge in E0].
    destruct (c <? 128) eqn:E1; [apply Z.ltb_lt in E1; lia|apply Z.ltb_ge in E1].
    destruct (c <? 2048) eqn:E2; [apply Z.ltb_lt in E2; lia|apply Z.ltb_ge in E2].
    destruct (c <? 65536) eqn:E3; [apply Z.ltb_lt in E3|apply Z.ltb_ge in E3].
    + destruct ((55296 <=? c) && (c <=? 57343)) eqn:Es; [discriminate|].
      apply andb_false_iff in Es as [Es|Es]; apply Z.leb_gt in Es; lia.
    + destruct (c <? 1114112) eqn:E4; [apply Z.ltb_lt in E4; lia|discriminate].
Qed.

(** ** Trailing zero bytes *)

Lemma rstrip_zeros_zeros (k : nat) : rstrip_zeros (repeat x00 k) = [].
Proof. induction k as [|k IH]; simpl; [reflexivity|]. rewrite IH. reflexivity. Qed.

Lemma rstrip_zeros_nil_inv (b : bytes) :
  rstrip_zeros b = [] -> b = repeat x00 (length b).
Proof.
  induction b as [|x b IH]; simpl; [reflexivity|].
  destruct (rstrip_zeros b) eqn:E; [|discriminate].
  destruct x; try discriminate. intros _. f_equal. apply IH. reflexivity.
Qed.

(** Padding with zero bytes is undone when the content does not itself end
    in a zero byte. *)
Lemma rstrip_zeros_padded (b : bytes) (k : nat) :
  last b <> Some x00 -> rstrip_zeros (b ++ repeat x00 k) = b.
Proof.
  induction b as [|x b IH]; intros Hlast.
  - simpl. apply rstrip_zeros_zeros.
  - simpl. destruct b as [|y b].
    + simpl. rewrite rstrip_zeros_zeros. simpl in Hlast.
      destruct x; try reflexivity. contradiction.
    + rewrite IH by exact Hlast. reflexivity.
Qed.

(** ** Single-precision floats *)

Lemma digits2_pos_bounds (m : positive) :
  2 ^ (Zpos (digits2_pos m) - 1) <= Zpos m < 2 ^ Zpos (digits2_pos m).
Proof.
  induction m as [m IH|m IH|]; simpl digits2_pos.
  - rewrite Pos2Z.inj_succ.
    replace (Z.succ (Zpos (digits2_pos m)) - 1) with (Z.succ (Zpos (digits2_pos m) - 1))
      by lia.
    rewrite !Z.pow_succ_r by lia. lia.
  - rewrite Pos2Z.inj_succ.
    replace (Z.succ (Zpos (digits2_pos m)) - 1) with (Z.succ (Zpos (digits2_pos m) - 1))
      by lia.
    rewrite !Z.pow_succ_r by lia. lia.
  - simpl. lia.
Qed.

(** The mantissa and exponent of a finite value that is canonical in
    single precision: a normal number has 24 mantissa bits, a subnormal
    one fewer and the least exponent. *)
Lemma bounded_single (m : positive) (e : Z) :
  bounded 24 128 m e = true ->
  fexp 24 128 (Zpos (digits2_pos m) + e) = e /\ e <= 104 /\
  ((8388608 <= Zpos m < 16777216 /\ -149 <= e) \/ (Zpos m < 8388608 /\ e = -149)).
Proof.
  unfold bounded, canonical_mantissa. intros H.
  apply andb_true_iff in H as [H1 H2].
  apply Z.eqb_eq in H1. apply Z.leb_le in H2.
  split; [exact H1|]. split; [simpl in H2; lia|].
  unfold fexp, emin in H1. pose proof (digits2_pos_bounds m) as Hd.
  set (d := Zpos (digits2_pos m)) in *.
  assert (Hdpos : 1 <= d) by (unfold d; lia).
  destruct (Z_le_gt_dec 24 d) as [Hge|Hlt].
  - assert (d = 24) by lia.
    left. replace d with 24 in Hd by lia. simpl in Hd. lia.
  - right. assert (He : e = -149) by lia. split; [|exact He].
    assert (2 ^ d <= 2 ^ 23) by (apply Z.pow_le_mono_r; lia).
    change (2 ^ 23) with 8388608 in *. lia.
Qed.

Lemma round_to_single_canonical (f : spec_float) :
  valid_binary 24 128 f = true -> round_to_single f = f.
Proof.
  destruct f as [s|s| |s m e]; try reflexivity. simpl valid_binary. intros Hb.
  destruct (bounded_single m e Hb) as (Hfexp & He & _).
  unfold round_to_single.
  assert (Hround : binary_round 24 128 s m e = S754_finite s m e).
  { unfold binary_round. rewrite Hfexp. unfold shl_align. rewrite Z.sub_diag.
    unfold binary_round_aux, shr_fexp. cbn [Zdigits2 shr_record_of_loc].
    rewrite Hfexp, Z.sub_diag. cbn [shr shr_m loc_of_shr_record round_nearest_even].
    cbn [Zdigits2 shr_record_of_loc]. rewrite Hfexp, Z.sub_diag.
    cbn [shr shr_m]. rewrite leb_true by (simpl; lia). reflexivity. }
  destruct s; simpl cond_Zopp; unfold binary_normalize; exact Hround.
Qed.

Lemma bits_of_single_range (f : spec_float) :
  valid_binary 24 128 f = true -> 0 <= bits_of_single f < 4294967296.
Proof.
  destruct f as [s|s| |s m e]; simpl; intros Hb;
    try (destruct s; simpl; lia); try lia.
  destruct (bounded_single m e Hb) as (_ & He & [[Hm Hlo]|[Hm Hlo]]).
  - rewrite ltb_false by lia. destruct s; simpl; lia.
  - rewrite ltb_true by lia. destruct s; simpl; lia.
Qed.

Lemma single_of_bits_of_single (f : spec_float) :
  valid_binary 24 128 f = true -> single_of_bits (bits_of_single f) = f.
Proof.
  destruct f as [s|s| |s m e]; simpl valid_binary; intros Hb.
  - destruct s; reflexivity.
  - destruct s; reflexivity.
  - reflexivity.
  - destruct (bounded_single m e Hb) as (_ & He & [[Hm Hlo]|[Hm Hlo]]).
    + unfold bits_of_single. rewrite ltb_false by lia.
      set (x := sign_bit s + (e + 150) * 8388608 + (Zpos m - 8388608)).
      assert (Hs : (2147483648 <=? x) = s).
      { unfold x. destruct s; simpl; [apply leb_true|apply leb_false]; lia. }
      assert (Hmant : x mod 8388608 = Zpos m - 8388608).
      { unfold x. symmetry.
        apply Z.mod_unique with (q := (if s then 256 else 0) + (e + 150));
          destruct s; simpl; lia. }
      assert (Hex : (x / 8388608) mod 256 = e + 150).
      { assert (Hq : x / 8388608 = (if s then 256 else 0) + (e + 150)).
        { unfold x. symmetry.
          apply Z.div_unique with (r := Zpos m - 8388608);
            destruct s; simpl; lia. }
        rewrite Hq. symmetry.
        apply Z.mod_unique with (q := if s then 1 else 0); destruct s; simpl; lia. }
      unfold single_of_bits. rewrite Hs, Hmant, Hex.
      rewrite (proj2 (Z.eqb_neq _ _)) by lia.
      rewrite (proj2 (Z.eqb_neq _ _)) by lia.
      replace (Zpos m - 8388608 + 8388608) with (Zpos m) by lia.
      f_equal. lia.
    + subst e. unfold bits_of_single. rewrite ltb_true by lia.
      set (x := sign_bit s + Zpos m).
      assert (Hs : (2147483648 <=? x) = s).
      { unfold x. destruct s; simpl; [apply leb_true|apply leb_false]; lia. }
      assert (Hmant : x mod 8388608 = Zpos m).
      { unfold x. symmetry.
        apply Z.mod_unique with (q := if s then 256 else 0); destruct s; simpl; lia. }
      assert (Hex : (x / 8388608) mod 256 = 0).
      { assert (Hq : x / 8388608 = if s then 256 else 0).
        { unfold x. symmetry.
          apply Z.div_unique with (r := Zpos m); destruct s; simpl; lia. }
        rewrite Hq. destruct s; reflexivity. }
      unfold single_of_bits. rewrite Hs, Hmant, Hex. reflexivity.
Qed.

Lemma byte_to_of_Z_mod (u : Z) : byte_to_Z (byte_of_Z u) = u mod 256.
Proof.
  unfold byte_of_Z, byte_to_Z.
  pose proof (Z.mod_pos_bound u 256 ltac:(lia)) as Hm.
  destruct (Byte.of_N (Z.to_N (u mod 256))) as [b|] eqn:E.
  - apply Byte.to_of_N in E. rewrite E. lia.
  - apply Byte.of_N_None_iff in E. lia.
Qed.

Lemma unpack_f32_bytes (u : Z) :
  0 <= u < 4294967296 -> unpack_f32 (bytes_of_be32 u) = Ok (single_of_bits u).
Proof.
  intros Hu. unfold unpack_f32, bytes_of_be32, be32. do 2 f_equal.
  rewrite !byte_to_of_Z_mod.
  pose proof (Z.div_mod u 256 ltac:(lia)).
  pose proof (Z.div_mod (u / 256) 256 ltac:(lia)).
  pose proof (Z.div_mod (u / 65536) 256 ltac:(lia)).
  pose proof (Z.mod_pos_bound u 256 ltac:(lia)).
  pose proof (Z.mod_pos_bound (u / 256) 256 ltac:(lia)).
  pose proof (Z.mod_pos_bound (u / 65536) 256 ltac:(lia)).
  assert (H16 : u / 16777216 = u / 65536 / 256)
    by (rewrite Z.div_div by lia; reflexivity).
  assert (H8 : u / 65536 = u / 256 / 256)
    by (rewrite Z.div_div by lia; reflexivity).
  assert (Htop : 0 <= u / 16777216 < 256).
  { split; [apply Z.div_pos; lia|apply Z.div_lt_upper_bound; lia]. }
  rewrite (Z.mod_small (u / 16777216)) by lia.
  lia.
Qed.

Lemma unpack_pack_float (f : spec_float) :
  single_representable f ->
  exists b, _pack_float f = Ok b /\ len b = 4 /\ _unpack_float b = Ok f.
Proof.
  intros [Hv Hnan]. exists (bytes_of_be32 (bits_of_single f)).
  unfold _pack_float, pack_f32, _unpack_float.
  rewrite (round_to_single_canonical f Hv).
  split; [destruct f; reflexivity|]. split; [reflexivity|].
  change (len (bytes_of_be32 (bits_of_single f)) =? 4) with true. cbv iota beta.
  simpl negb. cbv iota.
  rewrite unpack_f32_bytes by (apply bits_of_single_range, Hv).
  rewrite (single_of_bits_of_single f Hv). reflexivity.
Qed.

Lemma unpack_pack_int (v : Z) :
  - 2147483648 <= v <= 2147483647 ->
  exists b, _pack_int v = Ok b /\ len b = 4 /\ _unpack_int b = Ok v.
Proof.
  intros Hv. unfold _pack_int, _unpack_int.
  assert (Hp : exists b, pack_i32 v = Ok b /\ len b = 4).
  { unfold pack_i32. rewrite !leb_true by lia. eexists. split; reflexivity. }
  destruct Hp as (b & Hp & Hl). exists b. split; [exact Hp|]. split; [exact Hl|].
  rewrite Hl. simpl. apply unpack_pack_i32, Hp.
Qed.

(** ** Fixed-width and length-prefixed strings *)

Lemma py_prefix_take {A} (l : list A) (n : Z) :
  0 <= n -> py_prefix l n = take (Z.to_nat n) l.
Proof.
  intros Hn. unfold py_prefix, py_slice, slice_index. pose proof (len_nonneg l).
  rewrite (ltb_false n 0) by lia. change (0 <? 0) with false. cbv iota.
  rewrite (Z.min_l 0) by lia. simpl. rewrite drop_0, Z.sub_0_r.
  destruct (Z_le_gt_dec n (len l)) as [Hle|Hgt].
  - rewrite Z.min_l by lia. reflexivity.
  - rewrite Z.min_r by lia. unfold len in *. rewrite Nat2Z.id.
    rewrite !take_ge by lia. reflexivity.
Qed.

(** A slice with bounds [0 <= i <= j], whatever the length of the list. *)
Lemma py_slice_take_drop {A} (l : list A) (i j : Z) :
  0 <= i <= j -> py_slice l i j = take (Z.to_nat (j - i)) (drop (Z.to_nat i) l).
Proof.
  intros Hij. unfold py_slice, slice_index. pose proof (len_nonneg l) as Hl.
  rewrite (ltb_false i 0), (ltb_false j 0) by lia.
  destruct (Z_le_gt_dec j (len l)) as [Hle|Hgt].
  - rewrite !Z.min_l by lia. reflexivity.
  - rewrite (Z.min_r j) by lia.
    assert (Hd : drop (Z.to_nat (Z.min i (len l))) l = drop (Z.to_nat i) l).
    { destruct (Z_le_gt_dec i (len l)) as [Hi|Hi].
      - rewrite Z.min_l by lia. reflexivity.
      - rewrite Z.min_r by lia. unfold len in *. rewrite !drop_ge by lia. reflexivity. }
    rewrite Hd.
    rewrite !take_ge; [reflexivity| |]; rewrite length_drop; unfold len in *; lia.
Qed.

Lemma len_take {A} (l : list A) (n : Z) :
  0 <= n -> len (take (Z.to_nat n) l) = Z.min n (len l).
Proof. intros Hn. unfold len. rewrite length_take. lia. Qed.

Lemma len_zeros (k : Z) : len (zeros k) = Z.max 0 k.
Proof. unfold len, zeros. rewrite repeat_length. lia. Qed.

(** The bytes [_pack_char] keeps of the UTF-8 text: at most [n]. *)
Lemma truncate_to_width (b : bytes) (n : Z) :
  0 <= n -> (if len b >? n then py_prefix b n else b) = take (Z.to_nat n) b.
Proof.
  intros Hn. destruct (len b >? n) eqn:E.
  - apply py_prefix_take, Hn.
  - rewrite Z.gtb_ltb in E. apply Z.ltb_ge in E.
    symmetry. apply take_ge. unfold len in E. lia.
Qed.

Lemma rstrip_zeros_spec (b : bytes) :
  exists k, b = rstrip_zeros b ++ repeat x00 k /\ last (rstrip_zeros b) <> Some x00.
Proof.
  induction b as [|x b (k & Hb & Hlast)].
  - exists 0%nat. split; [reflexivity|discriminate].
  - simpl. destruct (rstrip_zeros b) as [|y r] eqn:E.
    + simpl in Hb.
      assert (Hx : {x = x00} + {x <> x00}).
      { destruct (Z.eq_dec (byte_to_Z x) 0) as [Hz|Hz].
        - left. apply byte_to_Z_inj. exact Hz.
        - right. intros ->. apply Hz. reflexivity. }
      destruct Hx as [->|Hx].
      * exists (S k). split; [simpl; congruence|discriminate].
      * exists k. replace (match x with x00 => [] | _ => [x] end) with [x]
          by (destruct x; try reflexivity; contradiction).
        split; [simpl; congruence|]. simpl. congruence.
    + exists k. split; [simpl; f_equal; exact Hb|]. exact Hlast.
Qed.

Lemma pack_char_eq (s : pystr) (n : Z) (b : bytes) :
  0 <= n -> utf8_encode s = Ok b ->
  _pack_char s n = Ok (take (Z.to_nat n) b ++ zeros (n - Z.min n (len b))).
Proof.
  intros Hn Hb. unfold _pack_char. rewrite Hb. cbn [bind].
  rewrite truncate_to_width by exact Hn. rewrite (len_take b n Hn). reflexivity.
Qed.

Lemma unpack_varchar_cons (b0 : byte) (rest : bytes) (m : Z) :
  _unpack_varchar (b0 :: rest) m = utf8_decode (take (Z.to_nat (byte_to_Z b0)) rest).
Proof.
  unfold _unpack_varchar. f_equal. pose proof (byte_to_Z_range b0) as Hr.
  rewrite py_slice_take_drop by lia.
  change (Z.to_nat 1) with 1%nat. cbn [drop]. f_equal. lia.
Qed.

(** Cutting to [n] bytes and then to 255 keeps min(len b, n, 255) bytes. *)
Lemma double_truncation (b : bytes) (n : Z) :
  0 <= n ->
  take (Z.to_nat (Z.min (len b) (Z.min n 255))) b = take 255 (take (Z.to_nat n) b).
Proof.
  intros Hn. rewrite take_take.
  destruct (Z_le_gt_dec (len b) (Z.min n 255)) as [Hle|Hgt].
  - rewrite Z.min_l by lia. unfold len in *. rewrite !take_ge by lia. reflexivity.
  - rewrite Z.min_r by lia. f_equal. lia.
Qed.

Lemma pack_varchar_eq (s : pystr) (n : Z) (b : bytes) :
  0 <= n -> utf8_encode s = Ok b ->
  _pack_varchar s n =
    Ok (byte_of_Z (Z.min (len b) (Z.min n 255))
        :: take (Z.to_nat (Z.min (len b) (Z.min n 255))) b
           ++ zeros (n - Z.min (len b) (Z.min n 255))).
Proof.
  intros Hn Hb. pose proof (len_nonneg b) as Hlb.
  set (L := Z.min (len b) (Z.min n 255)).
  assert (HL : 0 <= L <= 255) by (unfold L; lia).
  assert (Htake : len (take (Z.to_nat L) b) = L) by (rewrite len_take; unfold L; lia).
  unfold _pack_varchar. rewrite Hb. cbn [bind].
  rewrite truncate_to_width by exact Hn.
  assert (Hcut : (if len (take (Z.to_nat n) b) >=? 256
                  then py_prefix (take (Z.to_nat n) b) 255
                  else take (Z.to_nat n) b) = take (Z.to_nat L) b).
  { unfold L. rewrite double_truncation by exact Hn.
    destruct (len (take (Z.to_nat n) b) >=? 256) eqn:E.
    - apply py_prefix_take. lia.
    - rewrite Z.geb_leb in E. apply Z.leb_gt in E.
      symmetry. apply take_ge. unfold len in E. lia. }
  rewrite Hcut, Htake. unfold pack_u8.
  rewrite !leb_true by lia. reflexivity.
Qed.

(** ** Encoding and decoding records *)

Lemma py_slice_middle {A} (pre c post : list A) :
  py_slice (pre ++ c ++ post) (len pre) (len pre + len c) = c.
Proof.
  pose proof (len_nonneg pre). pose proof (len_nonneg c). pose proof (len_nonneg post).
  rewrite py_slice_seg by (rewrite ?len_app; lia).
  rewrite seg_app_r by lia.
  replace (len pre - len pre) with 0 by lia.
  replace (len pre + len c - len pre) with (len c) by lia.
  apply seg_app_whole.
Qed.

Section CodecProofs.
Context `{PyText}.

Lemma int_field (z : Z) :
  - 2147483648 <= z <= 2147483647 ->
  exists c, (let! v := py_int (VInt z) in _pack_int v) = Ok c /\
            len c = 4 /\ _unpack_int c = Ok z.
Proof. intros Hz. cbn [py_int bind]. apply unpack_pack_int, Hz. Qed.

Lemma float_field (f : spec_float) :
  single_representable f ->
  exists c, (let! v := py_float (VFloat f) in _pack_float v) = Ok c /\
            len c = 4 /\ _unpack_float c = Ok f.
Proof. intros Hf. cbn [py_float bind]. apply unpack_pack_float, Hf. Qed.

Lemma float_field_missing :
  exists c, (let! v := py_float (VInt 0) in _pack_float v) = Ok c /\
            len c = 4 /\ _unpack_float c = Ok (S754_zero false).
Proof.
  change (py_float (VInt 0)) with (Ok (A := spec_float) (S754_zero false)).
  cbn [bind]. apply unpack_pack_float. split; [reflexivity|discriminate].
Qed.

Lemma char_field (s : pystr) (b : bytes) (n : Z) :
  utf8_encode s = Ok b -> len b <= n -> last b <> Some x00 ->
  exists c, _pack_char s n = Ok c /\ len c = n /\ _unpack_char c = Ok s.
Proof.
  intros Hb Hn Hlast. pose proof (len_nonneg b) as Hlb.
  exists (b ++ zeros (n - len b)).
  rewrite (pack_char_eq s n b ltac:(lia) Hb).
  rewrite take_ge by (unfold len in *; lia). rewrite Z.min_r by lia.
  split; [reflexivity|]. split; [rewrite len_app, len_zeros; lia|].
  unfold _unpack_char, zeros. rewrite rstrip_zeros_padded by exact Hlast.
  apply utf8_decode_encode, Hb.
Qed.

Lemma varchar_field (s : pystr) (b : bytes) (n : Z) :
  utf8_encode s = Ok b -> len b <= n -> len b <= 255 ->
  exists c, _pack_varchar s n = Ok c /\ len c = 1 + n /\ _unpack_varchar c n = Ok s.
Proof.
  intros Hb Hn H255. pose proof (len_nonneg b) as Hlb.
  exists (byte_of_Z (len b) :: b ++ zeros (n - len b)).
  rewrite (pack_varchar_eq s n b ltac:(lia) Hb).
  rewrite !Z.min_l by lia.
  assert (Htake : take (Z.to_nat (len b)) b = b)
    by (apply take_ge; unfold len; lia).
  rewrite Htake. split; [reflexivity|]. split.
  - change (len (byte_of_Z (len b) :: b ++ zeros (n - len b)))
      with (Z.of_nat (S (length (b ++ zeros (n - len b))))).
    pose proof (len_app b (zeros (n - len b))) as Hl. rewrite len_zeros in Hl.
    unfold len in *. lia.
  - rewrite unpack_varchar_cons, byte_to_of_Z by lia.
    rewrite take_app_le by (unfold len; lia). rewrite Htake.
    apply utf8_decode_encode, Hb.
Qed.

Lemma utf8_encode_nil : utf8_encode [] = Ok [].
Proof. reflexivity. Qed.

(** One field: the bytes [encode_record] appends for it are read back by
    [decode_record] as the field's value. *)
Lemma encode_decode_loops (record_dict : gmap pystr value) (fields : list field_desc) :
  Forall (field_ok record_dict) fields ->
  exists chunks,
    (forall parts,
       encode_record_loop record_dict fields parts = Ok (parts ++ chunks)) /\
    (forall pre post res,
       decode_record_loop (pre ++ concat chunks ++ post) fields (len pre) res
       = Ok (decoded_fields record_dict fields res)).
Proof.
  induction 1 as [|f fields Hf _ (chunks & Henc & Hdec)].
  - exists []. split; [intros parts; simpl; rewrite app_nil_r; reflexivity|].
    intros pre post res. reflexivity.
  - destruct Hf as (base & param & Hparse & Hwidth & Hfit).
    assert (Hstep : forall (c : bytes) (v : value),
      field_value record_dict f = v ->
      (forall parts,
         encode_record_loop record_dict (f :: fields) parts
         = encode_record_loop record_dict fields (parts ++ [c])) ->
      (forall pre post res,
         decode_record_loop (pre ++ (c ++ concat chunks) ++ post) (f :: fields)
                            (len pre) res
         = decode_record_loop ((pre ++ c) ++ concat chunks ++ post) fields
                              (len (pre ++ c)) (<[f_name f := v]> res)) ->
      exists chunks',
        (forall parts,
           encode_record_loop record_dict (f :: fields) parts = Ok (parts ++ chunks')) /\
        (forall pre post res,
           decode_record_loop (pre ++ concat chunks' ++ post) (f :: fields) (len pre) res
           = Ok (decoded_fields record_dict (f :: fields) res))).
    { intros c v Hv He Hd. exists (c :: chunks). split.
      - intros parts. rewrite He, Henc, <- app_assoc. reflexivity.
      - intros pre post res. cbn [concat]. rewrite Hd, Hdec.
        unfold decoded_fields. cbn [foldl]. rewrite Hv. reflexivity. }
    assert (Hslice : forall (pre c post : bytes) (w : Z),
      len c = w ->
      py_slice (pre ++ (c ++ concat chunks) ++ post) (len pre) (len pre + w) = c).
    { intros pre c post w <-. rewrite <- app_assoc. apply py_slice_middle. }
    assert (Hassoc : forall (pre c post : bytes),
      pre ++ (c ++ concat chunks) ++ post = (pre ++ c) ++ concat chunks ++ post).
    { intros pre c post. rewrite <- !app_assoc. reflexivity. }
    unfold field_value in Hstep. rewrite Hparse in Hstep.
    destruct base.
    + (* char *)
      destruct Hwidth as (n & -> & Hn).
      assert (Hc : exists c s, default (VStr []) (record_dict !! f_name f) = VStr s /\
                 _pack_char s n = Ok c /\ len c = n /\ _unpack_char c = Ok s).
      { destruct (record_dict !! f_name f) as [v|] eqn:E; cbn [default].
        - specialize (Hfit v eq_refl). destruct v as [| |s]; try contradiction.
          destruct Hfit as (b & n' & [= <-] & Hb & Hlen & Hlast).
          destruct (char_field s b n Hb Hlen Hlast) as (c & Hc). eauto.
        - destruct (char_field [] [] n utf8_encode_nil ltac:(unfold len; simpl; lia)
                      ltac:(discriminate)) as (c & Hc). eauto. }
      destruct Hc as (c & s & Hval & Hpack & Hlen & Hunpack).
      apply (Hstep c (VStr s)); [exact Hval| |].
      * intros parts. cbn [encode_record_loop]. rewrite Hparse. cbn [bind default_value].
        rewrite Hval. cbn [py_str]. rewrite Hpack. reflexivity.
      * intros pre post res. cbn [decode_record_loop]. rewrite Hparse. cbn [bind].
        rewrite (Hslice pre c post n Hlen), Hunpack. cbn [bind].
        rewrite Hassoc, len_app, Hlen. reflexivity.
    + (* varchar *)
      destruct Hwidth as (n & -> & Hn).
      assert (Hc : exists c s, default (VStr []) (record_dict !! f_name f) = VStr s /\
                 _pack_varchar s n = Ok c /\ len c = 1 + n /\
                 _unpack_varchar c n = Ok s).
      { destruct (record_dict !! f_name f) as [v|] eqn:E; cbn [default].
        - specialize (Hfit v eq_refl). destruct v as [| |s]; try contradiction.
          destruct Hfit as (b & n' & [= <-] & Hb & Hlen & H255).
          destruct (varchar_field s b n Hb Hlen H255) as (c & Hc). eauto.
        - destruct (varchar_field [] [] n utf8_encode_nil
                      ltac:(unfold len; simpl; lia) ltac:(unfold len; simpl; lia))
            as (c & Hc). eauto. }
      destruct Hc as (c & s & Hval & Hpack & Hlen & Hunpack).
      apply (Hstep c (VStr s)); [exact Hval| |].
      * intros parts. cbn [encode_record_loop]. rewrite Hparse. cbn [bind default_value].
        rewrite Hval. cbn [py_str]. rewrite Hpack. reflexivity.
      * intros pre post res. cbn [decode_record_loop]. rewrite Hparse. cbn [bind].
        replace (len pre + 1 + n) with (len pre + (1 + n)) by lia.
        rewrite (Hslice pre c post (1 + n) Hlen), Hunpack. cbn [bind].
        rewrite Hassoc, len_app, Hlen. reflexivity.
    + (* int *)
      assert (Hc : exists c z, default (VInt 0) (record_dict !! f_name f) = VInt z /\
                 (let! v := py_int (VInt z) in _pack_int v) = Ok c /\ len c = 4 /\
                 _unpack_int c = Ok z).
      { destruct (record_dict !! f_name f) as [v|] eqn:E; cbn [default].
        - specialize (Hfit v eq_refl). destruct v as [z| |]; try contradiction.
          destruct (int_field z Hfit) as (c & Hc). eauto.
        - destruct (int_field 0 ltac:(lia)) as (c & Hc). eauto. }
      destruct Hc as (c & z & Hval & Hpack & Hlen & Hunpack).
      apply (Hstep c (VInt z)); [exact Hval| |].
      * intros parts. cbn [encode_record_loop]. rewrite Hparse. cbn [bind default_value].
        rewrite Hval, Hpack. reflexivity.
      * intros pre post res. cbn [decode_record_loop]. rewrite Hparse. cbn [bind].
        rewrite (Hslice pre c post 4 Hlen), Hunpack. cbn [bind].
        rewrite Hassoc, len_app, Hlen. reflexivity.
    + (* float *)
      assert (Hc : exists c x, default (VFloat (S754_zero false))
                                 (record_dict !! f_name f) = VFloat x /\
                 (let! v := py_float (default (VInt 0) (record_dict !! f_name f))
                  in _pack_float v) = Ok c /\ len c = 4 /\
                 _unpack_float c = Ok x).
      { destruct (record_dict !! f_name f) as [v|] eqn:E; cbn [default].
        - specialize (Hfit v eq_refl). destruct v as [|x|]; try contradiction.
          destruct (float_field x Hfit) as (c & Hc). eauto.
        - destruct float_field_missing as (c & Hc). eauto. }
      destruct Hc as (c & x & Hval & Hpack & Hlen & Hunpack).
      apply (Hstep c (VFloat x)); [exact Hval| |].
      * intros parts. cbn [encode_record_loop]. rewrite Hparse. cbn [bind default_value].
        rewrite Hpack. reflexivity.
      * intros pre post res. cbn [decode_record_loop]. rewrite Hparse. cbn [bind].
        rewrite (Hslice pre c post 4 Hlen), Hunpack. cbn [bind].
        rewrite Hassoc, len_app, Hlen. reflexivity.
Qed.

(** The map [decode_record] builds, key by key. *)
Lemma decoded_fields_lookup (record_dict : gmap pystr value)
    (fields : list field_desc) (k : pystr) :
  Forall (field_ok record_dict) fields ->
  decoded_fields record_dict fields ∅ !! k =
    match defaults_of fields !! k with
    | Some d => Some (default d (record_dict !! k))
    | None => None
    end.
Proof.
  induction fields as [|f fields IH] using rev_ind; intros Hall.
  - reflexivity.
  - apply Forall_app in Hall as [Hall Hf]. inversion Hf as [|? ? Hf' _]; subst.
    destruct Hf' as (base & param & Hparse & _).
    unfold decoded_fields, defaults_of in *. rewrite !foldl_app. cbn [foldl].
    rewrite Hparse. unfold field_value. rewrite Hparse.
    destruct (decide (f_name f = k)) as [->|Hne].
    + rewrite !lookup_insert_eq. reflexivity.
    + rewrite !lookup_insert_ne by exact Hne. apply IH, Hall.
Qed.

Lemma defaults_of_names (record_dict : gmap pystr value)
    (fields : list field_desc) (k : pystr) :
  Forall (field_ok record_dict) fields ->
  k ∈ f_name <$> fields -> is_Some (defaults_of fields !! k).
Proof.
  induction fields as [|f fields IH] using rev_ind; intros Hall Hk.
  - inversion Hk.
  - apply Forall_app in Hall as [Hall Hf]. inversion Hf as [|? ? Hf' _]; subst.
    destruct Hf' as (base & param & Hparse & _).
    unfold defaults_of in *. rewrite foldl_app. cbn [foldl]. rewrite Hparse.
    destruct (decide (f_name f = k)) as [->|Hne].
    + rewrite lookup_insert_eq. eauto.
    + rewrite lookup_insert_ne by exact Hne. apply IH; [exact Hall|].
      rewrite fmap_app in Hk. apply elem_of_app in Hk as [Hk|Hk]; [exact Hk|].
      apply list_elem_of_singleton in Hk. congruence.
Qed.

Lemma decoded_fields_union (record_dict : gmap pystr value)
    (fields : list field_desc) :
  Forall (field_ok record_dict) fields ->
  (forall name, is_Some (record_dict !! name) -> name ∈ f_name <$> fields) ->
  decoded_fields record_dict fields ∅ = record_dict ∪ defaults_of fields.
Proof.
  intros Hall Hdom. apply map_eq. intros k.
  rewrite (decoded_fields_lookup _ _ _ Hall), lookup_union.
  destruct (defaults_of fields !! k) as [d|] eqn:Ed.
  - destruct (record_dict !! k); reflexivity.
  - destruct (record_dict !! k) as [v|] eqn:Er; [|reflexivity].
    exfalso. destruct (defaults_of_names record_dict fields k Hall) as [d Hd].
    + apply Hdom. rewrite Er. eauto.
    + congruence.
Qed.

End CodecProofs.

(** ** C5, C4, C9: one page *)

Lemma insert_record_into_page_Ok_inv (page record page' : bytes) (slot : Z) :
  insert_record_into_page page record = Ok (page', slot) ->
  exists sc fo,
    _read_footer page = Ok (sc, fo) /\
    len record + 4 <= 4092 - 4 * sc - fo /\
    page' = insert_image page record sc fo /\ slot = sc.
Proof.
  intros H. destruct (Z.eq_dec (len page) PAGE_SIZE) as [Hl|Hl].
  - destruct (read_footer_total page Hl) as (sc & fo & Hf).
    exists sc, fo. split; [exact Hf|].
    destruct (Z_lt_le_dec (4092 - 4 * sc - fo) (len record + 4)) as [Hlt|Hge].
    + rewrite (insert_record_into_page_full _ _ _ _ Hf Hlt) in H. discriminate.
    + rewrite (insert_record_into_page_fits _ _ _ _ Hf Hge) in H.
      injection H as <- <-. auto.
  - rewrite (insert_record_into_page_badlen _ _ Hl) in H. discriminate.
Qed.

Lemma reachable_invariant (page : bytes) :
  reachable page ->
  exists sc fo, _read_footer page = Ok (sc, fo) /\ 4092 - 4 * sc >= fo.
Proof.
  induction 1 as [|page record page' slot Hreach IH Hins].
  - exists 0, 0. split; [apply read_footer_initialize_empty_page|lia].
  - destruct (insert_record_into_page_Ok_inv _ _ _ _ Hins)
      as (sc & fo & Hf & Hfit & -> & ->).
    destruct (read_footer_inv _ _ _ Hf) as (Hl & _ & _ & Hsc & Hfo).
    exists (sc + 1), (fo + len record). split; [|lia].
    apply read_footer_insert_image; assumption || lia.
Qed.

(** C5. For every page reachable from [initialize_empty_page] by successful
    [insert_record_into_page] operations, slot_table_start
    = 4092 - 4*slot_count >= free_offset, so the free space is
    slot_table_start - free_offset >= 0; and each successful insert of a
    record of length L into the page yields an image whose free space is
    smaller by exactly L + 4. *)
Theorem free_space_invariant (page : bytes) :
  reachable page ->
  exists slot_count free_offset,
    _read_footer page = Ok (slot_count, free_offset) /\
    4092 - 4 * slot_count >= free_offset /\
    free_space_in_page page = Ok (4092 - 4 * slot_count - free_offset) /\
    0 <= 4092 - 4 * slot_count - free_offset /\
    forall record page' slot,
      insert_record_into_page page record = Ok (page', slot) ->
      free_space_in_page page'
      = Ok (4092 - 4 * slot_count - free_offset - (len record + 4)).
Proof.
  intros Hreach. destruct (reachable_invariant page Hreach) as (sc & fo & Hf & Hinv).
  exists sc, fo. split; [exact Hf|]. split; [exact Hinv|].
  split; [apply free_space_footer, Hf|]. split; [lia|].
  intros record page' slot Hins.
  destruct (insert_record_into_page_Ok_inv _ _ _ _ Hins)
    as (sc' & fo' & Hf' & Hfit & -> & ->).
  rewrite Hf in Hf'. injection Hf' as <- <-.
  destruct (read_footer_inv _ _ _ Hf) as (Hl & _ & _ & Hsc & Hfo).
  rewrite (free_space_footer _ (sc + 1) (fo + len record)).
  - f_equal. lia.
  - apply read_footer_insert_image; assumption || lia.
Qed.

Lemma free_space_invariant_witness :
  exists slot_count free_offset,
    _read_footer initialize_empty_page = Ok (slot_count, free_offset) /\
    4092 - 4 * slot_count >= free_offset /\
    free_space_in_page initialize_empty_page
    = Ok (4092 - 4 * slot_count - free_offset) /\
    0 <= 4092 - 4 * slot_count - free_offset /\
    forall record page' slot,
      insert_record_into_page initialize_empty_page record = Ok (page', slot) ->
      free_space_in_page page'
      = Ok (4092 - 4 * slot_count - free_offset - (len record + 4)).
Proof. apply (free_space_invariant initialize_empty_page). apply reachable_empty. Defined.

(** The decrease by [L + 4] holds for every page on which the insert
    succeeds, reachable or not. *)
Lemma free_space_decreases (page record page' : bytes) (slot f : Z) :
  insert_record_into_page page record = Ok (page', slot) ->
  free_space_in_page page = Ok f ->
  free_space_in_page page' = Ok (f - (len record + 4)).
Proof.
  intros Hins Hfree.
  destruct (insert_record_into_page_Ok_inv _ _ _ _ Hins)
    as (sc & fo & Hf & Hfit & -> & ->).
  rewrite (free_space_footer _ _ _ Hf) in Hfree. injection Hfree as <-.
  destruct (read_footer_inv _ _ _ Hf) as (Hl & _ & _ & Hsc & Hfo).
  rewrite (free_space_footer _ (sc + 1) (fo + len record)).
  - f_equal. lia.
  - apply read_footer_insert_image; assumption || lia.
Qed.

(** *** The object store: the input page is never mutated *)

Lemma mem_slice_assign_last (s : Mem.store) (b : bytes) (i j : Z) (data : bytes) :
  Mem.slice_assign (length s) i j data (s ++ [b])
  = s ++ [py_slice_assign b i j data].
Proof.
  unfold Mem.slice_assign.
  rewrite <- (Nat.add_0_r (length s)) at 1. rewrite alter_app_r. reflexivity.
Qed.

Lemma mem_write_slot_last (s : Mem.store) (b b' : bytes) (i off l : Z) :
  _write_slot b i off l = Ok b' ->
  Mem._write_slot (length s) i off l (s ++ [b]) = (s ++ [b'], Ok tt).
Proof.
  unfold _write_slot, Mem._write_slot.
  destruct (pack_u16 off) as [b1|e]; [|discriminate]. cbn [bind].
  destruct (pack_u16 l) as [b2|e]; [|discriminate]. cbn [bind].
  intros [= <-]. rewrite !mem_slice_assign_last. reflexivity.
Qed.

Lemma mem_write_footer_last (s : Mem.store) (b b' : bytes) (sc fo : Z) :
  _write_footer b sc fo = Ok b' ->
  Mem._write_footer (length s) sc fo (s ++ [b]) = (s ++ [b'], Ok tt).
Proof.
  unfold _write_footer, Mem._write_footer.
  destruct (pack_u16 sc) as [b1|e]; [|discriminate]. cbn [bind].
  destruct (pack_u16 fo) as [b2|e]; [|discriminate]. cbn [bind].
  intros [= <-]. rewrite !mem_slice_assign_last. reflexivity.
Qed.

(** The store-passing function computes what the function on values
    computes. When it raises, the store is the one it was given; when it
    returns, the only change is two new objects: the private bytearray and
    the [bytes] copy that is returned. *)
Lemma mem_insert_record_into_page (s : Mem.store) (a : nat) (page record : bytes) :
  s !! a = Some page ->
  Mem.insert_record_into_page a record s =
    match insert_record_into_page page record with
    | Err e => (s, Err e)
    | Ok (page', slot) => (s ++ [page'; page'], Ok (S (length s), slot))
    end.
Proof.
  intros Hs. unfold Mem.insert_record_into_page. rewrite Hs.
  destruct (Z.eq_dec (len page) PAGE_SIZE) as [Hl|Hl].
  2:{ rewrite (insert_record_into_page_badlen _ _ Hl).
      rewrite (read_footer_badlen _ Hl). reflexivity. }
  destruct (read_footer_total page Hl) as (sc & fo & Hf).
  rewrite Hf, (free_space_footer _ _ _ Hf). unfold SLOT_ENTRY_SIZE.
  destruct (Z_lt_le_dec (4092 - 4 * sc - fo) (len record + 4)) as [Hlt|Hge].
  - rewrite (insert_record_into_page_full _ _ _ _ Hf Hlt).
    destruct (4092 - 4 * sc - fo <? len record + 4) eqn:E; [reflexivity|].
    apply Z.ltb_ge in E. lia.
  - pose proof (insert_record_into_page_fits _ _ _ _ Hf Hge) as Hpure.
    rewrite Hpure.
    destruct (4092 - 4 * sc - fo <? len record + 4) eqn:E;
      [apply Z.ltb_lt in E; lia|clear E].
    unfold insert_record_into_page in Hpure.
    rewrite Hf in Hpure. cbn [bind] in Hpure.
    rewrite (free_space_footer _ _ _ Hf) in Hpure. cbn [bind] in Hpure.
    unfold SLOT_ENTRY_SIZE in Hpure.
    destruct (4092 - 4 * sc - fo <? len record + 4) eqn:E;
      [apply Z.ltb_lt in E; lia|clear E].
    destruct (_write_slot _ sc fo (len record)) as [b1|e] eqn:E1;
      [|discriminate]. cbn [bind] in Hpure.
    destruct (_write_footer b1 (sc + 1) (fo + len record)) as [b2|e] eqn:E2;
      [|discriminate]. cbn [bind] in Hpure.
    injection Hpure as Hb2. unfold Mem.alloc.
    rewrite mem_slice_assign_last.
    rewrite (mem_write_slot_last _ _ _ _ _ _ E1).
    rewrite (mem_write_footer_last _ _ _ _ _ E2).
    rewrite list_lookup_middle by reflexivity.
    rewrite <- Hb2, <- app_assoc, length_app. simpl.
    rewrite Nat.add_1_r. reflexivity.
Qed.

(** What the image of a successful insert holds, read with the page
    functions of the source: the footer counts one more slot and the free
    offset has advanced by the record's length, the new slot entry points
    at the record, the record's bytes are in the page and are read back
    through the new slot, the old slot entries read as before, and every
    other byte below the footer is the byte of the old page. *)
Lemma insert_image_contents (page record : bytes) (sc fo : Z) :
  _read_footer page = Ok (sc, fo) ->
  len record + 4 <= 4092 - 4 * sc - fo ->
  let page' := insert_image page record sc fo in
  len page' = PAGE_SIZE /\
  _read_footer page' = Ok (sc + 1, fo + len record) /\
  _read_slot page' sc (sc + 1) = Ok (fo, len record) /\
  py_slice page' fo (fo + len record) = record /\
  get_record_from_page page' sc = Ok record /\
  (forall i, 0 <= i < sc -> _read_slot page' i (sc + 1) = _read_slot page i sc) /\
  (forall c n, 0 <= c -> 0 <= n -> c + n <= PAGE_SIZE - FOOTER_SIZE ->
     c + n <= fo \/ fo + len record <= c ->
     c + n <= _slot_pos sc \/ _slot_pos sc + SLOT_ENTRY_SIZE <= c ->
     py_slice page' c (c + n) = py_slice page c (c + n)).
Proof.
  intros Hf Hfit page'.
  destruct (read_footer_inv _ _ _ Hf) as (Hl & _ & _ & Hsc & Hfo).
  unfold PAGE_SIZE in Hl. pose proof (len_nonneg record) as Hr.
  assert (Hl' : len page' = 4096) by (apply len_insert_image; lia).
  split; [exact Hl'|].
  split; [apply read_footer_insert_image; lia|].
  split; [apply read_slot_insert_image_new; assumption|].
  split.
  { rewrite py_slice_seg by lia.
    replace (fo + len record - fo) with (len record) by lia.
    apply insert_image_seg_record; lia. }
  split; [apply get_record_insert_image_new; assumption|].
  split; [intros i Hi; apply read_slot_insert_image_old; assumption|].
  intros c n Hc Hn Hend Hrec Hslot.
  unfold PAGE_SIZE, FOOTER_SIZE in Hend. unfold SLOT_ENTRY_SIZE in Hslot.
  rewrite !py_slice_seg by lia.
  replace (c + n - c) with n by lia.
  apply insert_image_seg_frame; lia.
Qed.

(** C4. For every page of PAGE_SIZE bytes and every record,
    [insert_record_into_page] fails (with the ValueError that stands for
    CapacityError, and with nothing else) if and only if
    free_space(page) < len(record) + 4. On success it returns the slot
    index equal to the old slot_count together with the new page image: a
    page of PAGE_SIZE bytes whose footer counts one more slot and whose
    free offset has advanced by the record's length, whose new slot entry
    is (old free_offset, len(record)), which holds the record's bytes at
    the old free offset and reads them back through the new slot, whose
    old slot entries read as before, and whose other bytes below the
    footer are those of the input page. In the object store the input
    page is never mutated: a failed call leaves the whole store as it was,
    a successful call only adds new objects, and the returned object is a
    new one that holds that image. *)
Theorem insert_record_into_page_capacity (page record : bytes) :
  len page = PAGE_SIZE ->
  exists slot_count free_offset f,
    _read_footer page = Ok (slot_count, free_offset) /\
    free_space_in_page page = Ok f /\
    (insert_record_into_page page record = Err ValueError <-> f < len record + 4) /\
    (forall e, insert_record_into_page page record = Err e -> e = ValueError) /\
    (len record + 4 <= f ->
     exists page',
       insert_record_into_page page record = Ok (page', slot_count) /\
       len page' = PAGE_SIZE /\
       _read_footer page' = Ok (slot_count + 1, free_offset + len record) /\
       _read_slot page' slot_count (slot_count + 1) = Ok (free_offset, len record) /\
       py_slice page' free_offset (free_offset + len record) = record /\
       get_record_from_page page' slot_count = Ok record /\
       (forall i, 0 <= i < slot_count ->
          _read_slot page' i (slot_count + 1) = _read_slot page i slot_count) /\
       (forall c n, 0 <= c -> 0 <= n -> c + n <= PAGE_SIZE - FOOTER_SIZE ->
          c + n <= free_offset \/ free_offset + len record <= c ->
          c + n <= _slot_pos slot_count \/
            _slot_pos slot_count + SLOT_ENTRY_SIZE <= c ->
          py_slice page' c (c + n) = py_slice page c (c + n))) /\
    forall (s : Mem.store) (a : nat),
      s !! a = Some page ->
      exists s' r,
        Mem.insert_record_into_page a record s = (s', r) /\
        s' !! a = Some page /\
        (forall b, (b < length s)%nat -> s' !! b = s !! b) /\
        match r with
        | Err e => insert_record_into_page page record = Err e /\ s' = s
        | Ok (out, slot) =>
            exists page', insert_record_into_page page record = Ok (page', slot) /\
                          s' !! out = Some page' /\ out <> a /\
                          (length s <= out)%nat /\
                          slot = slot_count /\
                          get_record_from_page page' slot = Ok record
        end.
Proof.
  intros Hl. destruct (read_footer_total page Hl) as (sc & fo & Hf).
  exists sc, fo, (4092 - 4 * sc - fo).
  split; [exact Hf|]. split; [apply free_space_footer, Hf|].
  destruct (read_footer_inv _ _ _ Hf) as (_ & _ & _ & Hsc & Hfo).
  destruct (Z_lt_le_dec (4092 - 4 * sc - fo) (len record + 4)) as [Hlt|Hge].
  - pose proof (insert_record_into_page_full _ _ _ _ Hf Hlt) as Hins.
    split; [split; auto|]. split; [intros e He; congruence|].
    split; [intros; lia|].
    intros s a Hs. exists s, (Err ValueError).
    rewrite (mem_insert_record_into_page s a page record Hs), Hins. auto.
  - pose proof (insert_record_into_page_fits _ _ _ _ Hf Hge) as Hins.
    pose proof (insert_image_contents page record sc fo Hf Hge) as Himg.
    cbv zeta in Himg.
    split; [split; [intros He; congruence|intros; lia]|].
    split; [intros e He; congruence|].
    split.
    { intros _. exists (insert_image page record sc fo).
      split; [exact Hins|exact Himg]. }
    intros s a Hs.
    exists (s ++ [insert_image page record sc fo; insert_image page record sc fo]),
      (Ok (S (length s), sc)).
    rewrite (mem_insert_record_into_page s a page record Hs), Hins.
    assert (Ha : (a < length s)%nat) by (eapply lookup_lt_Some; eassumption).
    split; [reflexivity|]. split; [rewrite lookup_app_l by lia; exact Hs|].
    split; [intros b Hb; apply lookup_app_l; lia|].
    exists (insert_image page record sc fo). split; [reflexivity|].
    split.
    { rewrite lookup_app_r by lia.
      replace (S (length s) - length s)%nat with 1%nat by lia. reflexivity. }
    split; [lia|]. split; [lia|]. split; [reflexivity|].
    apply Himg.
Qed.

Lemma insert_record_into_page_capacity_witness :
  len (insert_image initialize_empty_page [x41; x42] 0 0) = PAGE_SIZE /\
  exists slot_count free_offset f,
    _read_footer (insert_image initialize_empty_page [x41; x42] 0 0)
    = Ok (slot_count, free_offset) /\
    free_space_in_page (insert_image initialize_empty_page [x41; x42] 0 0) = Ok f /\
    (insert_record_into_page (insert_image initialize_empty_page [x41; x42] 0 0) [x43]
     = Err ValueError <-> f < len [x43] + 4) /\
    (forall e,
       insert_record_into_page (insert_image initialize_empty_page [x41; x42] 0 0) [x43]
       = Err e -> e = ValueError) /\
    (len [x43] + 4 <= f ->
     exists page',
       insert_record_into_page (insert_image initialize_empty_page [x41; x42] 0 0) [x43]
       = Ok (page', slot_count) /\
       len page' = PAGE_SIZE /\
       _read_footer page' = Ok (slot_count + 1, free_offset + len [x43]) /\
       _read_slot page' slot_count (slot_count + 1) = Ok (free_offset, len [x43]) /\
       py_slice page' free_offset (free_offset + len [x43]) = [x43] /\
       get_record_from_page page' slot_count = Ok [x43] /\
       (forall i, 0 <= i < slot_count ->
          _read_slot page' i (slot_count + 1)
          = _read_slot (insert_image initialize_empty_page [x41; x42] 0 0) i slot_count) /\
       (forall c n, 0 <= c -> 0 <= n -> c + n <= PAGE_SIZE - FOOTER_SIZE ->
          c + n <= free_offset \/ free_offset + len [x43] <= c ->
          c + n <= _slot_pos slot_count \/
            _slot_pos slot_count + SLOT_ENTRY_SIZE <= c ->
          py_slice page' c (c + n)
          = py_slice (insert_image initialize_empty_page [x41; x42] 0 0) c (c + n))) /\
    forall (s : Mem.store) (a : nat),
      s !! a = Some (insert_image initialize_empty_page [x41; x42] 0 0) ->
      exists s' r,
        Mem.insert_record_into_page a [x43] s = (s', r) /\
        s' !! a = Some (insert_image initialize_empty_page [x41; x42] 0 0) /\
        (forall b, (b < length s)%nat -> s' !! b = s !! b) /\
        match r with
        | Err e =>
            insert_record_into_page
              (insert_image initialize_empty_page [x41; x42] 0 0) [x43] = Err e /\
            s' = s
        | Ok (out, slot) =>
            exists page',
              insert_record_into_page
                (insert_image initialize_empty_page [x41; x42] 0 0) [x43]
              = Ok (page', slot) /\
              s' !! out = Some page' /\ out <> a /\
              (length s <= out)%nat /\
              slot = slot_count /\
              get_record_from_page page' slot = Ok [x43]
        end.
Proof.
  split; [vm_compute; reflexivity|].
  apply (insert_record_into_page_capacity
           (insert_image initialize_empty_page [x41; x42] 0 0) [x43]).
  vm_compute. reflexivity.
Defined.

(** *** C9: what an insert leaves in place *)

Lemma reachable_page_repr (page : bytes) :
  reachable page -> exists recs, page_repr recs page.
Proof.
  induction 1 as [|page record page' slot Hreach [recs Hrepr] Hins].
  - exists []. apply page_repr_empty.
  - exists (recs ++ [record]).
    rewrite (page_repr_insert_record recs page record Hrepr) in Hins.
    destruct (decide (fits recs record)) as [Hfit|]; [|discriminate].
    injection Hins as <- <-. apply page_repr_insert; assumption.
Qed.

(** In a page built by inserts every slot lies in the record region. *)
Lemma reachable_slots_in_region (page : bytes) (sc fo i off l : Z) :
  reachable page -> _read_footer page = Ok (sc, fo) ->
  _read_slot page i sc = Ok (off, l) -> off + l <= fo.
Proof.
  intros Hreach Hf Hs. destruct (reachable_page_repr page Hreach) as [recs Hrepr].
  destruct Hrepr as (Hf' & _ & Hslots). rewrite Hf in Hf'. injection Hf' as -> ->.
  destruct (read_slot_range _ _ _ _ _ Hs) as (Hi & _).
  destruct (lookup_lt_is_Some_2 recs (Z.to_nat i)) as [r Hr];
    [unfold len in Hi; lia|].
  destruct (Hslots _ _ Hr) as [Hs' _]. rewrite Z2Nat.id in Hs' by lia.
  rewrite Hs in Hs'. injection Hs' as -> ->.
  apply total_take_le, Hr.
Qed.

(** C9 as amended. For every page and record for which
    [insert_record_into_page] succeeds, the slot entries below the old
    slot_count are byte-identical in the returned image, the bytes in
    [0, old free_offset) are unchanged, and every slot below the old
    slot_count whose record lies inside [0, old free_offset) reads the same
    record in the new image as in the old page. Every slot of a page built
    from [initialize_empty_page] by inserts lies inside that region. *)
Theorem insert_preserves_stored_data (page record page' : bytes) (slot : Z) :
  insert_record_into_page page record = Ok (page', slot) ->
  exists slot_count free_offset,
    _read_footer page = Ok (slot_count, free_offset) /\
    (forall i, 0 <= i < slot_count ->
       py_slice page' (_slot_pos i) (_slot_pos i + 4)
       = py_slice page (_slot_pos i) (_slot_pos i + 4)) /\
    py_slice page' 0 free_offset = py_slice page 0 free_offset /\
    (forall i off l,
       _read_slot page i slot_count = Ok (off, l) -> off + l <= free_offset ->
       get_record_from_page page' i = get_record_from_page page i) /\
    (reachable page ->
     forall i, 0 <= i < slot_count ->
       get_record_from_page page' i = get_record_from_page page i).
Proof.
  intros Hins.
  destruct (insert_record_into_page_Ok_inv _ _ _ _ Hins)
    as (sc & fo & Hf & Hfit & -> & ->).
  destruct (read_footer_inv _ _ _ Hf) as (Hl & _ & _ & Hsc & Hfo).
  unfold PAGE_SIZE in Hl. pose proof (len_nonneg record) as Hr.
  assert (Hl' : len (insert_image page record sc fo) = 4096)
    by (apply len_insert_image; lia).
  exists sc, fo. split; [exact Hf|]. split; [|split; [|split]].
  - intros i Hi. pose proof (slot_pos_eq i).
    rewrite !py_slice_seg by lia.
    replace (_slot_pos i + 4 - _slot_pos i) with 4 by lia.
    pose proof (insert_image_slot_entry page record sc fo Hf Hfit i 4 0) as Hz.
    rewrite Z.add_0_r in Hz. apply Hz; lia.
  - rewrite !py_slice_seg by lia.
    apply (insert_image_record_region page record sc fo Hf Hfit); lia.
  - intros i off l Hs Hin.
    apply (get_record_insert_image_old page record sc fo Hf Hfit i off l Hs Hin).
  - intros Hreach i Hi.
    assert (Hi' : i <= 1022) by lia.
    pose proof (read_slot_seg page i sc Hl Hi Hi') as Hslot.
    destruct (unpack_u16_length2 (seg page (_slot_pos i) 2)) as [off Hoff].
    { pose proof (slot_pos_eq i). apply Nat2Z.inj.
      apply (len_seg page (_slot_pos i) 2); lia. }
    destruct (unpack_u16_length2 (seg page (_slot_pos i + 2) 2)) as [l Hlen].
    { pose proof (slot_pos_eq i). apply Nat2Z.inj.
      apply (len_seg page (_slot_pos i + 2) 2); lia. }
    rewrite Hoff, Hlen in Hslot. cbn [bind] in Hslot.
    apply (get_record_insert_image_old page record sc fo Hf Hfit i off l Hslot).
    eapply reachable_slots_in_region; eassumption.
Qed.

(** The theorem at a page that holds data: the page built by inserting
    the record [AB] into an empty page has one slot and free offset 2;
    inserting [C] into it leaves slot 0 and the bytes [AB] in place. *)
Lemma insert_preserves_stored_data_witness :
  insert_record_into_page initialize_empty_page [x41; x42]
  = Ok (insert_image initialize_empty_page [x41; x42] 0 0, 0) /\
  _read_footer (insert_image initialize_empty_page [x41; x42] 0 0) = Ok (1, 2) /\
  get_record_from_page (insert_image initialize_empty_page [x41; x42] 0 0) 0
  = Ok [x41; x42] /\
  insert_record_into_page (insert_image initialize_empty_page [x41; x42] 0 0) [x43]
  = Ok (insert_image (insert_image initialize_empty_page [x41; x42] 0 0) [x43] 1 2, 1) /\
  exists slot_count free_offset,
    _read_footer (insert_image initialize_empty_page [x41; x42] 0 0)
    = Ok (slot_count, free_offset) /\
    (forall i, 0 <= i < slot_count ->
       py_slice (insert_image (insert_image initialize_empty_page [x41; x42] 0 0)
                              [x43] 1 2)
                (_slot_pos i) (_slot_pos i + 4)
       = py_slice (insert_image initialize_empty_page [x41; x42] 0 0)
                  (_slot_pos i) (_slot_pos i + 4)) /\
    py_slice (insert_image (insert_image initialize_empty_page [x41; x42] 0 0)
                           [x43] 1 2) 0 free_offset
    = py_slice (insert_image initialize_empty_page [x41; x42] 0 0) 0 free_offset /\
    (forall i off l,
       _read_slot (insert_image initialize_empty_page [x41; x42] 0 0) i slot_count
       = Ok (off, l) ->
       off + l <= free_offset ->
       get_record_from_page
         (insert_image (insert_image initialize_empty_page [x41; x42] 0 0) [x43] 1 2) i
       = get_record_from_page (insert_image initialize_empty_page [x41; x42] 0 0) i) /\
    (reachable (insert_image initialize_empty_page [x41; x42] 0 0) ->
     forall i, 0 <= i < slot_count ->
       get_record_from_page
         (insert_image (insert_image initialize_empty_page [x41; x42] 0 0) [x43] 1 2) i
       = get_record_from_page (insert_image initialize_empty_page [x41; x42] 0 0) i).
Proof.
  split; [vm_compute; reflexivity|].
  split; [vm_compute; reflexivity|].
  split; [vm_compute; reflexivity|].
  split; [vm_compute; reflexivity|].
  apply (insert_preserves_stored_data
           (insert_image initialize_empty_page [x41; x42] 0 0) [x43]
           (insert_image (insert_image initialize_empty_page [x41; x42] 0 0) [x43] 1 2)
           1).
  vm_compute. reflexivity.
Defined.

(** C9 as stated fails: on [stray_slot_page] the insert succeeds and
    overwrites the bytes slot 0 points to. *)
Lemma insert_overwrites_stray_slot :
  ~ (forall (page record page' : bytes) (slot slot_count free_offset : Z),
       insert_record_into_page page record = Ok (page', slot) ->
       _read_footer page = Ok (slot_count, free_offset) ->
       forall i, 0 <= i < slot_count ->
         get_record_from_page page' i = get_record_from_page page i).
Proof.
  intros H.
  destruct (insert_record_into_page stray_slot_page [x41]) as [[page' slot]|e] eqn:E;
    [|vm_compute in E; discriminate].
  specialize (H stray_slot_page [x41] page' slot 1 0 E ltac:(vm_compute; reflexivity)
                0 ltac:(lia)).
  vm_compute in E. injection E as <- <-. vm_compute in H. discriminate.
Qed.

(** ** C2: a full scan returns exactly the inserted records *)

(** On a heap file that is absent or empty, [insert_all] behaves as on the
    freshly created one-page file. *)
Lemma insert_all_fresh (fs : filesystem) (fname : pystr) (r : bytes)
    (recs : list bytes) :
  fs !! fname = None \/ fs !! fname = Some [] ->
  match abs_insert_all [[]] (r :: recs) with
  | Some (pages', addrs) =>
      exists fs' content',
        insert_all fs fname (r :: recs) = (fs', Ok addrs) /\
        fs' !! fname = Some content' /\ heap_repr pages' content'
  | None => exists fs', insert_all fs fname (r :: recs) = (fs', Err ValueError)
  end.
Proof.
  intros Hfresh.
  assert (Hfile0 : create_heap_file fs fname !! fname = Some initialize_empty_page)
    by apply lookup_insert_eq.
  pose proof (insert_all_pages fname (r :: recs) _ _ [[]] Hfile0
                heap_repr_created ltac:(discriminate)) as H.
  cbn [insert_all] in H |- *.
  rewrite (insert_record_created fs fname r Hfresh). exact H.
Qed.

(** C2. For every sequence of records inserted with [insert_record] into a
    heap file that is absent or empty (the inserts succeed exactly when
    every record is at most 4088 bytes long), [get_all_raw_records] returns
    exactly those records, each once and at the address its insert
    returned, in page-then-slot order, visiting every slot of every page
    of the file; and the result spans at least ceil(total_bytes / 4088)
    pages. *)
Theorem scan_returns_inserted_records (fs : filesystem) (fname : pystr)
    (recs : list bytes) :
  fs !! fname = None \/ fs !! fname = Some [] ->
  (Forall (fun r => len r <= 4088) recs <->
   exists fs' addrs, insert_all fs fname recs = (fs', Ok addrs)) /\
  forall fs' addrs,
    insert_all fs fname recs = (fs', Ok addrs) ->
    exists out,
      get_all_raw_records fs' fname = Ok out /\
      length addrs = length recs /\
      out ≡ₚ placed addrs recs /\
      snd <$> out ≡ₚ recs /\
      StronglySorted entry_lt out /\
      (forall p page sc fo si,
          read_page fs' fname p = Ok page -> _read_footer page = Ok (sc, fo) ->
          0 <= si < sc ->
          exists rec, get_record_from_page page si = Ok rec /\ (p, si, rec) ∈ out) /\
      (total recs + 4087) / 4088 <= pages_spanned out.
Proof.
  intros Hfresh. destruct recs as [|r recs].
  - split; [split; [eauto|constructor]|].
    intros fs' addrs [= <- <-]. exists []. simpl.
    split; [apply get_all_raw_records_absent, Hfresh|].
    split; [reflexivity|]. split; [reflexivity|]. split; [reflexivity|].
    split; [constructor|]. split.
    + intros p page sc fo si Hread.
      destruct (read_page_absent fs fname p Hfresh) as [e He].
      rewrite He in Hread. discriminate.
    + vm_compute. discriminate.
  - pose proof (insert_all_fresh fs fname r recs Hfresh) as Hins.
    pose proof (abs_insert_all_small (r :: recs) [[]]) as Hsmall.
    destruct (abs_insert_all [[]] (r :: recs)) as [[pages' addrs0]|] eqn:Habs.
    + destruct Hins as (fs0 & content' & Hins & Hfile' & Hrepr').
      split; [split; [eauto|intros _; apply Hsmall; eauto]|].
      intros fs' addrs Hins'. rewrite Hins in Hins'. injection Hins' as <- <-.
      pose proof (get_all_raw_records_pages _ _ _ _ Hfile' Hrepr') as Hscan.
      destruct (abs_insert_all_entries _ _ _ _ Habs) as [Hlen Hperm].
      change (heap_entries 0 [[]]) with (@nil (Z * Z * bytes)) in Hperm.
      rewrite app_nil_l in Hperm.
      assert (Hne : Forall (fun pg => pg <> []) pages').
      { simpl in Habs.
        destruct (abs_insert [[]] r) as [[pages1 a]|] eqn:E1; [|discriminate].
        destruct (abs_insert_all pages1 recs) as [[pages2 addrs2]|] eqn:E2;
          [|discriminate].
        injection Habs as <- <-.
        apply (abs_insert_all_nonempty _ _ _ _ E2).
        apply (abs_insert_nonempty _ _ _ _ E1). left. reflexivity. }
      assert (Hrecs : snd <$> heap_entries 0 pages' ≡ₚ r :: recs).
      { rewrite Hperm. rewrite placed_records by exact Hlen. reflexivity. }
      exists (heap_entries 0 pages').
      split; [exact Hscan|]. split; [exact Hlen|].
      split; [exact Hperm|]. split; [exact Hrecs|].
      split; [apply heap_entries_sorted|]. split.
      * intros p page sc fo si Hread Hfoot Hsi.
        eapply scan_visits_every_slot; eassumption.
      * rewrite pages_spanned_heap_entries by exact Hne.
        destruct Hrepr' as (imgs & _ & HF).
        pose proof (heap_capacity _ _ HF Hne) as Hcap.
        rewrite heap_entries_records in Hrecs.
        rewrite (total_perm _ _ Hrecs) in Hcap.
        apply Z.lt_succ_r. apply Z.div_lt_upper_bound; lia.
    + destruct Hins as (fs0 & Hins). split.
      * split.
        -- intros Hall. apply Hsmall in Hall as [x Hx]. discriminate.
        -- intros (fs' & addrs & Hins'). rewrite Hins in Hins'. discriminate.
      * intros fs' addrs Hins'. rewrite Hins in Hins'. discriminate.
Qed.

Lemma scan_returns_inserted_records_witness :
  (Forall (fun r => len r <= 4088) [[x41; x42]; [x43]] <->
   exists fs' addrs,
     insert_all ∅ [104; 101; 97; 112] [[x41; x42]; [x43]] = (fs', Ok addrs)) /\
  forall fs' addrs,
    insert_all ∅ [104; 101; 97; 112] [[x41; x42]; [x43]] = (fs', Ok addrs) ->
    exists out,
      get_all_raw_records fs' [104; 101; 97; 112] = Ok out /\
      length addrs = 2%nat /\
      out ≡ₚ placed addrs [[x41; x42]; [x43]] /\
      snd <$> out ≡ₚ [[x41; x42]; [x43]] /\
      StronglySorted entry_lt out /\
      (forall p page sc fo si,
          read_page fs' [104; 101; 97; 112] p = Ok page ->
          _read_footer page = Ok (sc, fo) -> 0 <= si < sc ->
          exists rec, get_record_from_page page si = Ok rec /\ (p, si, rec) ∈ out) /\
      (total [[x41; x42]; [x43]] + 4087) / 4088 <= pages_spanned out.
Proof.
  apply (scan_returns_inserted_records ∅ [104; 101; 97; 112] [[x41; x42]; [x43]]).
  left. reflexivity.
Defined.

(** ** C3, C6: first-fit placement in the heap file *)

Lemma page_has_room_true (page record : bytes) :
  page_has_room page record = true ->
  exists sc fo,
    _read_footer page = Ok (sc, fo) /\ len record + 4 <= 4092 - 4 * sc - fo /\
    insert_record_into_page page record = Ok (insert_image page record sc fo, sc).
Proof.
  unfold page_has_room, free_space_in_page. intros H.
  destruct (_read_footer page) as [[sc fo]|] eqn:Hf; [|discriminate].
  cbn [bind] in H. apply Z.leb_le in H.
  unfold PAGE_SIZE, FOOTER_SIZE, SLOT_ENTRY_SIZE in H.
  exists sc, fo. split; [reflexivity|]. split; [lia|].
  apply insert_record_into_page_fits; [exact Hf|lia].
Qed.

Lemma page_has_room_false (page record : bytes) :
  page_has_room page record = false ->
  insert_record_into_page page record = Err ValueError.
Proof.
  unfold page_has_room. intros H.
  destruct (Z.eq_dec (len page) PAGE_SIZE) as [Hl|Hl];
    [|apply insert_record_into_page_badlen, Hl].
  destruct (read_footer_total page Hl) as (sc & fo & Hf).
  rewrite (free_space_footer _ _ _ Hf) in H. apply Z.leb_gt in H.
  unfold SLOT_ENTRY_SIZE in H.
  apply (insert_record_into_page_full _ _ _ _ Hf). lia.
Qed.

(** A record that some page has room for is at most 4088 bytes long. *)
Lemma page_has_room_small (page record : bytes) :
  page_has_room page record = true -> len record <= 4088.
Proof.
  intros H. destruct (page_has_room_true _ _ H) as (sc & fo & Hf & Hfit & _).
  destruct (read_footer_inv _ _ _ Hf) as (_ & _ & _ & Hsc & Hfo). lia.
Qed.

Lemma page_has_room_empty (record : bytes) :
  page_has_room initialize_empty_page record = true <-> len record <= 4088.
Proof.
  unfold page_has_room.
  rewrite (free_space_footer _ _ _ read_footer_initialize_empty_page).
  unfold SLOT_ENTRY_SIZE. rewrite Z.leb_le. lia.
Qed.

Lemma insert_record_loop_first_fit (fname : pystr) (r : bytes) (suf : list bytes) :
  forall (pre : list bytes) (fs : filesystem),
  Forall (fun pg => len pg = 4096) pre -> Forall (fun pg => len pg = 4096) suf ->
  fs !! fname = Some (concat (pre ++ suf)) ->
  match list_find (fun pg => page_has_room pg r) suf with
  | Some (j, pg) =>
      exists sc fo,
        _read_footer pg = Ok (sc, fo) /\
        insert_record_loop fs fname r (seqZ (len pre) (len suf))
        = Some (<[fname := concat (pre ++ <[j := insert_image pg r sc fo]> suf)]> fs,
                Ok (len pre + Z.of_nat j, sc))
  | None => insert_record_loop fs fname r (seqZ (len pre) (len suf)) = None
  end.
Proof.
  induction suf as [|pg suf IH]; intros pre fs Hpre Hsuf Hfile; [reflexivity|].
  inversion Hsuf as [|? ? Hpg Hsuf']; subst.
  assert (Hlens : Forall (fun x => len x = 4096) (pre ++ pg :: suf))
    by (apply Forall_app; split; assumption).
  assert (Hlook : (pre ++ pg :: suf) !! length pre = Some pg)
    by (apply list_lookup_middle; reflexivity).
  rewrite seqZ_cons by (unfold len; simpl length; lia).
  cbn [insert_record_loop].
  change (len pre) with (Z.of_nat (length pre)).
  rewrite (read_page_pages fs fname _ Hfile Hlens _ _ Hlook).
  rewrite list_find_cons_dec.
  destruct (decide (page_has_room pg r)) as [Hroom|Hnoroom].
  - apply Is_true_eq_true in Hroom.
    destruct (page_has_room_true _ _ Hroom) as (sc & fo & Hf & Hfit & Hins).
    rewrite Hins. exists sc, fo. split; [exact Hf|].
    destruct (read_footer_inv _ _ _ Hf) as (_ & _ & _ & Hsc & Hfo).
    rewrite (write_page_pages fs fname _ Hfile Hlens).
    + rewrite insert_app_r_alt by lia. rewrite Nat.sub_diag, Z.add_0_r. reflexivity.
    + rewrite length_app. simpl. lia.
    + apply len_insert_image; lia || exact Hpg.
  - apply negb_prop_intro, Is_true_eq_true, negb_true_iff in Hnoroom.
    rewrite (page_has_room_false _ _ Hnoroom). cbn [is_ValueError].
    specialize (IH (pre ++ [pg]) fs).
    rewrite <- !app_assoc in IH. simpl in IH.
    assert (Hpre' : Forall (fun x => len x = 4096) (pre ++ [pg]))
      by (apply Forall_app; split; [exact Hpre|constructor; [exact Hpg|constructor]]).
    specialize (IH Hpre' Hsuf' Hfile).
    replace (Z.succ (Z.of_nat (length pre))) with (len (pre ++ [pg]))
      by (rewrite len_snoc; unfold len; lia).
    replace (Z.pred (len (pg :: suf))) with (len suf)
      by (unfold len; simpl length; lia).
    destruct (list_find (fun pg0 => page_has_room pg0 r) suf) as [[j pg']|]; simpl.
    + destruct IH as (sc & fo & Hf & Hloop). exists sc, fo. split; [exact Hf|].
      rewrite Hloop, <- app_assoc.
      replace (len (pre ++ [pg]) + Z.of_nat j)
        with (Z.of_nat (length pre) + Z.of_nat (S j))
        by (rewrite len_snoc; unfold len; lia).
      reflexivity.
    + exact IH.
Qed.

(** [insert_record] on a file of at least one whole page. *)
Lemma insert_record_first_fit_pages (fs : filesystem) (fname : pystr)
    (pages : list bytes) (r : bytes) :
  file_pages fs fname pages -> pages <> [] ->
  insert_record fs fname r =
    match list_find (fun pg => page_has_room pg r) pages with
    | Some (j, pg) =>
        match insert_record_into_page pg r with
        | Ok (pg', slot) =>
            (<[fname := concat (<[j := pg']> pages)]> fs, Ok (Z.of_nat j, slot))
        | Err e => (fs, Err e)
        end
    | None =>
        match insert_record_into_page initialize_empty_page r
              return filesystem * result (Z * Z) with
        | Ok (pg', slot) => (<[fname := concat (pages ++ [pg'])]> fs, Ok (len pages, slot))
        | Err e => (fs, Err e)
        end
    end.
Proof.
  intros [Hfile Hlens] Hne. unfold PAGE_SIZE in Hlens.
  assert (Hpos : 0 < len pages) by (destruct pages; [contradiction|unfold len; simpl; lia]).
  unfold insert_record.
  assert (E : negb (path_exists fs fname)
              || match getsize fs fname with Ok n => n =? 0 | Err _ => false end
              = false).
  { unfold path_exists. rewrite (getsize_pages fs fname pages Hfile Hlens), Hfile.
    simpl. apply Z.eqb_neq. lia. }
  rewrite E. rewrite (getsize_pages fs fname pages Hfile Hlens).
  unfold PAGE_SIZE.
  replace (4096 * len pages / 4096) with (len pages)
    by (rewrite Z.mul_comm, Z.div_mul by lia; reflexivity).
  pose proof (insert_record_loop_first_fit fname r pages [] fs
                ltac:(constructor) Hlens Hfile) as Hloop.
  change (len []) with 0 in Hloop.
  destruct (list_find (fun pg => page_has_room pg r) pages) as [[j pg]|] eqn:Efind.
  - destruct Hloop as (sc & fo & Hf & Hloop). rewrite Hloop.
    apply list_find_Some in Efind as (_ & Hroom & _).
    apply Is_true_eq_true in Hroom.
    destruct (page_has_room_true _ _ Hroom) as (sc' & fo' & Hf' & _ & ->).
    rewrite Hf in Hf'. injection Hf' as <- <-. reflexivity.
  - rewrite Hloop.
    destruct (insert_record_into_page initialize_empty_page r) as [[pg' slot]|e] eqn:Eins;
      [|reflexivity].
    destruct (insert_record_into_page_Ok_inv _ _ _ _ Eins) as (sc & fo & Hf & Hfit & -> & ->).
    rewrite read_footer_initialize_empty_page in Hf. injection Hf as <- <-.
    rewrite (append_page_pages fs fname pages Hfile); [reflexivity|].
    apply len_insert_image; [apply len_initialize_empty_page|lia|lia|exact Hfit].
Qed.



(** The first-fit scenario by evaluation: a 4088-byte record fills page 0
    exactly, a second record opens page 1, and a third one, which page 1
    has room for, lands in page 1; the file keeps two pages. *)
Example first_fit_page0_full :
  let st := insert_all ∅ [104; 101; 97; 112]
              [repeat x41 4088; repeat x42 10; repeat x43 10] in
  st.2 = Ok [(0, 0); (1, 0); (1, 1)] /\
  getsize st.1 [104; 101; 97; 112] = Ok (2 * PAGE_SIZE).
Proof. vm_compute. split; reflexivity. Qed.

(** *** C6: the capacity error of the appended page reaches the caller *)

(** On every heap file of whole pages [insert_record] raises exactly when
    the record is longer than 4088 bytes, and what it raises then is the
    ValueError of [insert_record_into_page]. *)
Lemma insert_record_raises_iff (fs : filesystem) (fname : pystr)
    (pages : list bytes) (record : bytes) :
  file_pages fs fname pages -> pages <> [] ->
  (4088 < len record -> insert_record fs fname record = (fs, Err ValueError)) /\
  (len record <= 4088 -> exists fs' a, insert_record fs fname record = (fs', Ok a)).
Proof.
  intros Hfp Hne.
  pose proof (insert_record_first_fit_pages fs fname pages record Hfp Hne) as Hins.
  destruct (list_find (fun pg => page_has_room pg record) pages) as [[j pg]|] eqn:Efind.
  - apply list_find_Some in Efind as (_ & Hroom & _). apply Is_true_eq_true in Hroom.
    pose proof (page_has_room_small _ _ Hroom) as Hsmall.
    destruct (page_has_room_true _ _ Hroom) as (sc & fo & _ & _ & Hpage).
    rewrite Hpage in Hins. split; [lia|eauto].
  - split.
    + intros Hbig. rewrite page_has_room_false in Hins; [exact Hins|].
      destruct (page_has_room initialize_empty_page record) eqn:E; [|reflexivity].
      apply page_has_room_empty in E. lia.
    + intros Hsmall. apply page_has_room_empty in Hsmall.
      destruct (page_has_room_true _ _ Hsmall) as (sc & fo & _ & _ & Hpage).
      rewrite Hpage in Hins. eauto.
Qed.

(** C6 fails on the code. A record of 4089 bytes inserted into an absent
    heap file: the file is created, page 0 has no room, and the insert into
    the fresh page to append is outside the [try]: its ValueError (the
    capacity error) is what the caller gets. *)
Theorem insert_record_oversized_raises :
  (insert_record ∅ [104; 101; 97; 112] (repeat x43 4089)).2 = Err ValueError /\
  getsize (insert_record ∅ [104; 101; 97; 112] (repeat x43 4089)).1
          [104; 101; 97; 112] = Ok PAGE_SIZE.
Proof. vm_compute. split; reflexivity. Qed.

(** ** C8, C7: the string encodings *)

(** C8. For every string [s] (with UTF-8 encoding [b]) and width [n >= 0],
    [_pack_char s n] is the first [min(n, len b)] bytes of [b] followed by
    zero bytes up to exactly [n] bytes; [_unpack_char] strips all trailing
    zero bytes (what is left does not end in a zero byte and differs from
    the input by zero bytes only) and UTF-8-decodes the rest. *)
Theorem pack_char_format (s : pystr) (n : Z) (b : bytes) :
  0 <= n -> utf8_encode s = Ok b ->
  (exists out,
     _pack_char s n = Ok out /\
     out = take (Z.to_nat n) b ++ zeros (n - Z.min n (len b)) /\
     len (take (Z.to_nat n) b) = Z.min n (len b) /\
     len out = n) /\
  (forall chunk : bytes,
     _unpack_char chunk = utf8_decode (rstrip_zeros chunk) /\
     exists k, chunk = rstrip_zeros chunk ++ repeat x00 k /\
               last (rstrip_zeros chunk) <> Some x00).
Proof.
  intros Hn Hb. split.
  - pose proof (len_take b n Hn) as Hlen.
    eexists. split; [apply (pack_char_eq s n b Hn Hb)|].
    split; [reflexivity|]. split; [exact Hlen|].
    rewrite len_app, Hlen, len_zeros. pose proof (len_nonneg b). lia.
  - intros chunk. split; [reflexivity|apply rstrip_zeros_spec].
Qed.

Lemma pack_char_format_witness :
  (exists out,
     _pack_char (str "ab") 5 = Ok out /\
     out = take (Z.to_nat 5) [x61; x62] ++ zeros (5 - Z.min 5 (len [x61; x62])) /\
     len (take (Z.to_nat 5) [x61; x62]) = Z.min 5 (len [x61; x62]) /\
     len out = 5) /\
  (forall chunk : bytes,
     _unpack_char chunk = utf8_decode (rstrip_zeros chunk) /\
     exists k, chunk = rstrip_zeros chunk ++ repeat x00 k /\
               last (rstrip_zeros chunk) <> Some x00).
Proof.
  apply (pack_char_format (str "ab") 5 [x61; x62]).
  - lia.
  - vm_compute. reflexivity.
Defined.

(** Truncation can split a code point: U+00E9 in a [char(1)] field is
    stored as the lone lead byte C3, which does not decode. *)
Example pack_char_splits_code_point :
  _pack_char [233] 1 = Ok [xc3] /\ _unpack_char [xc3] = Err UnicodeDecodeError.
Proof. vm_compute. split; reflexivity. Qed.

(** C7. For every string [s] (with UTF-8 encoding [b]) and width [n >= 0],
    [_pack_varchar s n] is one length byte L = min(len b, n, 255), then the
    first L bytes of [b] ([b] cut to [n] bytes and then to 255), then zero
    bytes up to [n] content bytes: [1 + n] bytes in all. [_unpack_varchar]
    reads the length byte and UTF-8-decodes that many of the bytes after
    it; on the packed bytes these are exactly the L content bytes. *)
Theorem pack_varchar_format (s : pystr) (n : Z) (b : bytes) :
  0 <= n -> utf8_encode s = Ok b ->
  let L := Z.min (len b) (Z.min n 255) in
  let content := take (Z.to_nat L) b ++ zeros (n - L) in
  _pack_varchar s n = Ok (byte_of_Z L :: content) /\
  byte_to_Z (byte_of_Z L) = L /\
  take (Z.to_nat L) b = take 255 (take (Z.to_nat n) b) /\
  len (take (Z.to_nat L) b) = L /\
  len content = n /\
  len (byte_of_Z L :: content) = 1 + n /\
  (forall (b0 : byte) (rest : bytes) (m : Z),
     _unpack_varchar (b0 :: rest) m
     = utf8_decode (take (Z.to_nat (byte_to_Z b0)) rest)) /\
  (forall m, _unpack_varchar [] m = Ok []) /\
  _unpack_varchar (byte_of_Z L :: content) n = utf8_decode (take (Z.to_nat L) b).
Proof.
  intros Hn Hb L content. pose proof (len_nonneg b) as Hlb.
  assert (HL : 0 <= L <= 255) by (unfold L; lia).
  assert (Htake : len (take (Z.to_nat L) b) = L) by (rewrite len_take; unfold L; lia).
  assert (Hcontent : len content = n).
  { unfold content. rewrite len_app, Htake, len_zeros. unfold L. lia. }
  split; [apply (pack_varchar_eq s n b Hn Hb)|].
  split; [apply byte_to_of_Z; lia|].
  split; [apply double_truncation, Hn|]. split; [exact Htake|].
  split; [exact Hcontent|].
  split; [unfold len in *; simpl length; lia|].
  split; [apply unpack_varchar_cons|]. split; [reflexivity|].
  rewrite unpack_varchar_cons, byte_to_of_Z by lia. f_equal. unfold content.
  rewrite take_app_le by (unfold len in Htake; lia).
  apply take_ge. unfold len in Htake. lia.
Qed.

Lemma pack_varchar_format_witness :
  let L := Z.min (len [x61; x62]) (Z.min 5 255) in
  let content := take (Z.to_nat L) [x61; x62] ++ zeros (5 - L) in
  _pack_varchar (str "ab") 5 = Ok (byte_of_Z L :: content) /\
  byte_to_Z (byte_of_Z L) = L /\
  take (Z.to_nat L) [x61; x62] = take 255 (take (Z.to_nat 5) [x61; x62]) /\
  len (take (Z.to_nat L) [x61; x62]) = L /\
  len content = 5 /\
  len (byte_of_Z L :: content) = 1 + 5 /\
  (forall (b0 : byte) (rest : bytes) (m : Z),
     _unpack_varchar (b0 :: rest) m
     = utf8_decode (take (Z.to_nat (byte_to_Z b0)) rest)) /\
  (forall m, _unpack_varchar [] m = Ok []) /\
  _unpack_varchar (byte_of_Z L :: content) 5
  = utf8_decode (take (Z.to_nat L) [x61; x62]).
Proof.
  apply (pack_varchar_format (str "ab") 5 [x61; x62]).
  - lia.
  - vm_compute. reflexivity.
Defined.

(** ** C1: round trip of a record through the codec *)

(** C1 as amended. For every table schema and every record whose values
    are within the widths and ranges of their fields (a char string whose
    UTF-8 encoding is at most the declared width and does not end in a zero
    byte; a varchar string whose encoding is at most the declared width
    and at most 255 bytes; an int in the signed 32-bit range; a float that
    single precision represents exactly), [decode_record] of
    [encode_record] returns the record with the missing fields filled by
    their defaults. For a string longer than the declared width [n], a
    char field stores exactly its first [n] bytes, a varchar field exactly
    its first min(n, 255) bytes, after the length byte min(n, 255). *)
Theorem record_roundtrip `{PyText} (schema : gmap pystr table_desc)
    (table_name : pystr) (table : table_desc) (fields : list field_desc)
    (record_dict : gmap pystr value) :
  schema !! table_name = Some table -> t_fields table = Some fields ->
  Forall (field_ok record_dict) fields ->
  (forall name, is_Some (record_dict !! name) -> name ∈ f_name <$> fields) ->
  (exists b,
     encode_record record_dict table_name schema = Ok b /\
     decode_record b table_name schema = Ok (record_dict ∪ defaults_of fields)) /\
  (forall s n b,
     0 <= n -> utf8_encode s = Ok b -> n < len b ->
     _pack_char s n = Ok (take (Z.to_nat n) b) /\ len (take (Z.to_nat n) b) = n) /\
  (forall s n b,
     0 <= n -> utf8_encode s = Ok b -> n < len b ->
     _pack_varchar s n
     = Ok (byte_of_Z (Z.min n 255)
           :: take (Z.to_nat (Z.min n 255)) b ++ zeros (n - Z.min n 255)) /\
     len (take (Z.to_nat (Z.min n 255)) b) = Z.min n 255).
Proof.
  intros Hschema Hfields Hall Hdom. split; [|split].
  - destruct (encode_decode_loops record_dict fields Hall) as (chunks & Henc & Hdec).
    exists (concat chunks). unfold encode_record, decode_record.
    rewrite Hschema, Hfields, Henc. cbn [bind app]. split; [reflexivity|].
    specialize (Hdec [] [] ∅). rewrite app_nil_r in Hdec. cbn [app] in Hdec.
    change (len []) with 0 in Hdec. rewrite Hdec.
    rewrite (decoded_fields_union record_dict fields Hall Hdom). reflexivity.
  - intros s n b Hn Hb Hlong.
    rewrite (pack_char_eq s n b Hn Hb), (len_take b n Hn).
    rewrite !Z.min_l by lia. rewrite Z.sub_diag.
    change (zeros 0) with (@nil byte). rewrite app_nil_r. split; reflexivity.
  - intros s n b Hn Hb Hlong.
    rewrite (pack_varchar_eq s n b Hn Hb).
    replace (Z.min (len b) (Z.min n 255)) with (Z.min n 255) by lia.
    split; [reflexivity|]. rewrite len_take by lia. lia.
Qed.

Lemma record_roundtrip_witness :
  let record : gmap pystr value :=
    <[str "id" := VInt (-7)]>
      (<[str "name" := VStr (str "Alice")]>
         (<[str "salary" := VFloat (S754_finite false 9216000 (-11))]> ∅)) in
  exists b,
    encode_record record (str "Employee") demo_schema = Ok b /\
    decode_record b (str "Employee") demo_schema
    = Ok (record ∪ defaults_of [ {| f_name := str "id"; f_type := str "int" |};
                                 {| f_name := str "name"; f_type := str "char(20)" |};
                                 {| f_name := str "salary"; f_type := str "float" |} ]).
Proof.
  intros record.
  refine (proj1 (record_roundtrip demo_schema (str "Employee") _ _ record
                   eq_refl eq_refl _ _)).
  - repeat constructor.
    + exists TInt, None. split; [reflexivity|]. split; [exact I|].
      intros v Hv. vm_compute in Hv. injection Hv as <-. simpl. lia.
    + exists TChar, (Some 20). split; [reflexivity|].
      split; [exists 20; split; [reflexivity|lia]|].
      intros v Hv. vm_compute in Hv. injection Hv as <-.
      exists [x41; x6c; x69; x63; x65], 20.
      split; [reflexivity|]. split; [reflexivity|].
      split; [vm_compute; discriminate|discriminate].
    + exists TFloat, None. split; [reflexivity|]. split; [exact I|].
      intros v Hv. vm_compute in Hv. injection Hv as <-.
      split; [reflexivity|discriminate].
  - intros name [v Hv]. unfold record in Hv.
    destruct (decide (name = str "id")) as [->|H1];
      [apply list_elem_of_In; simpl; auto|].
    rewrite lookup_insert_ne in Hv by congruence.
    destruct (decide (name = str "name")) as [->|H2];
      [apply list_elem_of_In; simpl; auto|].
    rewrite lookup_insert_ne in Hv by congruence.
    destruct (decide (name = str "salary")) as [->|H3];
      [apply list_elem_of_In; simpl; auto|].
    rewrite lookup_insert_ne in Hv by congruence.
    rewrite lookup_empty in Hv. discriminate.
Defined.

(** C1 as stated fails: a value of 256 bytes in a varchar(300) field is
    within the declared width and has no zero byte, but what is read back
    is its first 255 bytes. *)
Lemma varchar_over_255_not_restored :
  (exists b, utf8_encode (repeat 97 256) = Ok b /\ len b = 256 /\ len b <= 300 /\
             last b <> Some x00) /\
  exists b d,
    encode_record wide_record (str "T") wide_schema = Ok b /\
    decode_record b (str "T") wide_schema = Ok d /\
    d !! str "v" = Some (VStr (repeat 97 255)) /\
    wide_record !! str "v" = Some (VStr (repeat 97 256)) /\
    d <> wide_record.
Proof.
  split.
  - eexists. split; [vm_compute; reflexivity|].
    split; [reflexivity|]. split; [vm_compute; discriminate|].
    vm_compute. discriminate.
  - destruct (encode_record wide_record (str "T") wide_schema) as [b|e] eqn:Eb;
      [|vm_compute in Eb; discriminate].
    destruct (decode_record b (str "T") wide_schema) as [d|e] eqn:Ed.
    + exists b, d. split; [reflexivity|]. split; [exact Ed|].
      assert (Hd : d !! str "v" = Some (VStr (repeat 97 255))).
      { vm_compute in Eb. injection Eb as <-. vm_compute in Ed. injection Ed as <-.
        vm_compute. reflexivity. }
      split; [exact Hd|]. split; [vm_compute; reflexivity|].
      intros ->. vm_compute in Hd. discriminate.
    + exfalso. vm_compute in Eb. injection Eb as <-. vm_compute in Ed. discriminate.
Qed.

(** The scenario of the demo: a salary of 4500.0 is stored as 45 8C A0 00
    and read back exactly. *)
Example salary_roundtrip :
  _pack_float (S754_finite false 9216000 (-11)) = Ok [x45; x8c; xa0; x00] /\
  _unpack_float [x45; x8c; xa0; x00] = Ok (S754_finite false 9216000 (-11)).
Proof. vm_compute. split; reflexivity. Qed.

(** ** C10: reading a table that was never written *)

(** C10. For every file name that does not exist on storage, or names a
    zero-length file, [get_all_raw_records] returns the empty list and
    raises nothing; so [read_all_structured_records] on a table of the
    schema whose heap file is that file yields the empty list. *)
Theorem scan_of_missing_file_is_empty `{PyText} (fs : filesystem) (fname : pystr) :
  fs !! fname = None \/ fs !! fname = Some [] ->
  get_all_raw_records fs fname = Ok [] /\
  forall (table_name : pystr) (schema : gmap pystr table_desc) (table : table_desc),
    schema !! table_name = Some table ->
    table_file_name table = Ok fname ->
    read_all_structured_records fs table_name schema = Ok [].
Proof.
  intros Hfile. pose proof (get_all_raw_records_absent fs fname Hfile) as Hscan.
  split; [exact Hscan|].
  intros table_name schema table Hschema Hname.
  unfold read_all_structured_records. rewrite Hschema, Hname. cbn [bind].
  rewrite Hscan. reflexivity.
Qed.

Lemma scan_of_missing_file_is_empty_witness :
  get_all_raw_records ∅ (str "employee.heap") = Ok [] /\
  forall (table_name : pystr) (schema : gmap pystr table_desc) (table : table_desc),
    schema !! table_name = Some table ->
    table_file_name table = Ok (str "employee.heap") ->
    read_all_structured_records ∅ table_name schema = Ok [].
Proof.
  apply (scan_of_missing_file_is_empty ∅ (str "employee.heap")).
  left. reflexivity.
Defined.

(** The never-inserted [Employee] table of the demo schema. *)
Example read_all_never_inserted :
  read_all_structured_records ∅ (str "Employee") demo_schema = Ok [].
Proof. vm_compute. reflexivity. Qed.

(** * Further properties of the page format *)

Lemma unpack_u16_error (b : bytes) (e : exn) :
  unpack_u16 b = Err e -> e = StructError.
Proof.
  destruct b as [|b0 [|b1 [|b2 b]]]; simpl; intros Hu; congruence.
Qed.

Lemma pack_u16_out_of_range (v : Z) :
  ~ 0 <= v <= 65535 -> pack_u16 v = Err StructError.
Proof.
  intros Hv. unfold pack_u16.
  destruct ((0 <=? v) && (v <=? 65535)) eqn:E; [|reflexivity].
  apply andb_true_iff in E as [E1 E2].
  apply Z.leb_le in E1, E2. lia.
Qed.

Lemma len_seg_two (page : bytes) (a : Z) :
  0 <= a -> a + 2 <= len page -> length (seg page a 2) = 2%nat.
Proof.
  intros Ha Hl. pose proof (len_seg page a 2 Ha ltac:(lia) Hl) as Hs.
  unfold len in Hs. lia.
Qed.

Lemma seg_upd_u16 (l : bytes) (a v : Z) :
  0 <= a -> a + 2 <= len l -> seg (upd l a (u16 v)) a 2 = u16 v.
Proof.
  intros Ha Hl. pose proof (seg_upd_same l a (u16 v)) as Hs.
  rewrite len_u16 in Hs. apply Hs; lia.
Qed.

(** X1. On a 4096-byte page, writing a footer whose two values are
    unsigned 16-bit numbers succeeds, the footer then reads back as those
    values, and the 4092 bytes before the footer are unchanged; a value
    outside that range raises struct.error. *)
Theorem write_footer_then_read (page : bytes) (slot_count free_offset : Z) :
  len page = PAGE_SIZE ->
  (0 <= slot_count <= 65535 /\ 0 <= free_offset <= 65535 ->
   exists page',
     _write_footer page slot_count free_offset = Ok page' /\
     len page' = PAGE_SIZE /\
     _read_footer page' = Ok (slot_count, free_offset) /\
     py_slice page' 0 (PAGE_SIZE - FOOTER_SIZE)
     = py_slice page 0 (PAGE_SIZE - FOOTER_SIZE)) /\
  (~ (0 <= slot_count <= 65535 /\ 0 <= free_offset <= 65535) ->
   _write_footer page slot_count free_offset = Err StructError).
Proof.
  intros Hl. unfold PAGE_SIZE, FOOTER_SIZE in *. split.
  - intros [Hsc Hfo].
    exists (upd (upd page 4092 (u16 slot_count)) 4094 (u16 free_offset)).
    assert (Hl1 : len (upd page 4092 (u16 slot_count)) = 4096)
      by (rewrite len_upd; rewrite ?len_u16; lia).
    assert (Hl2 : len (upd (upd page 4092 (u16 slot_count)) 4094 (u16 free_offset))
                  = 4096)
      by (rewrite len_upd; rewrite ?len_u16; lia).
    split; [apply write_footer_upd; assumption|].
    split; [exact Hl2|]. split.
    + rewrite read_footer_seg by exact Hl2.
      rewrite (seg_upd_disjoint _ 4094 (u16 free_offset) 4092 2)
        by (rewrite ?len_u16; lia).
      rewrite !seg_upd_u16 by lia.
      rewrite !unpack_u16_u16 by lia. reflexivity.
    + rewrite !py_slice_seg by lia.
      rewrite seg_upd_disjoint by (rewrite ?len_u16; lia).
      rewrite seg_upd_disjoint by (rewrite ?len_u16; lia).
      reflexivity.
  - intros Hr. unfold _write_footer.
    destruct (decide (0 <= slot_count <= 65535)) as [Hsc|Hsc].
    + rewrite (pack_u16_u16 _ Hsc). cbn [bind].
      rewrite pack_u16_out_of_range by lia. reflexivity.
    + rewrite (pack_u16_out_of_range _ Hsc). reflexivity.
Qed.

Lemma write_footer_then_read_witness :
  (0 <= 3 <= 65535 /\ 0 <= 17 <= 65535 ->
   exists page',
     _write_footer (zeros PAGE_SIZE) 3 17 = Ok page' /\
     len page' = PAGE_SIZE /\
     _read_footer page' = Ok (3, 17) /\
     py_slice page' 0 (PAGE_SIZE - FOOTER_SIZE)
     = py_slice (zeros PAGE_SIZE) 0 (PAGE_SIZE - FOOTER_SIZE)) /\
  (~ (0 <= 3 <= 65535 /\ 0 <= 17 <= 65535) ->
   _write_footer (zeros PAGE_SIZE) 3 17 = Err StructError).
Proof. apply (write_footer_then_read (zeros PAGE_SIZE) 3 17). reflexivity. Defined.

(** X2. On a 4096-byte page, writing the entry of a slot [i] in
    [0, 1022] succeeds for unsigned 16-bit values; the slot then reads
    back as those values, every other slot in [0, 1022] and the footer
    read as before, and the page keeps its length. *)
Theorem write_slot_then_read (page : bytes) (slot_index offset length : Z) :
  len page = PAGE_SIZE ->
  0 <= slot_index <= 1022 ->
  0 <= offset <= 65535 -> 0 <= length <= 65535 ->
  exists page',
    _write_slot page slot_index offset length = Ok page' /\
    len page' = PAGE_SIZE /\
    _read_footer page' = _read_footer page /\
    forall slot_count j, 0 <= j <= 1022 ->
      _read_slot page' j slot_count
      = if decide (j = slot_index /\ j < slot_count) then Ok (offset, length)
        else _read_slot page j slot_count.
Proof.
  intros Hl Hi Ho Hn. unfold PAGE_SIZE in *.
  pose proof (slot_pos_eq slot_index) as Hp.
  set (pg1 := upd page (_slot_pos slot_index) (u16 offset)).
  set (pg2 := upd pg1 (_slot_pos slot_index + 2) (u16 length)).
  assert (Hl1 : len pg1 = 4096)
    by (unfold pg1; rewrite len_upd; rewrite ?len_u16; lia).
  assert (Hl2 : len pg2 = 4096)
    by (unfold pg2; rewrite len_upd; rewrite ?len_u16; lia).
  assert (Hframe : forall c n, 0 <= c ->
            c + n <= _slot_pos slot_index \/ _slot_pos slot_index + 4 <= c ->
            seg pg2 c n = seg page c n).
  { intros c n Hc Hd. unfold pg2.
    rewrite seg_upd_disjoint by (rewrite ?len_u16; lia).
    unfold pg1. rewrite seg_upd_disjoint by (rewrite ?len_u16; lia).
    reflexivity. }
  exists pg2. split; [apply write_slot_upd; lia|].
  split; [exact Hl2|]. split.
  - rewrite !read_footer_seg by assumption.
    rewrite !Hframe by lia. reflexivity.
  - intros sc j Hj.
    destruct (decide (j < 0 \/ sc <= j)) as [Hout|Hin].
    + rewrite !read_slot_out_of_range by assumption.
      destruct (decide _) as [[_ ?]|]; [lia|reflexivity].
    + pose proof (slot_pos_eq j) as Hpj.
      rewrite !read_slot_seg by lia.
      destruct (decide (j = slot_index /\ j < sc)) as [[-> _]|Hne].
      * unfold pg2 at 1.
        rewrite (seg_upd_disjoint pg1 _ (u16 length)) by (rewrite ?len_u16; lia).
        unfold pg1 at 1.
        rewrite seg_upd_u16 by lia.
        unfold pg2. rewrite seg_upd_u16 by lia.
        rewrite !unpack_u16_u16 by lia. reflexivity.
      * rewrite !Hframe by lia. reflexivity.
Qed.

Lemma write_slot_then_read_witness :
  exists page',
    _write_slot initialize_empty_page 5 100 20 = Ok page' /\
    len page' = PAGE_SIZE /\
    _read_footer page' = _read_footer initialize_empty_page /\
    forall slot_count j, 0 <= j <= 1022 ->
      _read_slot page' j slot_count
      = if decide (j = 5 /\ j < slot_count) then Ok (100, 20)
        else _read_slot initialize_empty_page j slot_count.
Proof.
  apply (write_slot_then_read initialize_empty_page 5 100 20);
    [reflexivity|lia|lia|lia].
Defined.

(** X3. [get_record_from_page] raises ValueError on a buffer that is not
    4096 bytes long. On a page whose footer reads [slot_count] it raises
    IndexError exactly for the slot indexes below 0 or at least
    [slot_count]; for an index in range (and at most 1022) it returns the
    bytes the slot entry designates. *)
Theorem get_record_index_error (page : bytes) (slot_index : Z) :
  (len page <> PAGE_SIZE ->
   get_record_from_page page slot_index = Err ValueError) /\
  (forall slot_count free_offset,
     _read_footer page = Ok (slot_count, free_offset) ->
     (get_record_from_page page slot_index = Err IndexError
      <-> slot_index < 0 \/ slot_count <= slot_index) /\
     (0 <= slot_index < slot_count -> slot_index <= 1022 ->
      exists offset length,
        _read_slot page slot_index slot_count = Ok (offset, length) /\
        get_record_from_page page slot_index
        = Ok (py_slice page offset (offset + length)))).
Proof.
  split.
  - intros Hl. unfold get_record_from_page.
    rewrite read_footer_badlen by assumption. reflexivity.
  - intros sc fo Hf. unfold get_record_from_page. rewrite Hf. cbn [bind].
    split; [split|].
    + intros Hg.
      destruct (decide (slot_index < 0 \/ sc <= slot_index)) as [|Hin];
        [assumption|exfalso].
      unfold _read_slot in Hg.
      replace ((slot_index <? 0) || (slot_index >=? sc)) with false in Hg.
      2:{ symmetry. apply orb_false_iff.
          split; [apply Z.ltb_ge|rewrite Z.geb_leb; apply Z.leb_gt]; lia. }
      destruct (unpack_u16 _) as [o|e1] eqn:E1 in Hg.
      * destruct (unpack_u16 _) as [n|e2] eqn:E2 in Hg.
        -- discriminate.
        -- apply unpack_u16_error in E2. cbn in Hg. congruence.
      * apply unpack_u16_error in E1. cbn in Hg. congruence.
    + intros Hout. rewrite read_slot_out_of_range by assumption. reflexivity.
    + intros Hi Hm.
      destruct (read_footer_inv _ _ _ Hf) as (Hl & _).
      unfold PAGE_SIZE in Hl. pose proof (slot_pos_eq slot_index) as Hp.
      rewrite read_slot_seg by lia.
      destruct (unpack_u16_length2 (seg page (_slot_pos slot_index) 2))
        as [o Ho]; [apply len_seg_two; lia|].
      destruct (unpack_u16_length2 (seg page (_slot_pos slot_index + 2) 2))
        as [n Hn]; [apply len_seg_two; lia|].
      exists o, n. rewrite Ho, Hn. split; reflexivity.
Qed.

Lemma insert_record_into_page_get (page record page' : bytes) (slot : Z) :
  insert_record_into_page page record = Ok (page', slot) ->
  get_record_from_page page' slot = Ok record.
Proof.
  intros Hins.
  destruct (insert_record_into_page_Ok_inv _ _ _ _ Hins)
    as (sc & fo & Hf & Hfit & -> & ->).
  apply get_record_insert_image_new; assumption.
Qed.

(** X4. After a successful insert into a page, the slot index returned
    reads back the record that was inserted; the new image is 4096 bytes
    long, its footer has one slot more and a free offset advanced by the
    record's length, and the new slot entry holds the old free offset and
    the record's length. *)
Theorem insert_then_get_record (page record page' : bytes) (slot : Z) :
  insert_record_into_page page record = Ok (page', slot) ->
  get_record_from_page page' slot = Ok record /\
  len page' = PAGE_SIZE /\
  exists slot_count free_offset,
    _read_footer page = Ok (slot_count, free_offset) /\
    slot = slot_count /\
    _read_footer page' = Ok (slot_count + 1, free_offset + len record) /\
    _read_slot page' slot (slot_count + 1) = Ok (free_offset, len record).
Proof.
  intros Hins.
  destruct (insert_record_into_page_Ok_inv _ _ _ _ Hins)
    as (sc & fo & Hf & Hfit & -> & ->).
  destruct (read_footer_inv _ _ _ Hf) as (Hl & _ & _ & Hsc & Hfo).
  unfold PAGE_SIZE in *.
  split; [apply (insert_record_into_page_get _ _ _ _ Hins)|].
  split; [apply len_insert_image; lia|].
  exists sc, fo. split; [assumption|]. split; [reflexivity|]. split.
  - apply read_footer_insert_image; lia.
  - apply read_slot_insert_image_new; assumption.
Qed.

Lemma insert_then_get_record_witness :
  get_record_from_page (insert_image initialize_empty_page [x41; x42] 0 0) 0
  = Ok [x41; x42] /\
  len (insert_image initialize_empty_page [x41; x42] 0 0) = PAGE_SIZE /\
  exists slot_count free_offset,
    _read_footer initialize_empty_page = Ok (slot_count, free_offset) /\
    0 = slot_count /\
    _read_footer (insert_image initialize_empty_page [x41; x42] 0 0)
    = Ok (slot_count + 1, free_offset + len [x41; x42]) /\
    _read_slot (insert_image initialize_empty_page [x41; x42] 0 0) 0 (slot_count + 1)
    = Ok (free_offset, len [x41; x42]).
Proof.
  apply (insert_then_get_record initialize_empty_page [x41; x42]).
  vm_compute. reflexivity.
Defined.

(** X5. Whatever the page, a successful insert took a record of at most
    4088 bytes and returned a slot index between 0 and 1022; the empty
    page accepts a record exactly when it is at most 4088 bytes long. *)
Theorem page_capacity_bounds (record : bytes) :
  (forall page page' slot,
     insert_record_into_page page record = Ok (page', slot) ->
     len record <= 4088 /\ 0 <= slot <= 1022) /\
  ((exists page', insert_record_into_page initialize_empty_page record
                  = Ok (page', 0))
   <-> len record <= 4088).
Proof.
  split.
  - intros page page' slot Hins.
    destruct (insert_record_into_page_Ok_inv _ _ _ _ Hins)
      as (sc & fo & Hf & Hfit & _ & ->).
    destruct (read_footer_inv _ _ _ Hf) as (_ & _ & _ & Hsc & Hfo).
    pose proof (len_nonneg record). lia.
  - split.
    + intros [page' Hins].
      destruct (insert_record_into_page_Ok_inv _ _ _ _ Hins)
        as (sc & fo & Hf & Hfit & _ & _).
      destruct (read_footer_inv _ _ _ Hf) as (_ & _ & _ & Hsc & Hfo). lia.
    + intros Hl. exists (insert_image initialize_empty_page record 0 0).
      apply insert_record_into_page_fits;
        [apply read_footer_initialize_empty_page|lia].
Qed.

Lemma concat_segments (page : bytes) (recs : list bytes) :
  total recs <= len page ->
  (forall (i : nat) (r : bytes), recs !! i = Some r ->
     seg page (total (take i recs)) (len r) = r) ->
  seg page 0 (total recs) = concat recs.
Proof.
  induction recs as [|r recs IH] using rev_ind; intros Hb Hs.
  - reflexivity.
  - rewrite total_app, total_singleton in *. rewrite concat_app. simpl.
    rewrite app_nil_r. pose proof (total_nonneg recs). pose proof (len_nonneg r).
    assert (Hr : seg page (total recs) (len r) = r).
    { specialize (Hs (length recs) r).
      rewrite take_app_length in Hs. apply Hs.
      rewrite lookup_app_r by lia. rewrite Nat.sub_diag. reflexivity. }
    assert (Hrecs : seg page 0 (total recs) = concat recs).
    { apply IH; [lia|]. intros i r' Hi. specialize (Hs i r').
      pose proof (lookup_lt_Some _ _ _ Hi).
      rewrite take_app_le in Hs by lia. apply Hs.
      rewrite lookup_app_l by lia. exact Hi. }
    transitivity (seg page 0 (total recs) ++ seg page (total recs) (len r));
      [|rewrite Hrecs, Hr; reflexivity].
    unfold seg. simpl. rewrite drop_0.
    rewrite Z2Nat.inj_add by lia. symmetry. apply take_take_drop.
Qed.

Lemma insert_records_into_page_fit (records : list bytes) :
  forall (pre : list bytes) (page : bytes),
    page_repr pre page ->
    total (pre ++ records) + 4 * len (pre ++ records) <= 4092 ->
    exists page',
      insert_records_into_page page records
      = Ok (page', seqZ (len pre) (len records)) /\
      page_repr (pre ++ records) page'.
Proof.
  induction records as [|r records IH]; intros pre page Hrepr Hcap.
  - exists page. rewrite app_nil_r. split; [reflexivity|exact Hrepr].
  - pose proof (total_nonneg records) as Ht. pose proof (len_nonneg records) as Hn.
    pose proof (len_nonneg r) as Hr.
    rewrite total_app, total_cons, len_app in Hcap.
    assert (Hlen : len (r :: records) = len records + 1)
      by (unfold len; simpl length; lia).
    rewrite Hlen in Hcap.
    assert (Hfit : fits pre r) by (unfold fits; lia).
    cbn [insert_records_into_page].
    rewrite (page_repr_insert_record pre page r Hrepr).
    destruct (decide (fits pre r)) as [_|Hno]; [|contradiction]. cbn [bind].
    destruct (IH (pre ++ [r]) _ (page_repr_insert pre page r Hrepr Hfit))
      as (page' & Hins & Hrepr').
    { rewrite <- app_assoc. cbn [app].
      rewrite total_app, total_cons, len_app, Hlen. lia. }
    exists page'. rewrite Hins. cbn [bind].
    rewrite <- app_assoc in Hrepr'. split; [|exact Hrepr'].
    rewrite len_snoc, Hlen. rewrite (seqZ_cons (len pre)) by lia.
    do 4 f_equal; lia.
Qed.

Lemma insert_records_into_page_full (records : list bytes) :
  forall (pre : list bytes) (page : bytes),
    page_repr pre page ->
    4092 < total (pre ++ records) + 4 * len (pre ++ records) ->
    insert_records_into_page page records = Err ValueError.
Proof.
  induction records as [|r records IH]; intros pre page Hrepr Hcap.
  - rewrite app_nil_r in Hcap. destruct Hrepr as (_ & Hle & _). lia.
  - cbn [insert_records_into_page].
    rewrite (page_repr_insert_record pre page r Hrepr).
    destruct (decide (fits pre r)) as [Hfit|Hno]; [|reflexivity]. cbn [bind].
    rewrite (IH (pre ++ [r]) _ (page_repr_insert pre page r Hrepr Hfit));
      [reflexivity|].
    rewrite <- app_assoc. exact Hcap.
Qed.

(** X6. Inserting the records of a list one after the other into an empty
    page succeeds exactly when their bytes and one slot entry for each fit
    below the footer, and fails with ValueError otherwise. On success the
    inserts return the slots 0, 1, 2, ... and the page holds the inserted
    records in insertion order: the footer counts them and gives their
    total length as the free offset, slot [i] designates the [i]-th
    record, which starts where the records before it end, reading slot
    [i] returns that record, and the bytes below the free offset are the
    records one after the other, without gaps. *)
Theorem inserted_records_packed_in_order (records : list bytes) :
  (total records + SLOT_ENTRY_SIZE * len records <= PAGE_SIZE - FOOTER_SIZE ->
   exists page : bytes,
     insert_records_into_page initialize_empty_page records
     = Ok (page, seqZ 0 (len records)) /\
     _read_footer page = Ok (len records, total records) /\
     py_slice page 0 (total records) = concat records /\
     forall (i : nat) (r : bytes), records !! i = Some r ->
       _read_slot page (Z.of_nat i) (len records)
       = Ok (total (take i records), len r) /\
       get_record_from_page page (Z.of_nat i) = Ok r) /\
  (PAGE_SIZE - FOOTER_SIZE < total records + SLOT_ENTRY_SIZE * len records ->
   insert_records_into_page initialize_empty_page records = Err ValueError).
Proof.
  unfold PAGE_SIZE, FOOTER_SIZE, SLOT_ENTRY_SIZE. split.
  - intros Hcap.
    destruct (insert_records_into_page_fit records [] _ page_repr_empty)
      as (page & Hins & Hrepr); [cbn [app]; lia|].
    cbn [app] in Hrepr. exists page. split; [exact Hins|].
    pose proof Hrepr as (Hf & _ & Hslots).
    pose proof (page_repr_len _ _ Hrepr) as Hl.
    pose proof (total_nonneg records). pose proof (len_nonneg records).
    split; [exact Hf|]. split.
    + rewrite py_slice_seg by lia. rewrite Z.sub_0_r.
      apply concat_segments; [lia|]. intros i r Hi. apply (Hslots i r Hi).
    + intros i r Hi. split; [apply (Hslots i r Hi)|].
      apply (page_repr_get_record records); assumption.
  - intros Hcap.
    apply (insert_records_into_page_full records [] _ page_repr_empty).
    cbn [app]. lia.
Qed.

(** * Further properties of the heap-file manager *)

Lemma file_pages_insert (fs : filesystem) (fname : pystr) (pages : list bytes) :
  Forall (fun pg => len pg = PAGE_SIZE) pages ->
  file_pages (<[fname := concat pages]> fs) fname pages.
Proof. intros Hl. split; [apply lookup_insert_eq|exact Hl]. Qed.

Lemma file_pages_created (fs : filesystem) (fname : pystr) :
  file_pages (create_heap_file fs fname) fname [initialize_empty_page].
Proof.
  split.
  - unfold create_heap_file. rewrite lookup_insert_eq.
    change (concat [initialize_empty_page]) with (initialize_empty_page ++ []).
    rewrite app_nil_r. reflexivity.
  - constructor; [apply len_initialize_empty_page|constructor].
Qed.

Lemma Forall_len_insert (pages : list bytes) (j : nat) (pg : bytes) :
  Forall (fun pg => len pg = PAGE_SIZE) pages -> len pg = PAGE_SIZE ->
  Forall (fun pg => len pg = PAGE_SIZE) (<[j := pg]> pages).
Proof. intros Hl Hpg. apply Forall_insert; assumption. Qed.

(** What [read_page] returns on a file of whole pages: a page number
    outside the file raises IOError, or the ValueError of [f.seek] when
    the offset does not fit a signed 64-bit integer. *)
Lemma read_page_file_pages (fs : filesystem) (fname : pystr) (pages : list bytes)
    (p : Z) :
  file_pages fs fname pages ->
  read_page fs fname p
  = if decide (0 <= p)
    then from_option Ok
           (Err (if 2 ^ 63 <=? p * PAGE_SIZE then ValueError else IOError))
           (pages !! Z.to_nat p)
    else Err (if p * PAGE_SIZE <? - 2 ^ 63 then ValueError else IOError).
Proof.
  intros [Hfile Hlen]. destruct (decide (0 <= p)) as [Hp|Hp].
  - destruct (pages !! Z.to_nat p) as [pg|] eqn:E.
    + rewrite <- (Z2Nat.id p) by lia.
      apply (read_page_pages fs fname pages Hfile Hlen _ _ E).
    + apply lookup_ge_None in E. unfold read_page. rewrite Hfile.
      pose proof (len_concat_uniform pages 4096 Hlen) as Hc.
      assert (Hge : len (concat pages) <= p * PAGE_SIZE)
        by (unfold len, PAGE_SIZE in *; lia).
      rewrite (file_seek_beyond _ _ Hge). cbn [from_option].
      destruct (2 ^ 63 <=? p * PAGE_SIZE); [reflexivity|]. cbn [bind].
      rewrite py_slice_beyond by exact Hge. reflexivity.
  - unfold read_page. rewrite Hfile.
    rewrite file_seek_negative by (unfold PAGE_SIZE; lia). reflexivity.
Qed.

Lemma read_page_outside (fs : filesystem) (fname : pystr) (pages : list bytes)
    (p : Z) :
  file_pages fs fname pages -> ~ 0 <= p < len pages ->
  read_page fs fname p
  = Err (if (p * PAGE_SIZE <? - 2 ^ 63) || (2 ^ 63 <=? p * PAGE_SIZE)
         then ValueError else IOError).
Proof.
  intros Hfp Hp. rewrite (read_page_file_pages _ _ _ p Hfp).
  destruct (decide (0 <= p)) as [Hp0|Hp0].
  - destruct (pages !! Z.to_nat p) as [pg|] eqn:E.
    + apply lookup_lt_Some in E. unfold len in Hp. lia.
    + cbn [from_option].
      replace (p * PAGE_SIZE <? - 2 ^ 63) with false; [reflexivity|].
      symmetry. apply Z.ltb_ge. unfold PAGE_SIZE. lia.
  - replace (2 ^ 63 <=? p * PAGE_SIZE) with false;
      [rewrite orb_false_r; reflexivity|].
    symmetry. apply Z.leb_gt. unfold PAGE_SIZE. lia.
Qed.

(** X7. [create_heap_file] leaves a file of exactly one page, whatever
    the file held before: page 0 is the empty page (4096 zero bytes,
    footer (0, 0), 4092 free bytes, no slot to read), reading any other
    page number raises an exception (ValueError, from [f.seek], when
    page_num * 4096 does not fit a signed 64-bit file offset, and IOError
    otherwise), a scan returns no record, and no other file is touched. *)
Theorem create_heap_file_one_empty_page (fs : filesystem) (fname : pystr) :
  getsize (create_heap_file fs fname) fname = Ok PAGE_SIZE /\
  read_page (create_heap_file fs fname) fname 0 = Ok initialize_empty_page /\
  (forall p, p <> 0 ->
     read_page (create_heap_file fs fname) fname p
     = Err (if (p * PAGE_SIZE <? - 2 ^ 63) || (2 ^ 63 <=? p * PAGE_SIZE)
            then ValueError else IOError)) /\
  get_all_raw_records (create_heap_file fs fname) fname = Ok [] /\
  (forall other, other <> fname -> create_heap_file fs fname !! other = fs !! other) /\
  initialize_empty_page = zeros PAGE_SIZE /\
  _read_footer initialize_empty_page = Ok (0, 0) /\
  free_space_in_page initialize_empty_page = Ok 4092 /\
  forall i, get_record_from_page initialize_empty_page i = Err IndexError.
Proof.
  pose proof (file_pages_created fs fname) as Hfp.
  split; [|split; [|split; [|split; [|split; [|split; [|split; [|split]]]]]]].
  - unfold getsize, create_heap_file. rewrite lookup_insert_eq.
    rewrite len_initialize_empty_page. reflexivity.
  - rewrite (read_page_file_pages _ _ _ 0 Hfp). reflexivity.
  - intros p Hp. apply (read_page_outside _ _ _ p Hfp).
    unfold len. simpl. lia.
  - destruct Hfp as [Hfile _].
    rewrite (get_all_raw_records_pages _ _ _ [[]] Hfile); [reflexivity|].
    change (concat [initialize_empty_page]) with (initialize_empty_page ++ []).
    rewrite app_nil_r. apply heap_repr_created.
  - intros other Ho. unfold create_heap_file. apply lookup_insert_ne. congruence.
  - vm_compute. reflexivity.
  - apply read_footer_initialize_empty_page.
  - rewrite (free_space_footer _ 0 0 read_footer_initialize_empty_page). reflexivity.
  - intros i. unfold get_record_from_page.
    rewrite read_footer_initialize_empty_page. cbn [bind].
    rewrite read_slot_out_of_range by lia. reflexivity.
Qed.

(** X8. [read_page] raises IOError when the file does not exist,
    whatever the page number. On a file of [n] whole pages it returns
    page [p] for [0 <= p < n]; for every other page number it raises
    ValueError (from [f.seek]) when page_num * 4096 does not fit a signed
    64-bit file offset, and IOError otherwise. *)
Theorem read_page_result (fs : filesystem) (fname : pystr) (p : Z) :
  (fs !! fname = None -> read_page fs fname p = Err IOError) /\
  (forall pages, file_pages fs fname pages ->
     (forall page, read_page fs fname p = Ok page
                   <-> 0 <= p < len pages /\ pages !! Z.to_nat p = Some page) /\
     (~ 0 <= p < len pages ->
      read_page fs fname p
      = Err (if (p * PAGE_SIZE <? - 2 ^ 63) || (2 ^ 63 <=? p * PAGE_SIZE)
             then ValueError else IOError))).
Proof.
  split.
  - apply read_page_missing.
  - intros pages Hfp. split; [|apply (read_page_outside _ _ _ p Hfp)].
    rewrite (read_page_file_pages _ _ _ p Hfp).
    destruct (decide (0 <= p)) as [Hp|Hp].
    + destruct (pages !! Z.to_nat p) as [pg|] eqn:E; simpl.
      * pose proof (lookup_lt_Some _ _ _ E).
        intros page. split.
        -- intros [= ->]. unfold len. split; [lia|reflexivity].
        -- intros [_ [= ->]]. reflexivity.
      * intros page. split; [discriminate|]. intros [_ ?]. discriminate.
    + intros page. split; [discriminate|]. lia.
Qed.

(** X9. On a file of whole pages, [write_page] of 4096 bytes to an
    existing page number replaces that page and nothing else: reading the
    page returns the data written, every other page number reads as
    before, the file keeps its size, and other files are untouched. *)
Theorem write_page_then_read (fs : filesystem) (fname : pystr)
    (pages : list bytes) (p : Z) (page_data : bytes) :
  file_pages fs fname pages ->
  0 <= p < len pages ->
  len page_data = PAGE_SIZE ->
  exists fs',
    write_page fs fname p page_data = (fs', Ok tt) /\
    file_pages fs' fname (<[Z.to_nat p := page_data]> pages) /\
    read_page fs' fname p = Ok page_data /\
    (forall q, q <> p -> read_page fs' fname q = read_page fs fname q) /\
    getsize fs' fname = getsize fs fname /\
    forall other, other <> fname -> fs' !! other = fs !! other.
Proof.
  intros Hfp Hp Hd. pose proof Hfp as [Hfile Hlen].
  assert (Hlt : (Z.to_nat p < length pages)%nat) by (unfold len in Hp; lia).
  pose proof (write_page_pages fs fname pages Hfile Hlen (Z.to_nat p) page_data
                Hlt Hd) as Hw.
  rewrite Z2Nat.id in Hw by lia.
  assert (Hlen' : Forall (fun pg => len pg = PAGE_SIZE)
                         (<[Z.to_nat p := page_data]> pages))
    by (apply Forall_len_insert; assumption).
  pose proof (file_pages_insert fs fname _ Hlen') as Hfp'.
  eexists. split; [exact Hw|]. split; [exact Hfp'|]. split; [|split; [|split]].
  - rewrite (read_page_file_pages _ _ _ p Hfp').
    destruct (decide (0 <= p)); [|lia].
    rewrite list_lookup_insert_eq by exact Hlt. reflexivity.
  - intros q Hq. rewrite (read_page_file_pages _ _ _ q Hfp').
    rewrite (read_page_file_pages _ _ _ q Hfp).
    destruct (decide (0 <= q)); [|reflexivity].
    rewrite list_lookup_insert_ne by lia. reflexivity.
  - rewrite (getsize_pages _ _ _ (proj1 Hfp') Hlen').
    rewrite (getsize_pages _ _ _ Hfile Hlen).
    unfold len. rewrite length_insert. reflexivity.
  - intros other Ho. apply lookup_insert_ne. congruence.
Qed.

Lemma write_page_then_read_witness :
  exists fs',
    write_page (create_heap_file ∅ (str "t.heap")) (str "t.heap") 0
               (insert_image initialize_empty_page [x41] 0 0) = (fs', Ok tt) /\
    file_pages fs' (str "t.heap")
               (<[Z.to_nat 0 := insert_image initialize_empty_page [x41] 0 0]>
                  [initialize_empty_page]) /\
    read_page fs' (str "t.heap") 0
    = Ok (insert_image initialize_empty_page [x41] 0 0) /\
    (forall q, q <> 0 -> read_page fs' (str "t.heap") q
                         = read_page (create_heap_file ∅ (str "t.heap"))
                                     (str "t.heap") q) /\
    getsize fs' (str "t.heap")
    = getsize (create_heap_file ∅ (str "t.heap")) (str "t.heap") /\
    forall other, other <> str "t.heap" ->
      fs' !! other = create_heap_file ∅ (str "t.heap") !! other.
Proof.
  apply (write_page_then_read (create_heap_file ∅ (str "t.heap")) (str "t.heap")
           [initialize_empty_page] 0 (insert_image initialize_empty_page [x41] 0 0)).
  - apply file_pages_created.
  - vm_compute. split; [discriminate|reflexivity].
  - vm_compute. reflexivity.
Defined.

(** X10. [append_page] of 4096 bytes to a file of [n] whole pages, or to
    a file that does not exist yet ([n = 0]), adds the data as page [n]:
    the file has [n + 1] whole pages, page [n] reads back as the data,
    the pages before it read as before, and other files are untouched. *)
Theorem append_page_then_read (fs : filesystem) (fname : pystr)
    (pages : list bytes) (page_data : bytes) :
  (fs !! fname = None /\ pages = []) \/ file_pages fs fname pages ->
  len page_data = PAGE_SIZE ->
  exists fs',
    append_page fs fname page_data = (fs', Ok tt) /\
    file_pages fs' fname (pages ++ [page_data]) /\
    getsize fs' fname = Ok (PAGE_SIZE * (len pages + 1)) /\
    read_page fs' fname (len pages) = Ok page_data /\
    (forall q, 0 <= q < len pages -> read_page fs' fname q = read_page fs fname q) /\
    forall other, other <> fname -> fs' !! other = fs !! other.
Proof.
  intros Hfile Hd.
  assert (Hlen : Forall (fun pg => len pg = PAGE_SIZE) pages).
  { destruct Hfile as [[_ ->]|[_ Hl]]; [constructor|exact Hl]. }
  assert (Hlen' : Forall (fun pg => len pg = PAGE_SIZE) (pages ++ [page_data])).
  { apply Forall_app. split; [exact Hlen|]. constructor; [exact Hd|constructor]. }
  assert (Ha : append_page fs fname page_data
               = (<[fname := concat (pages ++ [page_data])]> fs, Ok tt)).
  { destruct Hfile as [[Hnone ->]|[Hsome _]].
    - unfold append_page. rewrite Hd, Hnone. simpl. rewrite app_nil_r. reflexivity.
    - apply (append_page_pages fs fname pages Hsome). exact Hd. }
  pose proof (file_pages_insert fs fname _ Hlen') as Hfp'.
  eexists. split; [exact Ha|]. split; [exact Hfp'|]. split; [|split; [|split]].
  - rewrite (getsize_pages _ _ _ (proj1 Hfp') Hlen'). rewrite len_snoc. reflexivity.
  - rewrite (read_page_file_pages _ _ _ _ Hfp').
    pose proof (len_nonneg pages).
    destruct (decide (0 <= len pages)); [|lia].
    unfold len. rewrite Nat2Z.id.
    rewrite lookup_app_r by lia. rewrite Nat.sub_diag. reflexivity.
  - intros q Hq. rewrite (read_page_file_pages _ _ _ q Hfp').
    destruct Hfile as [[_ ->]|Hfp]; [unfold len in Hq; simpl in Hq; lia|].
    rewrite (read_page_file_pages _ _ _ q Hfp).
    destruct (decide (0 <= q)); [|reflexivity].
    rewrite lookup_app_l by (unfold len in Hq; lia). reflexivity.
  - intros other Ho. apply lookup_insert_ne. congruence.
Qed.

Lemma append_page_then_read_witness :
  exists fs',
    append_page ∅ (str "t.heap") initialize_empty_page = (fs', Ok tt) /\
    file_pages fs' (str "t.heap") ([] ++ [initialize_empty_page]) /\
    getsize fs' (str "t.heap") = Ok (PAGE_SIZE * (len (@nil bytes) + 1)) /\
    read_page fs' (str "t.heap") (len (@nil bytes)) = Ok initialize_empty_page /\
    (forall q, 0 <= q < len (@nil bytes) ->
       read_page fs' (str "t.heap") q = read_page ∅ (str "t.heap") q) /\
    forall other, other <> str "t.heap" -> fs' !! other = (∅ : filesystem) !! other.
Proof.
  apply (append_page_then_read ∅ (str "t.heap") [] initialize_empty_page).
  - left. split; reflexivity.
  - vm_compute. reflexivity.
Defined.

(** [read_page] around the ends of the signed 64-bit offsets, on a file
    of one page: page numbers 2^51 and -2^51 - 1 give offsets that do not
    fit, page numbers 2^51 - 1, -2^51, 1 and -1 give offsets that fit. *)
Example read_page_offset_limits :
  let fs := create_heap_file ∅ (str "t.heap") in
  read_page fs (str "t.heap") (2 ^ 51) = Err ValueError /\
  read_page fs (str "t.heap") (- 2 ^ 51 - 1) = Err ValueError /\
  read_page fs (str "t.heap") (2 ^ 51 - 1) = Err IOError /\
  read_page fs (str "t.heap") (- 2 ^ 51) = Err IOError /\
  read_page fs (str "t.heap") 1 = Err IOError /\
  read_page fs (str "t.heap") (-1) = Err IOError.
Proof. vm_compute. repeat split. Qed.

(** * Further properties of [insert_record] and the scan *)

Lemma write_page_other_files (fs : filesystem) (fname : pystr) (p : Z)
    (page_data : bytes) (other : pystr) :
  other <> fname -> (write_page fs fname p page_data).1 !! other = fs !! other.
Proof.
  intros Ho. unfold write_page.
  destruct (negb (len page_data =? PAGE_SIZE)); [reflexivity|].
  destruct (fs !! fname) as [content|]; [|reflexivity].
  destruct (file_seek content (p * PAGE_SIZE)); [|reflexivity].
  simpl. apply lookup_insert_ne. congruence.
Qed.

Lemma append_page_other_files (fs : filesystem) (fname : pystr)
    (page_data : bytes) (other : pystr) :
  other <> fname -> (append_page fs fname page_data).1 !! other = fs !! other.
Proof.
  intros Ho. unfold append_page.
  destruct (negb (len page_data =? PAGE_SIZE)); [reflexivity|].
  simpl. apply lookup_insert_ne. congruence.
Qed.

Lemma insert_record_loop_other_files (fname : pystr) (record : bytes)
    (other : pystr) (ps : list Z) :
  other <> fname ->
  forall (fs fs' : filesystem) (res : result (Z * Z)),
    insert_record_loop fs fname record ps = Some (fs', res) ->
    fs' !! other = fs !! other.
Proof.
  intros Ho. induction ps as [|p ps IH]; intros fs fs' res; simpl.
  - discriminate.
  - destruct (read_page fs fname p) as [page|e]; [|intros [= <- _]; reflexivity].
    destruct (insert_record_into_page page record) as [[new_page slot]|e].
    + pose proof (write_page_other_files fs fname p new_page other Ho) as Hw.
      destruct (write_page fs fname p new_page) as [fs1 [u|e]]; simpl in Hw.
      * intros [= <- _]. exact Hw.
      * destruct (is_ValueError e).
        -- intros Hl. rewrite (IH _ _ _ Hl). exact Hw.
        -- intros [= <- _]. exact Hw.
    + destruct (is_ValueError e); [apply IH|intros [= <- _]; reflexivity].
Qed.

Lemma insert_record_frame (fs : filesystem) (fname : pystr)
    (record : bytes) (other : pystr) :
  other <> fname ->
  (insert_record fs fname record).1 !! other = fs !! other.
Proof.
  intros Ho. unfold insert_record.
  set (fs0 := if negb (path_exists fs fname)
                 || match getsize fs fname with Ok n => n =? 0 | Err _ => false end
              then create_heap_file fs fname else fs).
  assert (H0 : fs0 !! other = fs !! other).
  { unfold fs0. destruct (_ || _); [|reflexivity].
    unfold create_heap_file. apply lookup_insert_ne. congruence. }
  destruct (getsize fs0 fname) as [file_size|e]; [|exact H0].
  destruct (insert_record_loop fs0 fname record (seqZ 0 (file_size / PAGE_SIZE)))
    as [[fs' res]|] eqn:El.
  - simpl. rewrite (insert_record_loop_other_files _ _ _ _ Ho _ _ _ El). exact H0.
  - destruct (insert_record_into_page initialize_empty_page record)
      as [[pg_bytes slot]|e]; [|exact H0].
    pose proof (append_page_other_files fs0 fname pg_bytes other Ho) as Ha.
    destruct (append_page fs0 fname pg_bytes) as [fs' [u|e]]; simpl in *;
      rewrite Ha; exact H0.
Qed.

(** X11. [insert_record] touches no file but its own: whatever the file
    system, the file name and the record, and whether the call returns or
    raises, every other file has the contents it had before. *)
Theorem insert_record_other_files (fs : filesystem) (fname : pystr)
    (record : bytes) (other : pystr) :
  other <> fname ->
  (insert_record fs fname record).1 !! other = fs !! other.
Proof. apply insert_record_frame. Qed.

Lemma insert_record_other_files_witness :
  (insert_record (<[str "b.heap" := [x01]]> ∅) (str "a.heap") [x41]).1 !! str "b.heap"
  = (<[str "b.heap" := [x01]]> ∅ : filesystem) !! str "b.heap".
Proof.
  apply (insert_record_other_files (<[str "b.heap" := [x01]]> ∅) (str "a.heap")
           [x41] (str "b.heap")).
  vm_compute. discriminate.
Defined.

(** The outcome of [insert_record] on a file of whole pages: a record
    longer than 4088 bytes raises ValueError and changes nothing; a
    shorter one goes into one page [j], an old one or a fresh last one,
    and the other pages stay. *)
Lemma insert_record_outcome (fs : filesystem) (fname : pystr)
    (pages : list bytes) (r : bytes) :
  file_pages fs fname pages -> pages <> [] ->
  (4088 < len r /\ insert_record fs fname r = (fs, Err ValueError)) \/
  (len r <= 4088 /\
   exists (j : nat) (pg pg' : bytes) (slot : Z) (pages' : list bytes),
     insert_record fs fname r
     = (<[fname := concat pages']> fs, Ok (Z.of_nat j, slot)) /\
     insert_record_into_page pg r = Ok (pg', slot) /\
     Forall (fun pg => len pg = PAGE_SIZE) pages' /\
     pages' !! j = Some pg' /\
     (forall q, q <> j -> pages' !! q = pages !! q) /\
     ((pages !! j = Some pg /\ length pages' = length pages) \/
      (j = length pages /\ pg = initialize_empty_page /\
       length pages' = S (length pages)))).
Proof.
  intros Hfp Hne. pose proof Hfp as [Hfile Hlen].
  pose proof (insert_record_first_fit_pages fs fname pages r Hfp Hne) as Hins.
  destruct (list_find (fun pg => page_has_room pg r) pages) as [[j pg]|] eqn:Efind.
  - apply list_find_Some in Efind as (Hj & Hroom & _). apply Is_true_eq_true in Hroom.
    pose proof (page_has_room_small _ _ Hroom) as Hsmall.
    destruct (page_has_room_true _ _ Hroom) as (sc & fo & Hf & Hfit & Hpage).
    rewrite Hpage in Hins. right. split; [exact Hsmall|].
    destruct (read_footer_inv _ _ _ Hf) as (Hl & _ & _ & Hsc & Hfo).
    unfold PAGE_SIZE in Hl.
    pose proof (lookup_lt_Some _ _ _ Hj) as Hlt.
    exists j, pg, (insert_image pg r sc fo), sc, (<[j := insert_image pg r sc fo]> pages).
    split; [exact Hins|]. split; [exact Hpage|]. split; [|split; [|split]].
    + apply Forall_len_insert; [exact Hlen|]. apply len_insert_image; lia.
    + apply list_lookup_insert_eq. exact Hlt.
    + intros q Hq. apply list_lookup_insert_ne. congruence.
    + left. split; [exact Hj|apply length_insert].
  - destruct (page_has_room initialize_empty_page r) eqn:E.
    + pose proof (page_has_room_small _ _ E) as Hsmall.
      destruct (page_has_room_true _ _ E) as (sc & fo & Hf & Hfit & Hpage).
      rewrite Hpage in Hins. right. split; [exact Hsmall|].
      destruct (read_footer_inv _ _ _ Hf) as (Hl & _ & _ & Hsc & Hfo).
      unfold PAGE_SIZE in Hl.
      exists (length pages), initialize_empty_page,
        (insert_image initialize_empty_page r sc fo), sc,
        (pages ++ [insert_image initialize_empty_page r sc fo]).
      split; [exact Hins|]. split; [exact Hpage|]. split; [|split; [|split]].
      * apply Forall_app. split; [exact Hlen|].
        constructor; [apply len_insert_image; lia|constructor].
      * rewrite lookup_app_r by lia. rewrite Nat.sub_diag. reflexivity.
      * intros q Hq. destruct (decide (q < length pages)%nat) as [Hlt|Hge].
        -- apply lookup_app_l. exact Hlt.
        -- rewrite (proj2 (lookup_ge_None pages q)) by lia.
           apply lookup_ge_None. rewrite length_app. simpl. lia.
      * right. split; [reflexivity|]. split; [reflexivity|].
        rewrite length_app. simpl. lia.
    + left. rewrite (page_has_room_false _ _ E) in Hins. split; [|exact Hins].
      destruct (Z_lt_le_dec 4088 (len r)) as [Hbig|Hsmall]; [exact Hbig|].
      apply page_has_room_empty in Hsmall. congruence.
Qed.

(** A file that is absent or empty is created first. *)
Lemma insert_record_start (fs : filesystem) (fname : pystr) (pages : list bytes)
    (r : bytes) :
  (fs !! fname = None /\ pages = []) \/ file_pages fs fname pages ->
  exists fs0 pages0,
    insert_record fs fname r = insert_record fs0 fname r /\
    file_pages fs0 fname pages0 /\ pages0 <> [] /\
    (pages = [] /\ pages0 = [initialize_empty_page] \/
     pages <> [] /\ pages0 = pages /\ fs0 = fs).
Proof.
  intros Hfile.
  destruct pages as [|pg pages].
  - exists (create_heap_file fs fname), [initialize_empty_page].
    split; [|split; [apply file_pages_created|split; [discriminate|]]].
    + apply insert_record_created.
      destruct Hfile as [[Hn _]|[Hs _]]; [left; exact Hn|right; exact Hs].
    + left. split; reflexivity.
  - destruct Hfile as [[_ ?]|Hfp]; [discriminate|].
    exists fs, (pg :: pages).
    split; [reflexivity|split; [exact Hfp|split; [discriminate|]]].
    right. split; [discriminate|]. split; reflexivity.
Qed.



(** X13. On a file of whole pages, or one that does not exist yet, the
    address [insert_record] returns leads back to the record: reading
    the page of that number from the file and then the slot of that index
    gives the record inserted, and every other page that could be read
    before reads the same. *)
Theorem insert_record_then_read (fs : filesystem) (fname : pystr)
    (pages : list bytes) (record : bytes) (fs' : filesystem) (p s : Z) :
  (fs !! fname = None /\ pages = []) \/ file_pages fs fname pages ->
  insert_record fs fname record = (fs', Ok (p, s)) ->
  exists page',
    read_page fs' fname p = Ok page' /\
    get_record_from_page page' s = Ok record /\
    forall q pg, q <> p -> read_page fs fname q = Ok pg ->
                 read_page fs' fname q = Ok pg.
Proof.
  intros Hfile Hins.
  destruct (insert_record_start fs fname pages record Hfile)
    as (fs0 & pages0 & E0 & Hfp0 & Hne0 & Hcase).
  rewrite E0 in Hins.
  destruct (insert_record_outcome fs0 fname pages0 record Hfp0 Hne0)
    as [[_ Hr]|(_ & j & pg & pg' & slot & pages' & Hr & Hpg & Hlen' & Hj & Hothers & _)];
    rewrite Hr in Hins; [discriminate|].
  injection Hins as <- <- <-.
  pose proof (file_pages_insert fs0 fname pages' Hlen') as Hfp'.
  exists pg'. split; [|split].
  - rewrite (read_page_file_pages _ _ _ _ Hfp').
    destruct (decide (0 <= Z.of_nat j)); [|lia].
    rewrite Nat2Z.id, Hj. reflexivity.
  - apply (insert_record_into_page_get _ _ _ _ Hpg).
  - intros q pg0 Hq Hread.
    destruct Hcase as [[-> _]|(_ & -> & ->)].
    + destruct (read_page_absent fs fname q) as [e He];
        [destruct Hfile as [[Hn _]|[Hs _]]; [left; exact Hn|right; exact Hs]|].
      rewrite He in Hread. discriminate.
    + rewrite (read_page_file_pages _ _ _ q Hfp0) in Hread.
      rewrite (read_page_file_pages _ _ _ q Hfp').
      destruct (decide (0 <= q)); [|discriminate].
      rewrite Hothers by lia. exact Hread.
Qed.

Lemma insert_record_then_read_witness :
  exists page',
    read_page (insert_record ∅ (str "t.heap") [x41]).1 (str "t.heap") 0 = Ok page' /\
    get_record_from_page page' 0 = Ok [x41] /\
    forall q pg, q <> 0 -> read_page ∅ (str "t.heap") q = Ok pg ->
                 read_page (insert_record ∅ (str "t.heap") [x41]).1 (str "t.heap") q
                 = Ok pg.
Proof.
  apply (insert_record_then_read ∅ (str "t.heap") [] [x41]
           (insert_record ∅ (str "t.heap") [x41]).1 0 0).
  - left. split; reflexivity.
  - vm_compute. reflexivity.
Defined.

Lemma abs_insert_all_length (recs : list bytes) :
  forall (pages pages' : list (list bytes)) (addrs : list (Z * Z)),
    abs_insert_all pages recs = Some (pages', addrs) ->
    (length pages <= length pages')%nat.
Proof.
  induction recs as [|r recs IH]; intros pages pages' addrs; simpl.
  - intros [= <- _]. lia.
  - destruct (abs_insert pages r) as [[pages1 a]|] eqn:E1; [|discriminate].
    destruct (abs_insert_all pages1 recs) as [[pages2 addrs2]|] eqn:E2; [|discriminate].
    intros [= <- _]. pose proof (abs_insert_length _ _ _ _ E1).
    pose proof (IH _ _ _ E2). lia.
Qed.

(** After inserts into a file that was absent, the file holds a heap. *)
Lemma insert_all_heap (fs0 : filesystem) (fname : pystr) (recs : list bytes)
    (fs : filesystem) (addrs : list (Z * Z)) :
  fs0 !! fname = None \/ fs0 !! fname = Some [] ->
  insert_all fs0 fname recs = (fs, Ok addrs) ->
  recs <> [] ->
  exists pages content,
    fs !! fname = Some content /\ heap_repr pages content /\ pages <> [].
Proof.
  intros Hfresh Hall Hne. destruct recs as [|r recs]; [congruence|].
  pose proof (insert_all_fresh fs0 fname r recs Hfresh) as H.
  destruct (abs_insert_all [[]] (r :: recs)) as [[pages' addrs']|] eqn:E.
  - destruct H as (fs1 & content' & Hall' & Hfile & Hrepr).
    rewrite Hall in Hall'. injection Hall' as <- _.
    exists pages', content'. split; [exact Hfile|]. split; [exact Hrepr|].
    pose proof (abs_insert_all_length _ _ _ _ E) as Hl.
    intros ->. simpl in Hl. lia.
  - destruct H as (fs1 & Hall'). rewrite Hall in Hall'. discriminate.
Qed.

Lemma sorted_addresses_NoDup (l : list (Z * Z * bytes)) :
  StronglySorted entry_lt l -> NoDup ((fun e => e.1) <$> l).
Proof.
  induction 1 as [|e l Hs IH Hall]; simpl; constructor; [|exact IH].
  intros Hin. apply list_elem_of_fmap in Hin as (e' & He & Hin').
  rewrite Forall_forall in Hall. specialize (Hall e' Hin').
  unfold entry_lt in Hall. rewrite He in Hall. lia.
Qed.

(** One more insert into a heap adds one entry to the scan. *)
Lemma insert_record_scan_heap (fs : filesystem) (fname : pystr) (content r : bytes)
    (pages : list (list bytes)) (fs' : filesystem) (a : Z * Z) :
  fs !! fname = Some content -> heap_repr pages content -> pages <> [] ->
  insert_record fs fname r = (fs', Ok a) ->
  exists pages',
    get_all_raw_records fs' fname = Ok (heap_entries 0 pages') /\
    heap_entries 0 pages' ≡ₚ (a.1, a.2, r) :: heap_entries 0 pages.
Proof.
  intros Hfile Hrepr Hne Hins.
  pose proof (insert_record_pages fs fname content r pages Hfile Hrepr Hne) as H.
  destruct (abs_insert pages r) as [[pages' a']|] eqn:E.
  - destruct H as (content' & Hrepr' & Hins'). rewrite Hins in Hins'.
    injection Hins' as -> ->. exists pages'. split.
    + apply (get_all_raw_records_pages _ _ content'); [apply lookup_insert_eq|exact Hrepr'].
    + apply (abs_insert_entries _ _ _ _ E).
  - rewrite Hins in H. discriminate.
Qed.

(** X14. After any sequence of successful inserts into a file that did
    not exist, one more successful insert adds exactly one entry to the
    scan: the new record at the address returned. That address was not
    in use, and every record scanned before is still scanned at the
    address it had. *)
Theorem insert_record_extends_scan (fs0 : filesystem) (fname : pystr)
    (recs : list bytes) (fs : filesystem) (addrs : list (Z * Z))
    (record : bytes) (fs' : filesystem) (a : Z * Z) :
  fs0 !! fname = None \/ fs0 !! fname = Some [] ->
  insert_all fs0 fname recs = (fs, Ok addrs) ->
  insert_record fs fname record = (fs', Ok a) ->
  exists out out',
    get_all_raw_records fs fname = Ok out /\
    get_all_raw_records fs' fname = Ok out' /\
    out' ≡ₚ (a.1, a.2, record) :: out /\
    (forall e, e ∈ out -> e ∈ out' /\ e.1 <> a).
Proof.
  intros Hfresh Hall Hins.
  assert (Hscan : exists (fs1 : filesystem) (content : bytes) (pages : list (list bytes)),
             insert_record fs fname record = insert_record fs1 fname record /\
             fs1 !! fname = Some content /\ heap_repr pages content /\ pages <> [] /\
             get_all_raw_records fs fname = Ok (heap_entries 0 pages)).
  { destruct recs as [|r recs].
    - injection Hall as <- _.
      exists (create_heap_file fs0 fname), initialize_empty_page, [[]].
      split; [apply insert_record_created; exact Hfresh|].
      split; [apply lookup_insert_eq|]. split; [apply heap_repr_created|].
      split; [discriminate|]. apply get_all_raw_records_absent. exact Hfresh.
    - destruct (insert_all_heap fs0 fname (r :: recs) fs addrs Hfresh Hall)
        as (pages & content & Hfile & Hrepr & Hne); [discriminate|].
      exists fs, content, pages. split; [reflexivity|]. split; [exact Hfile|].
      split; [exact Hrepr|]. split; [exact Hne|].
      apply (get_all_raw_records_pages _ _ content); assumption. }
  destruct Hscan as (fs1 & content & pages & E1 & Hfile & Hrepr & Hne & Hout).
  rewrite E1 in Hins.
  destruct (insert_record_scan_heap fs1 fname content record pages fs' a
              Hfile Hrepr Hne Hins) as (pages' & Hout' & Hperm).
  exists (heap_entries 0 pages), (heap_entries 0 pages').
  split; [exact Hout|]. split; [exact Hout'|]. split; [exact Hperm|].
  intros e He. split.
  - rewrite Hperm. apply elem_of_cons. right. exact He.
  - pose proof (sorted_addresses_NoDup _ (heap_entries_sorted 0 pages')) as Hnd.
    rewrite Hperm in Hnd. simpl in Hnd. apply NoDup_cons in Hnd as [Hnotin _].
    intros Heq. apply Hnotin. apply list_elem_of_fmap.
    exists e. split; [|exact He]. destruct a. simpl. symmetry. exact Heq.
Qed.

Lemma insert_record_extends_scan_witness :
  exists out out',
    get_all_raw_records (insert_all ∅ (str "t.heap") [[x41]; [x42; x43]]).1
                        (str "t.heap") = Ok out /\
    get_all_raw_records
      (insert_record (insert_all ∅ (str "t.heap") [[x41]; [x42; x43]]).1
                     (str "t.heap") [x44]).1 (str "t.heap") = Ok out' /\
    out' ≡ₚ ((0, 2).1, (0, 2).2, [x44]) :: out /\
    (forall e, e ∈ out -> e ∈ out' /\ e.1 <> (0, 2)).
Proof.
  apply (insert_record_extends_scan ∅ (str "t.heap") [[x41]; [x42; x43]]
           (insert_all ∅ (str "t.heap") [[x41]; [x42; x43]]).1 [(0, 0); (0, 1)]
           [x44]
           (insert_record (insert_all ∅ (str "t.heap") [[x41]; [x42; x43]]).1
                          (str "t.heap") [x44]).1 (0, 2)).
  - left. reflexivity.
  - vm_compute. reflexivity.
  - vm_compute. reflexivity.
Defined.

(** * Further properties of the primitive codec *)

Lemma len_four_inv (b : bytes) :
  len b = 4 -> exists b0 b1 b2 b3, b = [b0; b1; b2; b3].
Proof.
  unfold len. intros Hl.
  destruct b as [|b0 [|b1 [|b2 [|b3 [|b4 b]]]]]; simpl in Hl; try lia.
  exists b0, b1, b2, b3. reflexivity.
Qed.

Lemma byte_of_Z_digit (x : Z) (b : byte) :
  x mod 256 = byte_to_Z b -> byte_of_Z x = b.
Proof.
  intros Hx. apply byte_to_Z_inj. rewrite byte_to_of_Z_mod. exact Hx.
Qed.

Lemma pack_i32_be32 (b0 b1 b2 b3 : byte) :
  let u := be32 b0 b1 b2 b3 in
  pack_i32 (if u <? 2147483648 then u else u - 4294967296) = Ok [b0; b1; b2; b3].
Proof.
  intros u. pose proof (byte_to_Z_range b0). pose proof (byte_to_Z_range b1).
  pose proof (byte_to_Z_range b2). pose proof (byte_to_Z_range b3).
  assert (Hu : 0 <= u < 4294967296) by (unfold u, be32; lia).
  set (v := if u <? 2147483648 then u else u - 4294967296).
  assert (Hv : - 2147483648 <= v <= 2147483647 /\ v mod 4294967296 = u).
  { unfold v. destruct (u <? 2147483648) eqn:E.
    - apply Z.ltb_lt in E. split; [lia|]. apply Z.mod_small. lia.
    - apply Z.ltb_ge in E. split; [lia|].
      symmetry. apply Z.mod_unique with (q := -1); lia. }
  destruct Hv as [Hr Hm]. unfold pack_i32.
  rewrite !leb_true by lia. cbn [andb]. rewrite Hm. do 2 f_equal;
    [|f_equal; [|f_equal; [|f_equal]]]; apply byte_of_Z_digit; unfold u, be32;
    clear Hm Hr v Hu u.
  all: Z.div_mod_to_equations; lia.
Qed.

Lemma len_bytes_of_be32 (u : Z) : len (bytes_of_be32 u) = 4.
Proof. reflexivity. Qed.

Lemma Ok_inj {A} (x y : A) : Ok x = Ok y -> x = y.
Proof. intros Heq. injection Heq as ->. reflexivity. Qed.

Lemma pack_float_length (g : spec_float) (b : bytes) :
  _pack_float g = Ok b -> len b = 4.
Proof.
  unfold _pack_float, pack_f32. generalize (round_to_single g). intros r.
  destruct g, r; intros Heq; try discriminate Heq;
    apply Ok_inj in Heq; rewrite <- Heq; apply len_bytes_of_be32.
Qed.

(** X15. [_unpack_int] raises ValueError unless it is given exactly four
    bytes. Every four bytes decode to an integer of the signed 32-bit
    range, and [_pack_int] of that integer gives the same four bytes
    back. *)
Theorem unpack_int_then_pack (b : bytes) :
  (len b <> 4 -> _unpack_int b = Err ValueError) /\
  (len b = 4 ->
   exists v, _unpack_int b = Ok v /\
             - 2147483648 <= v <= 2147483647 /\
             _pack_int v = Ok b).
Proof.
  unfold _unpack_int, _pack_int. split.
  - intros Hl. apply Z.eqb_neq in Hl. rewrite Hl. reflexivity.
  - intros Hl. rewrite Hl. simpl negb. cbv iota.
    destruct (len_four_inv b Hl) as (b0 & b1 & b2 & b3 & ->).
    pose proof (pack_i32_be32 b0 b1 b2 b3) as Hp. cbv zeta in Hp.
    eexists. split; [reflexivity|]. split; [|exact Hp].
    pose proof (byte_to_Z_range b0). pose proof (byte_to_Z_range b1).
    pose proof (byte_to_Z_range b2). pose proof (byte_to_Z_range b3).
    destruct (be32 b0 b1 b2 b3 <? 2147483648) eqn:E;
      [apply Z.ltb_lt in E|apply Z.ltb_ge in E]; unfold be32 in *; lia.
Qed.

(** X16. [_pack_int] returns four bytes exactly for the integers of the
    signed 32-bit range, and [_unpack_int] of those bytes gives the
    integer back; outside that range it raises struct.error. *)
Theorem pack_int_then_unpack (v : Z) :
  (- 2147483648 <= v <= 2147483647 ->
   exists b, _pack_int v = Ok b /\ len b = 4 /\ _unpack_int b = Ok v) /\
  (~ - 2147483648 <= v <= 2147483647 -> _pack_int v = Err StructError).
Proof.
  split; [apply unpack_pack_int|].
  intros Hv. unfold _pack_int, pack_i32.
  destruct ((- 2147483648 <=? v) && (v <=? 2147483647)) eqn:E; [|reflexivity].
  apply andb_true_iff in E as [E1 E2]. apply Z.leb_le in E1, E2. lia.
Qed.

(** X17. [_pack_float] of a float that single precision represents
    exactly returns four bytes, and [_unpack_float] of those bytes gives
    the float back. [_unpack_float] raises ValueError unless it is given
    exactly four bytes, and decodes every four bytes. *)
Theorem pack_float_then_unpack (f : spec_float) :
  single_representable f ->
  (exists b, _pack_float f = Ok b /\ len b = 4 /\ _unpack_float b = Ok f) /\
  (forall b, len b <> 4 -> _unpack_float b = Err ValueError) /\
  (forall b, len b = 4 -> exists g, _unpack_float b = Ok g) /\
  (forall g b, _pack_float g = Ok b -> len b = 4).
Proof.
  intros Hf. split; [apply unpack_pack_float, Hf|]. split; [|split].
  - intros b Hl. unfold _unpack_float. apply Z.eqb_neq in Hl. rewrite Hl. reflexivity.
  - intros b Hl. unfold _unpack_float. rewrite Hl. simpl negb. cbv iota.
    destruct (len_four_inv b Hl) as (b0 & b1 & b2 & b3 & ->).
    eexists. reflexivity.
  - apply pack_float_length.
Qed.

Lemma pack_float_then_unpack_witness :
  (exists b, _pack_float (S754_finite false 9216000 (-11)) = Ok b /\ len b = 4 /\
             _unpack_float b = Ok (S754_finite false 9216000 (-11))) /\
  (forall b, len b <> 4 -> _unpack_float b = Err ValueError) /\
  (forall b, len b = 4 -> exists g, _unpack_float b = Ok g) /\
  (forall g b, _pack_float g = Ok b -> len b = 4).
Proof.
  apply (pack_float_then_unpack (S754_finite false 9216000 (-11))).
  split; [vm_compute; reflexivity|discriminate].
Defined.

(** * Further properties of the record codec *)

Lemma pack_int_length (v : Z) (b : bytes) : _pack_int v = Ok b -> len b = 4.
Proof.
  unfold _pack_int, pack_i32.
  destruct ((- 2147483648 <=? v) && (v <=? 2147483647)); intros Heq;
    [|discriminate Heq].
  apply Ok_inj in Heq. rewrite <- Heq. reflexivity.
Qed.

Lemma pack_char_length (s : pystr) (n : Z) (b : bytes) :
  0 <= n -> _pack_char s n = Ok b -> len b = n.
Proof.
  intros Hn Hp. destruct (utf8_encode s) as [e|err] eqn:E.
  - rewrite (pack_char_eq s n e Hn E) in Hp. apply Ok_inj in Hp.
    rewrite <- Hp, len_app, len_take, len_zeros by lia. lia.
  - unfold _pack_char in Hp. rewrite E in Hp. discriminate Hp.
Qed.

Lemma pack_varchar_length (s : pystr) (n : Z) (b : bytes) :
  0 <= n -> _pack_varchar s n = Ok b -> len b = 1 + n.
Proof.
  intros Hn Hp. destruct (utf8_encode s) as [e|err] eqn:E.
  - rewrite (pack_varchar_eq s n e Hn E) in Hp. apply Ok_inj in Hp.
    rewrite <- Hp. pose proof (len_nonneg e).
    change (len (byte_of_Z (Z.min (len e) (Z.min n 255))
                 :: take (Z.to_nat (Z.min (len e) (Z.min n 255))) e
                 ++ zeros (n - Z.min (len e) (Z.min n 255))))
      with (len ([byte_of_Z (Z.min (len e) (Z.min n 255))]
                 ++ take (Z.to_nat (Z.min (len e) (Z.min n 255))) e
                 ++ zeros (n - Z.min (len e) (Z.min n 255)))).
    rewrite !len_app, len_take, len_zeros by lia.
    change (len [byte_of_Z (Z.min (len e) (Z.min n 255))]) with 1. lia.
  - unfold _pack_varchar in Hp. rewrite E in Hp. discriminate Hp.
Qed.

Lemma py_slice_app_l {A} (l extra : list A) (i j : Z) :
  0 <= i <= j -> j <= len l -> py_slice (l ++ extra) i j = py_slice l i j.
Proof.
  intros Hi Hj. rewrite !py_slice_take_drop by lia.
  unfold len in Hj. rewrite drop_app_le by lia.
  apply take_app_le. rewrite length_drop. lia.
Qed.

Lemma utf8_decode_error (n : nat) :
  forall (b : bytes) (e : exn),
    (length b <= n)%nat -> utf8_decode b = Err e -> e = UnicodeDecodeError.
Proof.
  induction n as [|n IH]; intros b e Hn.
  - destruct b; [discriminate|simpl in Hn; lia].
  - destruct b as [|b0 r0]; [discriminate|]. rewrite utf8_decode_cons. cbv zeta.
    assert (Hrec : forall (r : bytes) (f : pystr -> pystr),
               (length r <= n)%nat ->
               (let! s := utf8_decode r in Ok (f s)) = Err e ->
               e = UnicodeDecodeError).
    { intros r f Hr. destruct (utf8_decode r) as [s|e'] eqn:E; [discriminate|].
      intros [= <-]. apply (IH r e' Hr E). }
    simpl in Hn.
    destruct (byte_to_Z b0 <? 128); [apply (Hrec r0 (cons _)); lia|].
    destruct (byte_to_Z b0 <? 194); [congruence|].
    destruct (byte_to_Z b0 <? 224).
    { destruct r0 as [|b1 r1]; [congruence|].
      destruct (is_cont b1); [|congruence].
      apply (Hrec r1 (cons _)). simpl in Hn. lia. }
    destruct (byte_to_Z b0 <? 240).
    { destruct r0 as [|b1 [|b2 r2]]; [congruence|congruence|].
      destruct (_ && _); [|congruence].
      apply (Hrec r2 (cons _)). simpl in Hn. lia. }
    destruct (byte_to_Z b0 <? 245); [|congruence].
    destruct r0 as [|b1 [|b2 [|b3 r3]]]; [congruence|congruence|congruence|].
    destruct (_ && _); [|congruence].
    apply (Hrec r3 (cons _)). simpl in Hn. lia.
Qed.

Lemma utf8_encode_error (s : pystr) (e : exn) :
  utf8_encode s = Err e -> e = UnicodeEncodeError.
Proof.
  induction s as [|c s IH]; [discriminate|]. simpl.
  destruct (utf8_encode_cp c) as [bc|e'] eqn:Ec.
  - destruct (utf8_encode s) as [bs|e'']; [discriminate|].
    intros [= <-]. apply IH. reflexivity.
  - intros [= <-]. unfold utf8_encode_cp in Ec.
    repeat match type of Ec with
           | (if ?c then _ else _) = _ => destruct c
           end; congruence.
Qed.

Lemma read_page_same_file (fs1 fs2 : filesystem) (fname : pystr) (p : Z) :
  fs1 !! fname = fs2 !! fname -> read_page fs1 fname p = read_page fs2 fname p.
Proof. intros Hf. unfold read_page. rewrite Hf. reflexivity. Qed.

Lemma scan_pages_same_file (fs1 fs2 : filesystem) (fname : pystr) (ps : list Z) :
  fs1 !! fname = fs2 !! fname ->
  forall acc, scan_pages fs1 fname ps acc = scan_pages fs2 fname ps acc.
Proof.
  intros Hf. induction ps as [|p ps IH]; intros acc; simpl; [reflexivity|].
  rewrite (read_page_same_file fs1 fs2 fname p Hf).
  destruct (read_page fs2 fname p) as [page|]; [|reflexivity]. cbn [bind].
  destruct (_read_footer page) as [[sc fo]|]; [|reflexivity]. cbn [bind].
  destruct (scan_slots page p (seqZ 0 sc) acc); [|reflexivity]. cbn [bind].
  apply IH.
Qed.

Lemma get_all_raw_records_same_file (fs1 fs2 : filesystem) (fname : pystr) :
  fs1 !! fname = fs2 !! fname ->
  get_all_raw_records fs1 fname = get_all_raw_records fs2 fname.
Proof.
  intros Hf. unfold get_all_raw_records, path_exists, getsize.
  pose proof (fun ps => scan_pages_same_file fs1 fs2 fname ps Hf) as Hs.
  rewrite Hf. destruct (fs2 !! fname) as [c|]; [|reflexivity]. cbn [negb bind].
  destruct (len c =? 0); [reflexivity|]. apply Hs.
Qed.

Section CodecExtras.
Context `{PyText}.

(** The width comes with the string types and with them only. *)
Lemma parse_type_param (ft : pystr) (base : base_type) (param : option Z) :
  _parse_type ft = Ok (base, param) ->
  match base with
  | TInt | TFloat => param = None
  | TChar | TVarchar => is_Some param
  end.
Proof.
  unfold _parse_type. cbv zeta.
  destruct (startswith _ _ && endswith _ _).
  { destruct (int_of_str _); [|discriminate]. intros [= <- <-]. eauto. }
  destruct (startswith _ _ && endswith _ _).
  { destruct (int_of_str _); [|discriminate]. intros [= <- <-]. eauto. }
  destruct (bool_decide _); [intros [= <- <-]; reflexivity|].
  destruct (bool_decide _); [intros [= <- <-]; reflexivity|discriminate].
Qed.

Lemma parse_type_error (ft : pystr) (e : exn) :
  (forall s e', int_of_str s = Err e' -> e' = ValueError) ->
  _parse_type ft = Err e -> e = ValueError.
Proof.
  intros Hint. unfold _parse_type. cbv zeta.
  destruct (startswith _ _ && endswith _ _).
  { destruct (int_of_str _) eqn:E; [discriminate|].
    intros [= <-]. apply (Hint _ _ E). }
  destruct (startswith _ _ && endswith _ _).
  { destruct (int_of_str _) eqn:E; [discriminate|].
    intros [= <-]. apply (Hint _ _ E). }
  destruct (bool_decide _); [discriminate|].
  destruct (bool_decide _); [discriminate|congruence].
Qed.

Lemma field_width_nonneg (f : field_desc) :
  (forall base n, _parse_type (f_type f) = Ok (base, Some n) -> 0 <= n) ->
  0 <= field_width f.
Proof.
  intros Hw. unfold field_width.
  destruct (_parse_type (f_type f)) as [[base [n|]]|] eqn:E;
    [specialize (Hw base n eq_refl); destruct base; lia|destruct base; lia|lia].
Qed.

Lemma record_size_nonneg (fields : list field_desc) :
  widths_nonneg fields -> 0 <= record_size fields.
Proof.
  induction 1 as [|f fields Hf _ IH]; simpl; [lia|].
  pose proof (field_width_nonneg f Hf). lia.
Qed.

Lemma encode_record_loop_length (record_dict : gmap pystr value)
    (fields : list field_desc) :
  widths_nonneg fields ->
  forall parts out,
    encode_record_loop record_dict fields parts = Ok out ->
    total out = total parts + record_size fields.
Proof.
  induction 1 as [|f fields Hf _ IH]; intros parts out; simpl.
  - intros [= <-]. lia.
  - unfold field_width.
    destruct (_parse_type (f_type f)) as [[base param]|] eqn:Ep; [|discriminate].
    cbn [bind].
    set (val := default (default_value base) (record_dict !! f_name f)).
    destruct (match base with
              | TChar => match param with
                         | Some n => _pack_char (py_str val) n
                         | None => Err TypeError
                         end
              | TVarchar => match param with
                            | Some n => _pack_varchar (py_str val) n
                            | None => Err TypeError
                            end
              | TInt => let! v := py_int val in _pack_int v
              | TFloat => let! v := py_float val in _pack_float v
              end) as [part|] eqn:Epart; [|discriminate].
    cbn [bind]. intros Hloop. rewrite (IH _ _ Hloop), total_app, total_singleton.
    assert (Hpart : len part = match base, param with
                               | TInt, _ | TFloat, _ => 4
                               | TChar, Some n => n
                               | TVarchar, Some n => 1 + n
                               | _, _ => 0
                               end); [|destruct base, param; lia].
    destruct base, param as [n|]; try discriminate Epart.
    + apply (pack_char_length _ _ _ (Hf _ _ eq_refl) Epart).
    + apply (pack_varchar_length _ _ _ (Hf _ _ eq_refl) Epart).
    + destruct (py_int val); [apply (pack_int_length _ _ Epart)|discriminate].
    + destruct (py_int val); [apply (pack_int_length _ _ Epart)|discriminate].
    + destruct (py_float val); [apply (pack_float_length _ _ Epart)|discriminate].
    + destruct (py_float val); [apply (pack_float_length _ _ Epart)|discriminate].
Qed.

Lemma encode_record_size (record_dict : gmap pystr value) (table_name : pystr)
    (schema : gmap pystr table_desc) (table : table_desc)
    (fields : list field_desc) (b : bytes) :
  schema !! table_name = Some table -> t_fields table = Some fields ->
  widths_nonneg fields ->
  encode_record record_dict table_name schema = Ok b ->
  len b = record_size fields.
Proof.
  intros Ht Hfields Hw. unfold encode_record. rewrite Ht, Hfields.
  destruct (encode_record_loop record_dict fields []) as [out|] eqn:E; [|discriminate].
  cbn [bind]. intros Heq. apply Ok_inj in Heq. rewrite <- Heq.
  pose proof (encode_record_loop_length record_dict fields Hw [] out E) as Hl.
  rewrite total_nil in Hl. unfold total in Hl. lia.
Qed.

(** X18. The length of an encoded record is fixed by the schema: when
    the widths of the string fields are not negative and [encode_record]
    returns, the result has 4 bytes for each int or float field, [n] for
    each char(n) and [1 + n] for each varchar(n), whatever the record's
    values. *)
Theorem encode_record_length (record_dict : gmap pystr value) (table_name : pystr)
    (schema : gmap pystr table_desc) (table : table_desc)
    (fields : list field_desc) (b : bytes) :
  schema !! table_name = Some table -> t_fields table = Some fields ->
  widths_nonneg fields ->
  encode_record record_dict table_name schema = Ok b ->
  len b = record_size fields.
Proof. apply encode_record_size. Qed.

Lemma decode_record_loop_prefix (b extra : bytes) (fields : list field_desc) :
  widths_nonneg fields ->
  forall idx res,
    0 <= idx -> idx + record_size fields <= len b ->
    decode_record_loop (b ++ extra) fields idx res
    = decode_record_loop b fields idx res.
Proof.
  induction 1 as [|f fields Hf Hw IH]; intros idx res Hidx Hsize; simpl;
    [reflexivity|].
  pose proof (record_size_nonneg fields Hw) as Hrest.
  simpl in Hsize. unfold field_width in Hsize.
  destruct (_parse_type (f_type f)) as [[base param]|] eqn:Ep; [|reflexivity].
  cbn [bind].
  destruct base, param as [n|]; try reflexivity;
    try (pose proof (Hf _ _ eq_refl)); rewrite py_slice_app_l by lia.
  - destruct (_unpack_char _); [|reflexivity]. cbn [bind]. apply IH; lia.
  - destruct (_unpack_varchar _ _); [|reflexivity]. cbn [bind]. apply IH; lia.
  - destruct (_unpack_int _); [|reflexivity]. cbn [bind]. apply IH; lia.
  - destruct (_unpack_int _); [|reflexivity]. cbn [bind]. apply IH; lia.
  - destruct (_unpack_float _); [|reflexivity]. cbn [bind]. apply IH; lia.
  - destruct (_unpack_float _); [|reflexivity]. cbn [bind]. apply IH; lia.
Qed.

(** X19. [decode_record] reads the first [record_size] bytes and nothing
    else: when the widths of the string fields are not negative and the
    buffer holds at least that many bytes, bytes appended to the buffer
    do not change the result. *)
Theorem decode_record_reads_prefix (b extra : bytes) (table_name : pystr)
    (schema : gmap pystr table_desc) (table : table_desc)
    (fields : list field_desc) :
  schema !! table_name = Some table -> t_fields table = Some fields ->
  widths_nonneg fields ->
  record_size fields <= len b ->
  decode_record (b ++ extra) table_name schema = decode_record b table_name schema.
Proof.
  intros Ht Hfields Hw Hsize. unfold decode_record. rewrite Ht, Hfields.
  apply decode_record_loop_prefix; [exact Hw|lia|lia].
Qed.

Local Abbreviation decoded_from seen res :=
  ((forall k : pystr, is_Some (res !! k) <-> k ∈ f_name <$> seen) /\
   (forall (k : pystr) (v : value), res !! k = Some v ->
      exists f, f ∈ seen /\ f_name f = k /\ value_of_type f v)).

Lemma decoded_from_insert (seen : list field_desc) (res : gmap pystr value)
    (f : field_desc) (v : value) :
  decoded_from seen res -> value_of_type f v ->
  decoded_from (seen ++ [f]) (<[f_name f := v]> res).
Proof.
  intros [Hkeys Htypes] Hv. split.
  - intros k. rewrite lookup_insert_is_Some, fmap_app, elem_of_app. simpl.
    rewrite list_elem_of_singleton, <- Hkeys.
    destruct (decide (f_name f = k)) as [->|Hne]; [tauto|].
    split; [intros [?|[_ ?]]; [congruence|tauto]|].
    intros [?|?]; [tauto|congruence].
  - intros k v'. destruct (decide (f_name f = k)) as [<-|Hne].
    + rewrite lookup_insert_eq. intros [= <-].
      exists f. split; [apply elem_of_app; right; apply list_elem_of_singleton;
                        reflexivity|]. split; [reflexivity|exact Hv].
    + rewrite lookup_insert_ne by exact Hne. intros Hk.
      destruct (Htypes k v' Hk) as (f' & Hin & Hn & Ht).
      exists f'. split; [apply elem_of_app; left; exact Hin|]. split; assumption.
Qed.

Lemma decode_record_loop_names (b : bytes) (fields : list field_desc) :
  forall seen idx res d,
    decoded_from seen res ->
    decode_record_loop b fields idx res = Ok d ->
    decoded_from (seen ++ fields) d.
Proof.
  induction fields as [|f fields IH]; intros seen idx res d Hinv; simpl.
  - intros [= <-]. rewrite app_nil_r. exact Hinv.
  - destruct (_parse_type (f_type f)) as [[base param]|] eqn:Ep; [|discriminate].
    cbn [bind].
    assert (Hstep : forall v idx',
              value_of_type f v ->
              decode_record_loop b fields idx' (<[f_name f := v]> res) = Ok d ->
              decoded_from (seen ++ f :: fields) d).
    { intros v idx' Hv Hd.
      replace (seen ++ f :: fields) with ((seen ++ [f]) ++ fields)
        by (rewrite <- app_assoc; reflexivity).
      apply (IH _ idx' (<[f_name f := v]> res)); [|exact Hd].
      apply decoded_from_insert; assumption. }
    destruct base, param as [n|]; try discriminate.
    + destruct (_unpack_char _) as [v|]; [|discriminate]. cbn [bind].
      apply Hstep. unfold value_of_type. rewrite Ep. exact I.
    + destruct (_unpack_varchar _ _) as [v|]; [|discriminate]. cbn [bind].
      apply Hstep. unfold value_of_type. rewrite Ep. exact I.
    + destruct (_unpack_int _) as [v|]; [|discriminate]. cbn [bind].
      apply Hstep. unfold value_of_type. rewrite Ep. exact I.
    + destruct (_unpack_int _) as [v|]; [|discriminate]. cbn [bind].
      apply Hstep. unfold value_of_type. rewrite Ep. exact I.
    + destruct (_unpack_float _) as [v|]; [|discriminate]. cbn [bind].
      apply Hstep. unfold value_of_type. rewrite Ep. exact I.
    + destruct (_unpack_float _) as [v|]; [|discriminate]. cbn [bind].
      apply Hstep. unfold value_of_type. rewrite Ep. exact I.
Qed.

(** X20. What [decode_record] returns has exactly the field names of the
    table as its keys, whatever the bytes decoded, and each value has the
    Python type of a field of that name: an int for an int field, a float
    for a float field, a string for a char or varchar field. *)
Theorem decode_record_field_names (b : bytes) (table_name : pystr)
    (schema : gmap pystr table_desc) (table : table_desc)
    (fields : list field_desc) (d : gmap pystr value) :
  schema !! table_name = Some table -> t_fields table = Some fields ->
  decode_record b table_name schema = Ok d ->
  (forall k, is_Some (d !! k) <-> k ∈ f_name <$> fields) /\
  (forall k v, d !! k = Some v ->
     exists f, f ∈ fields /\ f_name f = k /\ value_of_type f v).
Proof.
  intros Ht Hfields. unfold decode_record. rewrite Ht, Hfields. intros Hd.
  apply (decode_record_loop_names b fields [] 0 ∅ d); [|exact Hd].
  split.
  - intros k. rewrite lookup_empty. simpl. split.
    + intros [? ?]. discriminate.
    + intros Hin. apply elem_of_nil in Hin. contradiction.
  - intros k v. rewrite lookup_empty. discriminate.
Qed.

Lemma tp2_decode_record_loop (b : bytes) (fields : list field_desc) :
  forall idx res,
    Tp2.decode_record_loop b fields idx res = decode_record_loop b fields idx res.
Proof.
  induction fields as [|f fields IH]; intros idx res; simpl; [reflexivity|].
  destruct (_parse_type (f_type f)) as [[base param]|]; [|reflexivity].
  cbn [bind]. destruct base, param as [n|]; try reflexivity.
  - destruct (_unpack_char _); [|reflexivity]. cbn [bind]. apply IH.
  - destruct (idx >=? len b) eqn:E.
    + rewrite Z.geb_leb in E. apply Z.leb_le in E.
      rewrite py_slice_beyond by exact E. cbn [_unpack_varchar bind]. apply IH.
    + destruct (_unpack_varchar _ _); [|reflexivity]. cbn [bind]. apply IH.
  - destruct (_unpack_int _); [|reflexivity]. cbn [bind]. apply IH.
  - destruct (_unpack_int _); [|reflexivity]. cbn [bind]. apply IH.
  - destruct (_unpack_float _); [|reflexivity]. cbn [bind]. apply IH.
  - destruct (_unpack_float _); [|reflexivity]. cbn [bind]. apply IH.
Qed.

(** X21. The [decode_record] of tp2.py, which tests whether a varchar
    field starts at or past the end of the buffer before it slices, and
    the [decode_record] of alltp.py, which slices at once, return the
    same result or raise the same exception on every input: such a field
    decodes as the empty string in both. *)
Theorem tp2_decode_record_agrees (record_bytes : bytes) (table_name : pystr)
    (schema : gmap pystr table_desc) :
  Tp2.decode_record record_bytes table_name schema
  = decode_record record_bytes table_name schema.
Proof.
  unfold Tp2.decode_record, decode_record.
  destruct (schema !! table_name) as [table|]; [|reflexivity].
  destruct (t_fields table) as [fields|]; [|reflexivity].
  apply tp2_decode_record_loop.
Qed.

Lemma insert_structured_record_frame (fs : filesystem) (table_name : pystr)
    (schema : gmap pystr table_desc) (record_dict : gmap pystr value)
    (table : table_desc) (fname other : pystr) :
  schema !! table_name = Some table -> table_file_name table = Ok fname ->
  other <> fname ->
  (insert_structured_record fs table_name schema record_dict).1 !! other
  = fs !! other.
Proof.
  intros Ht Hf Ho. unfold insert_structured_record. rewrite Ht, Hf.
  destruct (encode_record record_dict table_name schema); [|reflexivity].
  apply insert_record_frame, Ho.
Qed.

(** X23. Tables stored in different files do not interfere: whatever
    [insert_structured_record] does for one table, and whether it returns
    or raises, [read_all_structured_records] of a table with another file
    name gives what it gave before. *)
Theorem insert_structured_record_other_tables (fs : filesystem)
    (schema : gmap pystr table_desc) (table_name other_name : pystr)
    (table other_table : table_desc) (fname other_fname : pystr)
    (record_dict : gmap pystr value) :
  schema !! table_name = Some table -> table_file_name table = Ok fname ->
  schema !! other_name = Some other_table ->
  table_file_name other_table = Ok other_fname ->
  other_fname <> fname ->
  read_all_structured_records
    (insert_structured_record fs table_name schema record_dict).1 other_name schema
  = read_all_structured_records fs other_name schema.
Proof.
  intros Ht Hf Hot Hof Hne. unfold read_all_structured_records.
  rewrite Hot, Hof. cbn [bind].
  rewrite (get_all_raw_records_same_file _ fs other_fname); [reflexivity|].
  apply (insert_structured_record_frame _ _ _ _ table fname); assumption.
Qed.

Lemma unpack_int_error (b : bytes) (e : exn) :
  _unpack_int b = Err e -> e = ValueError.
Proof.
  unfold _unpack_int. destruct (len b =? 4) eqn:E; simpl; [|congruence].
  apply Z.eqb_eq in E. destruct (len_four_inv b E) as (b0 & b1 & b2 & b3 & ->).
  discriminate.
Qed.

Lemma unpack_float_error (b : bytes) (e : exn) :
  _unpack_float b = Err e -> e = ValueError.
Proof.
  unfold _unpack_float. destruct (len b =? 4) eqn:E; simpl; [|congruence].
  apply Z.eqb_eq in E. destruct (len_four_inv b E) as (b0 & b1 & b2 & b3 & ->).
  discriminate.
Qed.

Lemma unpack_varchar_error (b : bytes) (n : Z) (e : exn) :
  _unpack_varchar b n = Err e -> e = UnicodeDecodeError.
Proof.
  unfold _unpack_varchar. destruct b as [|b0 rest]; [discriminate|].
  apply (utf8_decode_error _ _ e (Nat.le_refl _)).
Qed.

Lemma decode_record_loop_errors (b : bytes) (fields : list field_desc) (e : exn) :
  (forall s e', int_of_str s = Err e' -> e' = ValueError) ->
  forall idx res,
    decode_record_loop b fields idx res = Err e ->
    e = ValueError \/ e = UnicodeDecodeError.
Proof.
  intros Hint. induction fields as [|f fields IH]; intros idx res; simpl;
    [discriminate|].
  destruct (_parse_type (f_type f)) as [[base param]|e'] eqn:Ep; cbn [bind].
  2:{ intros [= <-]. left. apply (parse_type_error _ _ Hint Ep). }
  pose proof (parse_type_param _ _ _ Ep) as Hparam.
  destruct base, param as [n|]; try discriminate Hparam;
    try (exfalso; exact (is_Some_None Hparam)).
  - destruct (_unpack_char _) as [v|e'] eqn:E; cbn [bind]; [apply IH|].
    intros [= <-]. right. apply (utf8_decode_error _ _ _ (Nat.le_refl _) E).
  - destruct (_unpack_varchar _ _) as [v|e'] eqn:E; cbn [bind]; [apply IH|].
    intros [= <-]. right. apply (unpack_varchar_error _ _ _ E).
  - destruct (_unpack_int _) as [v|e'] eqn:E; cbn [bind]; [apply IH|].
    intros [= <-]. left. apply (unpack_int_error _ _ E).
  - destruct (_unpack_float _) as [v|e'] eqn:E; cbn [bind]; [apply IH|].
    intros [= <-]. left. apply (unpack_float_error _ _ E).
Qed.

(** X24. The exceptions of [decode_record]: when [int()] of a string
    raises nothing but ValueError, [decode_record] raises nothing but
    ValueError (unknown table, unknown field type, an int or float field
    cut short), KeyError (a table without fields) and UnicodeDecodeError;
    the struct.error of a wrong length cannot come out of it. *)
Theorem decode_record_errors (record_bytes : bytes) (table_name : pystr)
    (schema : gmap pystr table_desc) (e : exn) :
  (forall s e', int_of_str s = Err e' -> e' = ValueError) ->
  decode_record record_bytes table_name schema = Err e ->
  e = ValueError \/ e = KeyError \/ e = UnicodeDecodeError.
Proof.
  intros Hint. unfold decode_record.
  destruct (schema !! table_name) as [table|]; [|intros [= <-]; tauto].
  destruct (t_fields table) as [fields|]; [|intros [= <-]; tauto].
  intros Hd. destruct (decode_record_loop_errors _ _ _ Hint _ _ Hd); tauto.
Qed.

End CodecExtras.

Lemma employee_widths_nonneg : widths_nonneg employee_fields.
Proof.
  repeat constructor; intros base n Hp; vm_compute in Hp;
    first [discriminate Hp | injection Hp as _ <-; lia].
Qed.

Lemma ascii_int_of_str_error (s : pystr) (e : exn) :
  int_of_str s = Err e -> e = ValueError.
Proof.
  unfold int_of_str, ascii_text, ascii_int_of_str.
  destruct (match strip s with
            | 43 :: t => parse_unsigned t
            | 45 :: t => Z.opp <$> parse_unsigned t
            | t => parse_unsigned t
            end); congruence.
Qed.

Lemma encode_record_length_witness : len alice_bytes = record_size employee_fields.
Proof.
  apply (encode_record_length alice (str "Employee") demo_schema employee_table
           employee_fields alice_bytes).
  - vm_compute. reflexivity.
  - reflexivity.
  - apply employee_widths_nonneg.
  - vm_compute. reflexivity.
Defined.

Lemma decode_record_reads_prefix_witness :
  decode_record (alice_bytes ++ [xff; xff]) (str "Employee") demo_schema
  = decode_record alice_bytes (str "Employee") demo_schema.
Proof.
  apply (decode_record_reads_prefix alice_bytes [xff; xff] (str "Employee")
           demo_schema employee_table employee_fields).
  - vm_compute. reflexivity.
  - reflexivity.
  - apply employee_widths_nonneg.
  - vm_compute. discriminate.
Defined.

Lemma decode_record_field_names_witness :
  (forall k, is_Some (alice !! k) <-> k ∈ f_name <$> employee_fields) /\
  (forall k v, alice !! k = Some v ->
     exists f, f ∈ employee_fields /\ f_name f = k /\ value_of_type f v).
Proof.
  apply (decode_record_field_names alice_bytes (str "Employee") demo_schema
           employee_table employee_fields alice).
  - vm_compute. reflexivity.
  - reflexivity.
  - vm_compute. reflexivity.
Defined.

Lemma insert_structured_record_other_tables_witness :
  read_all_structured_records
    (insert_structured_record ∅ (str "Employee") demo_schema alice).1
    (str "Dept") demo_schema
  = read_all_structured_records ∅ (str "Dept") demo_schema.
Proof.
  apply (insert_structured_record_other_tables ∅ demo_schema (str "Employee")
           (str "Dept") employee_table dept_table (str "employee.heap")
           (str "dept.heap") alice).
  - vm_compute. reflexivity.
  - reflexivity.
  - vm_compute. reflexivity.
  - reflexivity.
  - vm_compute. discriminate.
Defined.

Lemma decode_record_errors_witness :
  ValueError = ValueError \/ ValueError = KeyError \/ ValueError = UnicodeDecodeError.
Proof.
  apply (decode_record_errors [x00; x00] (str "Employee") demo_schema ValueError).
  - apply ascii_int_of_str_error.
  - vm_compute. reflexivity.
Defined.

(** * Records of one size: placement and order *)

Lemma total_uniform (w : Z) (pg : list bytes) :
  Forall (fun r => len r = w) pg -> total pg = w * len pg.
Proof.
  induction 1 as [|r pg Hr _ IH].
  - rewrite total_nil. unfold len. simpl. lia.
  - rewrite total_cons, IH, Hr. unfold len. simpl length. lia.
Qed.

Section Uniform.
Variable w : Z.
Hypothesis Hw0 : 0 <= w.
Hypothesis Hw : w <= 4088.

Local Abbreviation cap := (records_per_page w).

Lemma records_per_page_pos : 1 <= cap.
Proof.
  unfold records_per_page, PAGE_SIZE, FOOTER_SIZE, SLOT_ENTRY_SIZE.
  apply Z.div_le_lower_bound; lia.
Qed.

Lemma fits_uniform (pg : list bytes) (r : bytes) :
  Forall (fun r => len r = w) pg -> len r = w ->
  fits pg r <-> len pg < cap.
Proof.
  intros Hpg Hr. unfold fits. rewrite (total_uniform w pg Hpg), Hr.
  unfold records_per_page, PAGE_SIZE, FOOTER_SIZE, SLOT_ENTRY_SIZE.
  replace (4092 - 4) with 4088 by lia. replace (4096 - 4) with 4092 by lia.
  pose proof (len_nonneg pg). split.
  - intros Hfit. assert (len pg + 1 <= 4092 / (w + 4)); [|lia].
    apply Z.div_le_lower_bound; lia.
  - intros Hlt. pose proof (Z.mul_div_le 4092 (w + 4) ltac:(lia)) as Hd.
    assert ((w + 4) * (len pg + 1) <= (w + 4) * (4092 / (w + 4)))
      by (apply Z.mul_le_mono_nonneg_l; lia).
    lia.
Qed.

Lemma uniform_heap_empty : uniform_heap w [[]] 0%nat.
Proof.
  exists [], []. pose proof records_per_page_pos.
  split; [reflexivity|]. split; [constructor|].
  split; [unfold len; simpl; lia|].
  split; [repeat constructor|]. unfold len. simpl. lia.
Qed.

Lemma abs_insert_uniform (pages : list (list bytes)) (n : nat) (r : bytes) :
  uniform_heap w pages n -> len r = w ->
  exists pages',
    abs_insert pages r = Some (pages', nth_address w n) /\
    uniform_heap w pages' (S n) /\
    concat pages' = concat pages ++ [r].
Proof.
  intros (full & last & -> & Hfull & Hlast & Hall & Hn) Hr.
  pose proof records_per_page_pos as Hcap.
  apply Forall_app in Hall as [Hall_full Hall_last].
  rewrite Forall_singleton in Hall_last.
  pose proof (len_nonneg full) as Hlf. pose proof (len_nonneg last) as Hll.
  assert (Hnone : list_find (fun pg => fits pg r) full = None).
  { apply list_find_None. apply Forall_forall. intros pg Hin.
    rewrite Forall_forall in Hfull, Hall_full.
    rewrite (fits_uniform pg r (Hall_full pg Hin) Hr).
    rewrite (Hfull pg Hin). lia. }
  unfold abs_insert. rewrite (list_find_app_r _ _ _ Hnone).
  rewrite (list_find_cons_dec (fun pg => fits pg r) last []). cbn [list_find fmap].
  destruct (decide (fits last r)) as [Hfit|Hnofit]; cbn [fmap option_fmap option_map].
  - apply (fits_uniform last r Hall_last Hr) in Hfit.
    exists (full ++ [last ++ [r]]). cbn [prod_map id fst snd]. split; [|split].
    + f_equal. f_equal.
      * rewrite Nat.add_0_l.
        rewrite insert_app_r_alt by lia. rewrite Nat.sub_diag. reflexivity.
      * unfold nth_address. f_equal.
        -- apply Z.div_unique with (r := len last); [lia|]. unfold len in *. lia.
        -- apply Z.mod_unique with (q := len full); [lia|].
           unfold len in *. lia.
    + exists full, (last ++ [r]). split; [reflexivity|]. split; [exact Hfull|].
      rewrite len_snoc. split; [lia|]. split; [|lia].
      apply Forall_app. split; [exact Hall_full|].
      apply Forall_singleton. apply Forall_app. split; [exact Hall_last|].
      apply Forall_singleton. exact Hr.
    + rewrite !concat_app. simpl. rewrite !app_nil_r, app_assoc. reflexivity.
  - rewrite (fits_uniform last r Hall_last Hr) in Hnofit.
    assert (Hfull_last : len last = cap) by lia.
    destruct (decide (fits [] r)) as [_|Hno];
      [|exfalso; apply Hno; apply fits_empty_iff; lia].
    exists ((full ++ [last]) ++ [[r]]). split; [|split].
    + f_equal. f_equal. unfold nth_address. rewrite len_snoc. f_equal.
      * apply Z.div_unique with (r := 0); lia.
      * apply Z.mod_unique with (q := len full + 1); lia.
    + exists (full ++ [last]), [r]. split; [reflexivity|].
      split; [apply Forall_app; split; [exact Hfull|apply Forall_singleton; exact Hfull_last]|].
      rewrite len_snoc. change (len [r]) with 1. split; [lia|]. split; [|lia].
      apply Forall_app. split.
      * apply Forall_app. split; [exact Hall_full|apply Forall_singleton; exact Hall_last].
      * apply Forall_singleton. apply Forall_singleton. exact Hr.
    + rewrite concat_app. simpl. rewrite ?app_nil_r. reflexivity.
Qed.

Lemma abs_insert_all_uniform (recs : list bytes) :
  forall (pages : list (list bytes)) (n : nat),
    uniform_heap w pages n -> Forall (fun r => len r = w) recs ->
    exists pages',
      abs_insert_all pages recs
      = Some (pages', nth_address w <$> seq n (length recs)) /\
      uniform_heap w pages' (n + length recs)%nat /\
      concat pages' = concat pages ++ recs.
Proof.
  induction recs as [|r recs IH]; intros pages n Hinv Hall.
  - exists pages. split; [reflexivity|]. rewrite Nat.add_0_r, app_nil_r.
    split; [exact Hinv|reflexivity].
  - apply Forall_cons in Hall as [Hr Hall].
    destruct (abs_insert_uniform pages n r Hinv Hr) as (pages1 & E1 & Hinv1 & Hc1).
    destruct (IH pages1 (S n) Hinv1 Hall) as (pages2 & E2 & Hinv2 & Hc2).
    exists pages2. simpl. rewrite E1, E2. split; [reflexivity|].
    split; [rewrite Nat.add_succ_r; exact Hinv2|].
    rewrite Hc2, Hc1, <- app_assoc. reflexivity.
Qed.

Lemma page_entries_uniform (p : Z) (pg : list bytes) :
  0 <= p -> len pg <= cap ->
  page_entries p pg
  = imap (fun i r => ((cap * p + Z.of_nat i) / cap,
                      (cap * p + Z.of_nat i) mod cap, r)) pg.
Proof.
  intros Hp Hl. unfold page_entries. apply imap_ext. intros i r Hi.
  apply lookup_lt_Some in Hi. unfold len in Hl. f_equal. f_equal.
  - apply Z.div_unique with (r := Z.of_nat i); lia.
  - apply Z.mod_unique with (q := p); lia.
Qed.

Lemma heap_entries_uniform (last : list bytes) (full : list (list bytes)) :
  len last <= cap ->
  forall p, 0 <= p -> Forall (fun pg => len pg = cap) full ->
    heap_entries p (full ++ [last])
    = imap (fun i r => ((cap * p + Z.of_nat i) / cap,
                        (cap * p + Z.of_nat i) mod cap, r))
           (concat (full ++ [last])).
Proof.
  intros Hlast. induction full as [|pg full IH]; intros p Hp Hfull.
  - simpl. rewrite !app_nil_r. apply page_entries_uniform; assumption.
  - apply Forall_cons in Hfull as [Hpg Hfull]. cbn [app heap_entries concat].
    rewrite imap_app, (page_entries_uniform p pg Hp ltac:(lia)). f_equal.
    rewrite (IH (p + 1) ltac:(lia) Hfull). apply imap_ext. intros i r _.
    unfold len in Hpg.
    replace (cap * (p + 1) + Z.of_nat i)
      with (cap * p + Z.of_nat (length pg + i)) by lia.
    reflexivity.
Qed.

Lemma scan_uniform_heap (pages : list (list bytes)) (n : nat) :
  uniform_heap w pages n ->
  heap_entries 0 pages
  = imap (fun k r => ((nth_address w k).1, (nth_address w k).2, r)) (concat pages).
Proof.
  intros (full & last & -> & Hfull & Hlast & _ & _).
  rewrite (heap_entries_uniform last full Hlast 0 ltac:(lia) Hfull).
  apply imap_ext. intros i r _. unfold nth_address. cbn [fst snd].
  rewrite Z.mul_0_r, Z.add_0_l. reflexivity.
Qed.

End Uniform.

(** Inserting records of one size into a file that does not exist. *)
Lemma insert_all_uniform (fs : filesystem) (fname : pystr) (recs : list bytes)
    (w : Z) :
  fs !! fname = None \/ fs !! fname = Some [] ->
  Forall (fun r => len r = w) recs -> w <= 4088 ->
  exists fs',
    insert_all fs fname recs
    = (fs', Ok (nth_address w <$> seq 0 (length recs))) /\
    get_all_raw_records fs' fname
    = Ok (imap (fun k r => ((nth_address w k).1, (nth_address w k).2, r)) recs).
Proof.
  intros Hfresh Hall Hw. destruct recs as [|r recs].
  - exists fs. split; [reflexivity|]. apply get_all_raw_records_absent, Hfresh.
  - assert (Hw0 : 0 <= w).
    { apply Forall_cons in Hall as [<- _]. apply len_nonneg. }
    destruct (abs_insert_all_uniform w Hw0 Hw (r :: recs) [[]] 0%nat
                (uniform_heap_empty w Hw0 Hw) Hall) as (pages' & E & Hinv & Hc).
    pose proof (insert_all_fresh fs fname r recs Hfresh) as Hins.
    rewrite E in Hins. destruct Hins as (fs' & content' & Hins & Hfile & Hrepr).
    exists fs'. split; [exact Hins|].
    rewrite (get_all_raw_records_pages _ _ _ _ Hfile Hrepr).
    rewrite (scan_uniform_heap w pages' _ Hinv), Hc. reflexivity.
Qed.

(** X25. Records of one size [w <= 4088] inserted one after the other
    into a file that does not exist fill the pages in order:
    [records_per_page w] records go to each page, the [k]-th insert
    returns page [k / records_per_page w] and slot
    [k mod records_per_page w], and a scan returns the records in the
    order of insertion, each at its address. *)
Theorem equal_size_records_in_order (fs : filesystem) (fname : pystr)
    (recs : list bytes) (w : Z) :
  fs !! fname = None \/ fs !! fname = Some [] ->
  Forall (fun r => len r = w) recs -> w <= 4088 ->
  exists fs',
    insert_all fs fname recs
    = (fs', Ok (nth_address w <$> seq 0 (length recs))) /\
    get_all_raw_records fs' fname
    = Ok (imap (fun k r => ((nth_address w k).1, (nth_address w k).2, r)) recs).
Proof. apply insert_all_uniform. Qed.

Lemma equal_size_records_in_order_witness :
  exists fs',
    insert_all ∅ (str "t.heap") [repeat x41 2042; repeat x42 2042; repeat x43 2042]
    = (fs', Ok (nth_address 2042
                  <$> seq 0 (length [repeat x41 2042; repeat x42 2042;
                                     repeat x43 2042]))) /\
    get_all_raw_records fs' (str "t.heap")
    = Ok (imap (fun k r => ((nth_address 2042 k).1, (nth_address 2042 k).2, r))
               [repeat x41 2042; repeat x42 2042; repeat x43 2042]).
Proof.
  apply (equal_size_records_in_order ∅ (str "t.heap")
           [repeat x41 2042; repeat x42 2042; repeat x43 2042] 2042).
  - left. reflexivity.
  - repeat constructor.
  - lia.
Defined.

(** * Structured records: what is inserted is what is read *)

Section StructuredRoundtrip.
Context `{PyText}.
Variables (schema : gmap pystr table_desc) (table_name : pystr)
  (table : table_desc) (fields : list field_desc) (fname : pystr).
Hypothesis Hschema : schema !! table_name = Some table.
Hypothesis Hfields : t_fields table = Some fields.
Hypothesis Hfname : table_file_name table = Ok fname.

(** The record has values that fit their fields, and no other keys. *)
Local Abbreviation record_ok rd :=
  (Forall (field_ok rd) fields /\
   forall name : pystr, is_Some (rd !! name) -> name ∈ f_name <$> fields).

Lemma field_ok_widths_nonneg (rd : gmap pystr value) :
  Forall (field_ok rd) fields -> widths_nonneg fields.
Proof.
  unfold widths_nonneg. intros Hall. apply (Forall_impl _ _ _ Hall).
  intros f (base & param & Hp & Hwidth & _) base' n Hp'.
  rewrite Hp in Hp'. injection Hp' as <- ->.
  pose proof (parse_type_param _ _ _ Hp) as Hparam.
  destruct base; [| |discriminate Hparam|discriminate Hparam];
    destruct Hwidth as (n' & [= <-] & Hn); exact Hn.
Qed.

Lemma encode_decode_record (rd : gmap pystr value) :
  record_ok rd ->
  exists b,
    encode_record rd table_name schema = Ok b /\
    len b = record_size fields /\
    decode_record b table_name schema = Ok (rd ∪ defaults_of fields).
Proof.
  intros [Hall Hdom].
  destruct (encode_decode_loops rd fields Hall) as (chunks & Henc & Hdec).
  assert (He : encode_record rd table_name schema = Ok (concat chunks)).
  { unfold encode_record. rewrite Hschema, Hfields, Henc. reflexivity. }
  exists (concat chunks). split; [exact He|]. split.
  - apply (encode_record_size rd table_name schema table fields _ Hschema Hfields
             (field_ok_widths_nonneg rd Hall) He).
  - unfold decode_record. rewrite Hschema, Hfields.
    specialize (Hdec [] [] ∅). rewrite app_nil_r in Hdec. cbn [app] in Hdec.
    change (len []) with 0 in Hdec. rewrite Hdec.
    rewrite (decoded_fields_union rd fields Hall Hdom). reflexivity.
Qed.

Lemma encode_all_records (records : list (gmap pystr value)) :
  Forall (fun rd => record_ok rd) records ->
  exists bs : list bytes,
    Forall2 (fun rd b =>
               encode_record rd table_name schema = Ok b /\
               decode_record b table_name schema = Ok (rd ∪ defaults_of fields))
            records bs /\
    Forall (fun b => len b = record_size fields) bs.
Proof.
  induction 1 as [|rd records Hrd _ (bs & Hbs & Hlens)].
  - exists []. split; constructor.
  - destruct (encode_decode_record rd Hrd) as (b & He & Hl & Hd).
    exists (b :: bs). split; constructor; auto.
Qed.

Lemma insert_all_structured_encoded (records : list (gmap pystr value))
    (bs : list bytes) :
  Forall2 (fun rd b =>
             encode_record rd table_name schema = Ok b /\
             decode_record b table_name schema = Ok (rd ∪ defaults_of fields))
          records bs ->
  forall fs,
    insert_all_structured fs table_name schema records = insert_all fs fname bs.
Proof.
  induction 1 as [|rd b records bs [He _] _ IH]; intros fs; [reflexivity|].
  cbn [insert_all_structured insert_all]. unfold insert_structured_record.
  rewrite Hschema, Hfname, He.
  destruct (insert_record fs fname b) as [fs' [a|e]]; [|reflexivity].
  rewrite IH. reflexivity.
Qed.

Lemma decode_all_placed (records : list (gmap pystr value)) (bs : list bytes) :
  Forall2 (fun rd b =>
             encode_record rd table_name schema = Ok b /\
             decode_record b table_name schema = Ok (rd ∪ defaults_of fields))
          records bs ->
  forall (addr : nat -> Z * Z) (out : list (gmap pystr value)),
    decode_all (imap (fun k r => ((addr k).1, (addr k).2, r)) bs) table_name schema out
    = Ok (out ++ ((fun rd => rd ∪ defaults_of fields) <$> records)).
Proof.
  induction 1 as [|rd b records bs [_ Hd] _ IH]; intros addr out.
  - simpl. rewrite app_nil_r. reflexivity.
  - cbn [imap decode_all fmap list_fmap]. rewrite Hd. cbn [bind].
    rewrite (IH (addr ∘ S)). rewrite <- app_assoc. reflexivity.
Qed.

Lemma insert_all_structured_read_back (fs : filesystem)
    (records : list (gmap pystr value)) :
  fs !! fname = None \/ fs !! fname = Some [] ->
  Forall (fun rd => record_ok rd) records ->
  record_size fields <= 4088 ->
  exists fs',
    insert_all_structured fs table_name schema records
    = (fs', Ok (nth_address (record_size fields) <$> seq 0 (length records))) /\
    read_all_structured_records fs' table_name schema
    = Ok ((fun rd => rd ∪ defaults_of fields) <$> records).
Proof.
  intros Hfresh Hrecords Hsize.
  destruct (encode_all_records records Hrecords) as (bs & Hbs & Hlens).
  destruct (insert_all_uniform fs fname bs (record_size fields) Hfresh Hlens Hsize)
    as (fs' & Hins & Hscan).
  exists fs'. split.
  - rewrite (insert_all_structured_encoded records bs Hbs fs), Hins.
    rewrite (Forall2_length _ _ _ Hbs). reflexivity.
  - unfold read_all_structured_records. rewrite Hschema, Hfname. cbn [bind].
    rewrite Hscan. cbn [bind].
    apply (decode_all_placed records bs Hbs (nth_address (record_size fields)) []).
Qed.

End StructuredRoundtrip.

(** X26. Records inserted with [insert_structured_record] into a table
    whose file does not exist are read back by
    [read_all_structured_records] in the order of insertion, each with
    its missing fields filled by the defaults, provided the values fit
    their fields and the table's record size is at most 4088 bytes; the
    [k]-th insert returns page [k / records_per_page] and slot
    [k mod records_per_page] for the table's record size. *)
Theorem structured_records_read_back_in_order `{PyText}
    (fs : filesystem) (schema : gmap pystr table_desc) (table_name : pystr)
    (table : table_desc) (fields : list field_desc) (fname : pystr)
    (records : list (gmap pystr value)) :
  schema !! table_name = Some table -> t_fields table = Some fields ->
  table_file_name table = Ok fname ->
  fs !! fname = None \/ fs !! fname = Some [] ->
  Forall (fun rd => Forall (field_ok rd) fields /\
                    forall name, is_Some (rd !! name) -> name ∈ f_name <$> fields)
         records ->
  record_size fields <= 4088 ->
  exists fs',
    insert_all_structured fs table_name schema records
    = (fs', Ok (nth_address (record_size fields) <$> seq 0 (length records))) /\
    read_all_structured_records fs' table_name schema
    = Ok ((fun rd => rd ∪ defaults_of fields) <$> records).
Proof.
  intros Hschema Hfields Hfname.
  apply (insert_all_structured_read_back schema table_name table fields fname
           Hschema Hfields Hfname).
Qed.

Lemma employee_record_ok (id : Z) (name : pystr) (name_bytes : bytes)
    (salary : spec_float) :
  - 2147483648 <= id <= 2147483647 ->
  utf8_encode name = Ok name_bytes -> len name_bytes <= 20 ->
  last name_bytes <> Some x00 ->
  single_representable salary ->
  let rd : gmap pystr value :=
    <[str "id" := VInt id]>
      (<[str "name" := VStr name]> (<[str "salary" := VFloat salary]> ∅)) in
  Forall (field_ok rd) employee_fields /\
  forall k, is_Some (rd !! k) -> k ∈ f_name <$> employee_fields.
Proof.
  intros Hid Hname Hlen Hlast Hsalary rd. split.
  - repeat constructor.
    + exists TInt, None. split; [reflexivity|]. split; [exact I|].
      intros v Hv. unfold rd in Hv. rewrite lookup_insert_eq in Hv.
      injection Hv as <-. exact Hid.
    + exists TChar, (Some 20). split; [reflexivity|].
      split; [exists 20; split; [reflexivity|lia]|].
      intros v Hv. unfold rd in Hv.
      rewrite lookup_insert_ne, lookup_insert_eq in Hv by (vm_compute; discriminate).
      injection Hv as <-. exists name_bytes, 20. auto.
    + exists TFloat, None. split; [reflexivity|]. split; [exact I|].
      intros v Hv. unfold rd in Hv.
      rewrite !lookup_insert_ne, lookup_insert_eq in Hv by (vm_compute; discriminate).
      injection Hv as <-. exact Hsalary.
  - intros k [v Hv]. unfold rd in Hv.
    destruct (decide (k = str "id")) as [->|H1];
      [apply list_elem_of_In; simpl; auto|].
    rewrite lookup_insert_ne in Hv by congruence.
    destruct (decide (k = str "name")) as [->|H2];
      [apply list_elem_of_In; simpl; auto|].
    rewrite lookup_insert_ne in Hv by congruence.
    destruct (decide (k = str "salary")) as [->|H3];
      [apply list_elem_of_In; simpl; auto|].
    rewrite lookup_insert_ne in Hv by congruence.
    rewrite lookup_empty in Hv. discriminate.
Qed.

Lemma structured_records_read_back_in_order_witness :
  exists fs',
    insert_all_structured ∅ (str "Employee") demo_schema [alice; bob]
    = (fs', Ok (nth_address (record_size employee_fields)
                  <$> seq 0 (length [alice; bob]))) /\
    read_all_structured_records fs' (str "Employee") demo_schema
    = Ok ((fun rd => rd ∪ defaults_of employee_fields) <$> [alice; bob]).
Proof.
  apply (structured_records_read_back_in_order ∅ demo_schema (str "Employee")
           employee_table employee_fields (str "employee.heap") [alice; bob]).
  - vm_compute. reflexivity.
  - reflexivity.
  - reflexivity.
  - left. reflexivity.
  - constructor; [|constructor; [|constructor]].
    + apply (employee_record_ok 1 (str "Alice") [x41; x6c; x69; x63; x65]
               (S754_finite false 9216000 (-11))).
      * lia.
      * reflexivity.
      * vm_compute. discriminate.
      * discriminate.
      * split; [reflexivity|discriminate].
    + apply (employee_record_ok 2 (str "Bob") [x42; x6f; x62]
               (S754_finite false 15566848 (-12))).
      * lia.
      * reflexivity.
      * vm_compute. discriminate.
      * discriminate.
      * split; [reflexivity|discriminate].
  - vm_compute. discriminate.
Defined.

(** * What the record's keys and a file's last bytes do not change *)

Section EncodeAgree.
Context `{PyText}.

Lemma encode_record_loop_agree (rd rd' : gmap pystr value)
    (fields : list field_desc) :
  (forall f base param,
     f ∈ fields -> _parse_type (f_type f) = Ok (base, param) ->
     default (default_value base) (rd !! f_name f)
     = default (default_value base) (rd' !! f_name f)) ->
  forall parts,
    encode_record_loop rd fields parts = encode_record_loop rd' fields parts.
Proof.
  induction fields as [|f fields IH]; intros Hagree parts; [reflexivity|].
  cbn [encode_record_loop].
  destruct (_parse_type (f_type f)) as [[base param]|] eqn:Ep; [|reflexivity].
  cbn [bind].
  rewrite (Hagree f base param ltac:(apply list_elem_of_here) Ep).
  destruct (match base with
            | TChar => _
            | TVarchar => _
            | TInt => _
            | TFloat => _
            end) as [part|]; [|reflexivity].
  cbn [bind]. apply IH. intros f' base' param' Hin.
  apply Hagree. apply list_elem_of_further. exact Hin.
Qed.

(** X27. [encode_record] depends on the record only through the values
    of the table's fields, a missing field counting as its default (the
    empty string for char and varchar, 0 for int and float): two records
    that agree on these give the same bytes or the same exception, so
    keys that are not field names are ignored. *)
Theorem encode_record_reads_schema_fields (rd rd' : gmap pystr value)
    (table_name : pystr) (schema : gmap pystr table_desc) (table : table_desc)
    (fields : list field_desc) :
  schema !! table_name = Some table -> t_fields table = Some fields ->
  (forall f base param,
     f ∈ fields -> _parse_type (f_type f) = Ok (base, param) ->
     default (default_value base) (rd !! f_name f)
     = default (default_value base) (rd' !! f_name f)) ->
  encode_record rd table_name schema = encode_record rd' table_name schema.
Proof.
  intros Ht Hfields Hagree. unfold encode_record. rewrite Ht, Hfields.
  rewrite (encode_record_loop_agree rd rd' fields Hagree []). reflexivity.
Qed.

End EncodeAgree.

Lemma encode_record_reads_schema_fields_witness :
  encode_record (<[str "age" := VInt 30]> (<[str "id" := VInt 0]> alice))
                (str "Employee") demo_schema
  = encode_record (delete (str "id") alice) (str "Employee") demo_schema.
Proof.
  apply (encode_record_reads_schema_fields
           (<[str "age" := VInt 30]> (<[str "id" := VInt 0]> alice))
           (delete (str "id") alice)
           (str "Employee") demo_schema employee_table employee_fields).
  - vm_compute. reflexivity.
  - reflexivity.
  - intros f base param Hf Hp. apply list_elem_of_In in Hf. simpl in Hf.
    destruct Hf as [<-|[<-|[<-|[]]]]; vm_compute in Hp; injection Hp as <- _;
      vm_compute; reflexivity.
Defined.

Lemma scan_pages_same_pages (fs1 fs2 : filesystem) (fname : pystr) (ps : list Z) :
  (forall p, p ∈ ps -> read_page fs1 fname p = read_page fs2 fname p) ->
  forall acc, scan_pages fs1 fname ps acc = scan_pages fs2 fname ps acc.
Proof.
  induction ps as [|p ps IH]; intros Hread acc; simpl; [reflexivity|].
  rewrite (Hread p ltac:(apply list_elem_of_here)).
  destruct (read_page fs2 fname p) as [page|]; [|reflexivity]. cbn [bind].
  destruct (_read_footer page) as [[sc fo]|]; [|reflexivity]. cbn [bind].
  destruct (scan_slots page p (seqZ 0 sc) acc); [|reflexivity]. cbn [bind].
  apply IH. intros q Hq. apply Hread. apply list_elem_of_further. exact Hq.
Qed.

(** X28. A scan reads whole pages only: when a file consists of whole
    pages followed by fewer than 4096 further bytes, [get_all_raw_records]
    returns what it returns for the file without those bytes. *)
Theorem scan_ignores_partial_last_page (fs : filesystem) (fname : pystr)
    (pages : list bytes) (tail : bytes) :
  Forall (fun pg => len pg = PAGE_SIZE) pages ->
  len tail < PAGE_SIZE ->
  get_all_raw_records (<[fname := concat pages ++ tail]> fs) fname
  = get_all_raw_records (<[fname := concat pages]> fs) fname.
Proof.
  intros Hlen Htail. unfold PAGE_SIZE in Htail.
  pose proof (len_concat_uniform pages 4096 Hlen) as Hsize.
  pose proof (len_nonneg tail) as Ht0. pose proof (len_nonneg pages) as Hp0.
  unfold get_all_raw_records, path_exists, getsize.
  rewrite !lookup_insert_eq. cbn [negb bind]. rewrite len_app, Hsize.
  assert (Hdiv : (4096 * len pages + len tail) / PAGE_SIZE = len pages).
  { unfold PAGE_SIZE. symmetry. apply Z.div_unique with (r := len tail); lia. }
  assert (Hdiv' : 4096 * len pages / PAGE_SIZE = len pages).
  { unfold PAGE_SIZE. symmetry. apply Z.div_unique with (r := 0); lia. }
  rewrite Hdiv, Hdiv'.
  assert (Hscan : scan_pages (<[fname := concat pages ++ tail]> fs) fname
                             (seqZ 0 (len pages)) []
                  = scan_pages (<[fname := concat pages]> fs) fname
                               (seqZ 0 (len pages)) []).
  { apply scan_pages_same_pages. intros p Hp. apply elem_of_seqZ in Hp.
    unfold read_page. rewrite !lookup_insert_eq.
    rewrite !file_seek_inside
      by (rewrite ?len_app, Hsize; unfold PAGE_SIZE; lia).
    cbn [bind].
    rewrite py_slice_app_l; [reflexivity|unfold PAGE_SIZE; lia|].
    rewrite Hsize. unfold PAGE_SIZE. lia. }
  destruct (4096 * len pages + len tail =? 0) eqn:E1;
    destruct (4096 * len pages =? 0) eqn:E2.
  - reflexivity.
  - apply Z.eqb_eq in E1. apply Z.eqb_neq in E2. lia.
  - apply Z.eqb_eq in E2. assert (len pages = 0) as Hz by lia.
    rewrite Hz. reflexivity.
  - exact Hscan.
Qed.

Lemma scan_ignores_partial_last_page_witness :
  get_all_raw_records
    (<[str "t.heap" := concat [insert_image initialize_empty_page [x41] 0 0]
                       ++ [x01; x02; x03]]> ∅) (str "t.heap")
  = get_all_raw_records
      (<[str "t.heap" := concat [insert_image initialize_empty_page [x41] 0 0]]> ∅)
      (str "t.heap").
Proof.
  apply (scan_ignores_partial_last_page ∅ (str "t.heap")
           [insert_image initialize_empty_page [x41] 0 0] [x01; x02; x03]).
  - constructor; [vm_compute; reflexivity|constructor].
  - vm_compute. reflexivity.
Defined.
